(** * Resilient routing decision-support system: route construction and
      stochastic replay

    A shallow embedding of [src/optimization.py] (class [RouteOptimizer]) and
    [src/simulation.py] (classes [WeatherService] and [LogisticsSimulator]).

    Conventions of the embedding:
    - Python [int] is [Z] (so are the entries of the time matrix, 64-bit
      NumPy integers in the application, whose minutes stay far from that
      range); list indices and node numbers are [nat];
    - a finite Python [float] is the rational it stands for, in [Q]; where a
      statement depends on how the interpreter rounds (the thresholds and the
      guard of [WeatherService], the amounts of lines 93-96), an operation on
      floats is the exact operation followed by [fl], rounding to the nearest
      binary64 number, ties to even; the replay of [LogisticsSimulator]
      carries its durations, clocks and costs as exact rationals, and what is
      proved of it counts, orders or compares them;
    - [data_model] (a dict) is the record [DataModel]; the two keys read with
      [dict.get(key, default)] are [option] fields;
    - a raised exception is the outcome [Raise]; a [while] loop whose exit the
      code does not bound is run with fuel, [OutOfFuel] meaning "still
      looping". *)

From Stdlib Require Import String Bool List ZArith QArith Qround Lia Lqa Sorted.
From Stdlib Require Import Permutation Qpower PrimFloat FloatOps.
Import ListNotations.
Close Scope Q_scope.

(** ** Outcomes of fallible, possibly looping code *)

Inductive exn : Type :=
| IndexError
| ValueError (msg : string).

Inductive result (A : Type) : Type :=
| Ok (a : A)
| Raise (e : exn)
| OutOfFuel.

Arguments Ok {A} a.
Arguments Raise {A} e.
Arguments OutOfFuel {A}.

Definition bind {A B : Type} (m : result A) (k : A -> result B) : result B :=
  match m with
  | Ok a => k a
  | Raise e => Raise e
  | OutOfFuel => OutOfFuel
  end.

Declare Scope result_scope.
Delimit Scope result_scope with result.
Notation "x <- m ;; k" := (bind m (fun x => k))
  (at level 61, m at next level, right associativity) : result_scope.
Notation "' p <- m ;; k" := (bind m (fun p => k))
  (at level 61, p pattern, m at next level, right associativity) : result_scope.
Open Scope result_scope.

(** [l[i]] for a non-negative index. *)
Definition list_get {A : Type} (l : list A) (i : nat) : result A :=
  match nth_error l i with
  | Some a => Ok a
  | None => Raise IndexError
  end.

(** [m[i][j]]. *)
Definition matrix_get (m : list (list Z)) (i j : nat) : result Z :=
  row <- list_get m i ;; list_get row j.

(** ** The data model shared by both files *)

Record DataModel : Type := {
  time_matrix : list (list Z);
  time_windows : list (Z * Z);
  num_vehicles : nat;
  depot : nat;
  demands : list Z;
  vehicle_capacities : list Z;
  max_time_minutes : option Z;
  service_time : option Z
}.

(** [data.get(key, default)]. *)
Definition get {A : Type} (field : option A) (default : A) : A :=
  match field with
  | Some v => v
  | None => default
  end.

(** ** optimization.py: the greedy baseline *)

Module Optimizer.

Local Open Scope Z_scope.

(** The local variables of one pass of the outer loop. *)
Record Vehicle : Type := {
  route : list nat;
  current_load : Z;
  current_time : Z;
  current_node : nat
}.

(** Lines 137-140: a new route opened at the depot. *)
Definition fresh (d : DataModel) : Vehicle :=
  {| route := []; current_load := 0; current_time := 0;
     current_node := depot d |}.

(** Lines 148-163: the body of [for candidate in unvisited].  [best] holds
    [nearest] and [min_dist], which the code assigns together: [None] is
    [nearest = None], [min_dist = inf]. *)
Definition scan_candidate (d : DataModel) (vehicle_capacity : Z) (v : Vehicle)
    (best : option (nat * Z)) (candidate : nat) : result (option (nat * Z)) :=
  dist_to <- matrix_get (time_matrix d) (current_node v) candidate ;;
  dist_back <- matrix_get (time_matrix d) candidate (depot d) ;;
  demand <- list_get (demands d) candidate ;;
  let service := get (service_time d) 10 in
  if current_load v + demand >? vehicle_capacity then Ok best
  else if current_time v + dist_to + service + dist_back
            >? get (max_time_minutes d) 480 then Ok best
  else match best with
       | None => Ok (Some (candidate, dist_to))
       | Some (_, min_dist) =>
           if dist_to <? min_dist then Ok (Some (candidate, dist_to))
           else Ok best
       end.

(** Lines 144-163.  [unvisited] is the Python set in the order CPython
    enumerates it: a set of small non-negative ints built from [range] is
    enumerated in increasing order, and [remove] keeps that order. *)
Fixpoint scan_from (d : DataModel) (vehicle_capacity : Z) (v : Vehicle)
    (best : option (nat * Z)) (unvisited : list nat)
    : result (option (nat * Z)) :=
  match unvisited with
  | [] => Ok best
  | candidate :: rest =>
      best' <- scan_candidate d vehicle_capacity v best candidate ;;
      scan_from d vehicle_capacity v best' rest
  end.

Definition scan (d : DataModel) (vehicle_capacity : Z) (v : Vehicle)
    (unvisited : list nat) : result (option (nat * Z)) :=
  scan_from d vehicle_capacity v None unvisited.

(** Lines 169-173. *)
Definition move (v : Vehicle) (nearest : nat) (min_dist demand : Z) : Vehicle :=
  {| route := route v ++ [nearest];
     current_load := current_load v + demand;
     current_time := current_time v + (min_dist + 10);
     current_node := nearest |}.

(** Lines 143-173: [while True].  Every pass that does not break removes one
    element of [unvisited], so [S (length unvisited)] passes always suffice
    (lemma [route_loop_fuel]). *)
Fixpoint route_loop (fuel : nat) (d : DataModel) (vehicle_capacity : Z)
    (v : Vehicle) (unvisited : list nat) : result (Vehicle * list nat) :=
  match fuel with
  | O%nat => OutOfFuel
  | S fuel' =>
      best <- scan d vehicle_capacity v unvisited ;;
      match best with
      | None => Ok (v, unvisited)
      | Some (nearest, min_dist) =>
          demand <- list_get (demands d) nearest ;;
          route_loop fuel' d vehicle_capacity (move v nearest min_dist demand)
            (remove Nat.eq_dec nearest unvisited)
      end
  end.

(** Lines 136-175: [while unvisited]. *)
Fixpoint routes_loop (fuel : nat) (d : DataModel) (routes : list (list nat))
    (unvisited : list nat) : result (list (list nat)) :=
  match fuel with
  | O%nat => OutOfFuel
  | S fuel' =>
      match unvisited with
      | [] => Ok routes
      | _ :: _ =>
          vehicle_capacity <- list_get (vehicle_capacities d) 0 ;;
          '(v, unvisited') <-
            route_loop (S (length unvisited)) d vehicle_capacity (fresh d)
              unvisited ;;
          routes_loop fuel' d (routes ++ [route v]) unvisited'
      end
  end.

(** Lines 127-177. *)
Definition solve_greedy (fuel : nat) (d : DataModel)
    : result (list (list nat)) :=
  routes_loop fuel d [] (seq 1 (length (time_matrix d) - 1)%nat).

(** *** Quantities the claims speak about *)

(** A candidate passes both guards of lines 154 and 158. *)
Definition eligible (d : DataModel) (vehicle_capacity : Z) (v : Vehicle)
    (candidate : nat) : Prop :=
  exists dist_to dist_back demand,
    matrix_get (time_matrix d) (current_node v) candidate = Ok dist_to /\
    matrix_get (time_matrix d) candidate (depot d) = Ok dist_back /\
    list_get (demands d) candidate = Ok demand /\
    current_load v + demand <= vehicle_capacity /\
    current_time v + dist_to + get (service_time d) 10 + dist_back
      <= get (max_time_minutes d) 480.

(** Sum of the demands of the stops of a route. *)
Fixpoint route_demand (d : DataModel) (r : list nat) : result Z :=
  match r with
  | [] => Ok 0
  | stop :: rest =>
      demand <- list_get (demands d) stop ;;
      total <- route_demand d rest ;;
      Ok (demand + total)
  end.

(** Travel minutes of the legs of a route that starts at [from], the return
    leg excluded. *)
Fixpoint route_travel (d : DataModel) (from : nat) (r : list nat) : result Z :=
  match r with
  | [] => Ok 0
  | stop :: rest =>
      leg <- matrix_get (time_matrix d) from stop ;;
      total <- route_travel d stop rest ;;
      Ok (leg + total)
  end.

(** Minutes from leaving the depot to being back at it, with [service]
    minutes spent at every stop. *)
Definition route_duration (d : DataModel) (service : Z) (r : list nat)
    : result Z :=
  travel <- route_travel d (depot d) r ;;
  back <- matrix_get (time_matrix d) (last r (depot d)) (depot d) ;;
  Ok (travel + service * Z.of_nat (length r) + back).

(** What [nearest] and [min_dist] are worth, relative to the candidates
    [seen] so far. *)
Definition chosen (d : DataModel) (vehicle_capacity : Z) (v : Vehicle)
    (seen : nat -> Prop) (best : option (nat * Z)) : Prop :=
  match best with
  | None => forall c, seen c -> ~ eligible d vehicle_capacity v c
  | Some (nearest, min_dist) =>
      seen nearest /\ eligible d vehicle_capacity v nearest /\
      matrix_get (time_matrix d) (current_node v) nearest = Ok min_dist /\
      forall c dist,
        seen c -> eligible d vehicle_capacity v c ->
        matrix_get (time_matrix d) (current_node v) c = Ok dist ->
        min_dist <= dist /\ (dist = min_dist -> (nearest <= c)%nat)
  end.

(** What the locals of the inner loop stand for: the load is the demand of
    the route, the clock is its travel time plus ten minutes a stop, and the
    last stop passed the two guards. *)
Definition tracked (d : DataModel) (vehicle_capacity : Z) (v : Vehicle)
    : Prop :=
  route_demand d (route v) = Ok (current_load v) /\
  current_node v = last (route v) (depot d) /\
  (exists travel,
     route_travel d (depot d) (route v) = Ok travel /\
     current_time v = travel + 10 * Z.of_nat (length (route v))) /\
  (route v <> [] ->
     current_load v <= vehicle_capacity /\
     exists back,
       matrix_get (time_matrix d) (current_node v) (depot d) = Ok back /\
       current_time v - 10 + get (service_time d) 10 + back
         <= get (max_time_minutes d) 480).

(** The shape the optimizer expects of its input: a square matrix with a
    demand for every node and the depot among the nodes. *)
Definition well_formed (d : DataModel) : Prop :=
  let n := length (time_matrix d) in
  (depot d < n)%nat /\
  (forall i j, (i < n)%nat -> (j < n)%nat ->
     exists t, matrix_get (time_matrix d) i j = Ok t) /\
  (forall i, (i < n)%nat -> exists q, list_get (demands d) i = Ok q).

(** *** The constraint-search strategy

    OR-Tools is an external library.  The embedding keeps what [solve] hands
    to it (two dimensions and the ranges of the cumul variables) and what
    [_extract_routes] reads back (the successor of every index); the answer of
    [SolveWithParameters] is an input of the model. *)

(** [RoutingIndexManager] and the index queries of [RoutingModel]. *)
Record RoutingModel : Type := {
  IndexToNode : nat -> nat;
  NodeToIndex : nat -> nat;
  Start : nat -> nat;
  IsEnd : nat -> bool
}.

(** The assignment returned by the solver: [Value(NextVar(index))] and the
    value of [CumulVar(index)] of the named dimension. *)
Record Assignment : Type := {
  Next : nat -> nat;
  Cumul : string -> nat -> Z
}.

(** Lines 32-44. *)
Definition time_callback (m : RoutingModel) (d : DataModel)
    (from_index to_index : nat) : result Z :=
  let from_node := IndexToNode m from_index in
  let to_node := IndexToNode m to_index in
  travel_time <- matrix_get (time_matrix d) from_node to_node ;;
  let service :=
    if Nat.eqb from_node (depot d) then 0 else get (service_time d) 0 in
  Ok (travel_time + service).

(** Lines 83-85. *)
Definition demand_callback (m : RoutingModel) (d : DataModel)
    (from_index : nat) : result Z :=
  list_get (demands d) (IndexToNode m from_index).

(** The arguments of [AddDimension] / [AddDimensionWithVehicleCapacity]. *)
Record Dimension : Type := {
  name : string;
  transit : nat -> nat -> result Z;
  slack_max : Z;
  capacity : nat -> result Z;
  fix_start_cumul_to_zero : bool
}.

(** Lines 59-65. *)
Definition time_dimension (m : RoutingModel) (d : DataModel) : Dimension :=
  {| name := "Time";
     transit := time_callback m d;
     slack_max := 1440;
     capacity := fun _ => Ok 1440;
     fix_start_cumul_to_zero := false |}.

(** Lines 87-94. *)
Definition capacity_dimension (m : RoutingModel) (d : DataModel) : Dimension :=
  {| name := "Capacity";
     transit := fun from_index _ => demand_callback m d from_index;
     slack_max := 0;
     capacity := fun vehicle_id => list_get (vehicle_capacities d) vehicle_id;
     fix_start_cumul_to_zero := true |}.

(** Lines 69-73: the [SetRange] calls on the customers' cumul variables;
    [location_idx] is the position of the first of [windows] in
    [time_windows]. *)
Fixpoint window_ranges (m : RoutingModel) (d : DataModel) (location_idx : nat)
    (windows : list (Z * Z)) : list (nat * (Z * Z)) :=
  match windows with
  | [] => []
  | (start, stop) :: rest =>
      if Nat.eqb location_idx (depot d)
      then window_ranges m d (S location_idx) rest
      else (NodeToIndex m location_idx, (start, stop))
             :: window_ranges m d (S location_idx) rest
  end.

(** Lines 77-80: the [SetRange] calls on the vehicles' start variables. *)
Definition start_ranges (m : RoutingModel) (d : DataModel)
    : result (list (nat * (Z * Z))) :=
  match num_vehicles d with
  | O => Ok []
  | S _ =>
      depot_window <- list_get (time_windows d) (depot d) ;;
      Ok (map (fun vehicle_id => (Start m vehicle_id, (fst depot_window, 1440)))
            (seq 0 (num_vehicles d)))
  end.

(** Lines 66-80: every range posted on the time dimension. *)
Definition time_ranges (m : RoutingModel) (d : DataModel)
    : result (list (nat * (Z * Z))) :=
  starts <- start_ranges m d ;;
  Ok (window_ranges m d 0 (time_windows d) ++ starts).

(** Lines 116-124: the walk of one vehicle. *)
Fixpoint walk (fuel : nat) (m : RoutingModel) (d : DataModel)
    (solution : Assignment) (index : nat) (route : list nat)
    : result (list nat) :=
  match fuel with
  | O => OutOfFuel
  | S fuel' =>
      if IsEnd m index then Ok route
      else
        let node_index := IndexToNode m index in
        let route' :=
          if Nat.eqb node_index (depot d) then route
          else route ++ [node_index] in
        walk fuel' m d solution (Next solution index) route'
  end.

Fixpoint walk_vehicles (fuel : nat) (m : RoutingModel) (d : DataModel)
    (solution : Assignment) (vehicles : list nat) : result (list (list nat)) :=
  match vehicles with
  | [] => Ok []
  | vehicle_id :: rest =>
      route <- walk fuel m d solution (Start m vehicle_id) [] ;;
      routes <- walk_vehicles fuel m d solution rest ;;
      Ok (route :: routes)
  end.

(** Lines 108-125. *)
Definition _extract_routes (fuel : nat) (m : RoutingModel) (d : DataModel)
    (solution : option Assignment) : result (list (list nat)) :=
  match solution with
  | None => Ok []
  | Some sol => walk_vehicles fuel m d sol (seq 0 (num_vehicles d))
  end.

(** Lines 17-106.  [solution] is what [SolveWithParameters] answered for the
    model built here. *)
Definition solve (fuel : nat) (m : RoutingModel) (d : DataModel)
    (solution : option Assignment) : result (list (list nat)) :=
  _ <- time_ranges m d ;;
  _extract_routes fuel m d solution.

(** *** What OR-Tools promises of a returned assignment *)

(** The indices a vehicle goes through before its end index, and that end
    index. *)
Fixpoint path (fuel : nat) (m : RoutingModel) (solution : Assignment)
    (index : nat) : result (list nat * nat) :=
  match fuel with
  | O => OutOfFuel
  | S fuel' =>
      if IsEnd m index then Ok ([], index)
      else
        '(p, e) <- path fuel' m solution (Next solution index) ;;
        Ok (index :: p, e)
  end.

(** Along a path, [cumul(next) = cumul(index) + transit(index, next) + slack]
    with [0 <= slack <= slack_max]. *)
Fixpoint chained (dim : Dimension) (cumul : nat -> Z) (p : list nat) (e : nat)
    : Prop :=
  match p with
  | [] => True
  | index :: rest =>
      (exists t, transit dim index (hd e rest) = Ok t /\
         cumul index + t <= cumul (hd e rest) <= cumul index + t + slack_max dim)
      /\ chained dim cumul rest e
  end.

(** Every cumul variable of the path stays in [0, capacity(vehicle)], and the
    start variable is zero when the dimension says so. *)
Definition bounded (dim : Dimension) (cumul : nat -> Z) (vehicle_id : nat)
    (p : list nat) (e : nat) : Prop :=
  (exists c, capacity dim vehicle_id = Ok c /\
     forall index, In index (p ++ [e]) -> 0 <= cumul index <= c) /\
  (fix_start_cumul_to_zero dim = true -> cumul (hd e p) = 0).

Definition in_ranges (cumul : nat -> Z) (ranges : list (nat * (Z * Z)))
    : Prop :=
  Forall (fun r => fst (snd r) <= cumul (fst r) <= snd (snd r)) ranges.

(** A returned assignment satisfies every constraint [solve] posted. *)
Definition feasible (fuel : nat) (m : RoutingModel) (d : DataModel)
    (sol : Assignment) : Prop :=
  (forall vehicle_id, (vehicle_id < num_vehicles d)%nat ->
     exists p e,
       path fuel m sol (Start m vehicle_id) = Ok (p, e) /\
       chained (time_dimension m d) (Cumul sol "Time") p e /\
       bounded (time_dimension m d) (Cumul sol "Time") vehicle_id p e /\
       chained (capacity_dimension m d) (Cumul sol "Capacity") p e /\
       bounded (capacity_dimension m d) (Cumul sol "Capacity") vehicle_id p e)
  /\ (forall ranges, time_ranges m d = Ok ranges ->
        in_ranges (Cumul sol "Time") ranges).

(** What the index manager promises: a start index stands for the depot, and
    a customer has one index only. *)
Definition manager_ok (m : RoutingModel) (d : DataModel) : Prop :=
  (forall vehicle_id, IndexToNode m (Start m vehicle_id) = depot d) /\
  (forall index, IndexToNode m index <> depot d ->
     NodeToIndex m (IndexToNode m index) = index).

(** The customers among the nodes of a path of indices. *)
Definition customers (m : RoutingModel) (d : DataModel) (p : list nat)
    : list nat :=
  filter (fun node => negb (Nat.eqb node (depot d))) (map (IndexToNode m) p).

(** Minutes a vehicle at node [from] needs to go through [nodes] without
    waiting: the travel time of every leg, and the service time at every
    node it leaves that is not the depot. *)
Fixpoint minutes_along (d : DataModel) (from : nat) (nodes : list nat)
    : result Z :=
  match nodes with
  | [] => Ok 0
  | node :: rest =>
      travel_time <- matrix_get (time_matrix d) from node ;;
      total <- minutes_along d node rest ;;
      let service :=
        if Nat.eqb from (depot d) then 0 else get (service_time d) 0 in
      Ok (travel_time + service + total)
  end.

End Optimizer.

(** ** Python's numbers *)

(** [round(x)] to an integer, ties to the even neighbour. *)
Definition round_half_even (x : Q) : Z :=
  let f := Qfloor x in
  match Qcompare (x - inject_Z f) (1 # 2) with
  | Lt => f
  | Gt => (f + 1)%Z
  | Eq => if Z.even f then f else (f + 1)%Z
  end.

(** A float is an IEEE 754 binary64 number: 53 significant bits, the last
    of them never below 2^-1074.  Results of magnitude 2^1024 or more, which
    the interpreter turns into an infinity, and NaN are outside the model. *)
Module Binary64.

Local Open Scope Q_scope.

Definition pow2 (e : Z) : Q := 2 ^ e.

(** [floor (log2 x)] for a positive [x]. *)
Definition ilog2 (x : Q) : Z :=
  let k := (Z.log2 (Qnum x) - Z.log2 (Zpos (Qden x)))%Z in
  if Qle_bool (pow2 k) x then k else (k - 1)%Z.

(** The exponent of the last bit kept of a positive [x]. *)
Definition last_bit (x : Q) : Z := Z.max (ilog2 x - 52) (-1074).

(** The float nearest to a positive [x], ties to the even significand. *)
Definition nearest (x : Q) : Q :=
  let e := last_bit x in
  inject_Z (round_half_even (x / pow2 e)) * pow2 e.

(** The float an operation returns whose exact result is [x]. *)
Definition fl (x : Q) : Q :=
  match Qcompare x 0 with
  | Eq => 0
  | Gt => nearest x
  | Lt => - nearest (- x)
  end.


(** The rational a finite float of the kernel stands for. *)
Definition to_Q (x : PrimFloat.float) : Q :=
  match FloatOps.Prim2SF x with
  | SpecFloat.S754_finite s m e =>
      (if s then - inject_Z (Zpos m) else inject_Z (Zpos m)) * pow2 e
  | _ => 0
  end.

(** An operation of the kernel's binary64 and the exact operation followed
    by [fl] agree on two floats. *)
Definition conforms
    (op : PrimFloat.float -> PrimFloat.float -> PrimFloat.float)
    (exact : Q -> Q -> Q) (x y : PrimFloat.float) : bool :=
  Qeq_bool (to_Q (op x y)) (fl (exact (to_Q x) (to_Q y))).

(** Pairs of floats to compare the two on: 0.3 and 0.4, 0.1 and 0.2, 0.5 and
    0.5000000000000001, 36.85 and 20, 3 and 1.6, 16.85 and 2.5, 0.625 and
    100; halfway cases next to 1 and to 2; subnormal numbers. *)
Definition samples : list (PrimFloat.float * PrimFloat.float) :=
  [(0x1.3333333333333p-2, 0x1.999999999999ap-2);
   (0x1.999999999999ap-4, 0x1.999999999999ap-3);
   (0x1p-1, 0x1.0000000000001p-1);
   (0x1.26ccccccccccdp+5, 0x1.4p+4);
   (0x1.8p+1, 0x1.999999999999ap+0);
   (0x1.0d9999999999ap+4, 0x1.4p+1);
   (0x1.4p-1, 0x1.9p+6);
   (0x1p+0, 0x1p-53);
   (0x1p+0, 0x1.8p-53);
   (0x1p+0, 0x1.0000000000001p-53);
   (0x1.fffffffffffffp+0, 0x1p-53);
   (0x1.fffffffffffffp+0, 0x1.8p-53);
   (0x1p-1074, 0x1p-1074);
   (0x1p-1074, 0x1p-1);
   (0x1.8p-1073, 0x1p-1);
   (0x1.fffffffffffffp-1023, 0x1.8p+0)]%float.

End Binary64.

(** ** simulation.py *)

(** Lines 8-11. *)
Record WeatherState : Type := {
  name : string;
  travel_time_factor : Q
}.

Module WeatherService.

Import Binary64.
Local Open Scope Q_scope.

(** Lines 17-21: the three entries of [STATES].  1.0 and 1.25 are floats;
    1.60 is not, and the table holds the float nearest to it. *)
Definition Ensolarado : WeatherState :=
  {| name := "Ensolarado"; travel_time_factor := 1 |}.
Definition Chuva_Leve : WeatherState :=
  {| name := "Chuva Leve"; travel_time_factor := 125 # 100 |}.
Definition Tempestade_Severa : WeatherState :=
  {| name := "Tempestade Severa"; travel_time_factor := fl (160 # 100) |}.

(** The attributes of an instance. *)
Record t : Type := {
  storm_prob : Q;
  rain_prob : Q;
  sunny_prob : Q
}.

(** Lines 23-29: the sum and the difference of line 26 are rounded. *)
Definition __init__ (storm_prob rain_prob : Q) : result t :=
  let sunny_prob := fl (1 - fl (storm_prob + rain_prob)) in
  if Qlt_le_dec sunny_prob 0
  then Raise (ValueError "A soma das probabilidades não pode exceder 1.0")
  else Ok {| storm_prob := storm_prob; rain_prob := rain_prob;
             sunny_prob := sunny_prob |}.

(** Lines 31-41; [r] is the value [random.random()] returned.  The second
    threshold is the sum of line 38 as rounded. *)
Definition get_current_weather (self : t) (r : Q) : WeatherState :=
  if Qlt_le_dec r (storm_prob self) then Tempestade_Severa
  else if Qlt_le_dec r (fl (storm_prob self + rain_prob self)) then Chuva_Leve
  else Ensolarado.

End WeatherService.

Module LogisticsSimulator.

Import Binary64 WeatherService.
Local Open Scope Q_scope.

(** Line 55. *)
Definition OVERTIME_RATE_PER_MIN : Q := 25 # 10.

(** [round(x, 2)]. *)
Definition round2 (x : Q) : Q := round_half_even (x * 100) # 100.

(** One row of [self.logs]. *)
Record Event : Type := {
  Veiculo : nat;
  De : nat;
  Para : nat;
  Clima : string;
  Tempo_Base : Z;
  Tempo_Real : Q;
  Hora_Chegada : Q;
  Atraso : Q;
  Custo_Hora_Extra : Q
}.

(** Where a [drive] generator is suspended, with the locals it still needs. *)
Inductive Suspended : Type :=
| Traveling (current_node next_node : nat) (rest : list nat)
    (weather : WeatherState) (base_travel_time : Z) (actual_travel_time : Q)
| Servicing (next_node : nat) (rest : list nat)
| Returning (current_node : nat)
    (weather : WeatherState) (base_travel_time : Z) (actual_travel_time : Q).

(** A pending [timeout] of the environment and the generator waiting on it. *)
Record Scheduled : Type := {
  time : Q;
  vehicle_id : nat;
  at_yield : Suspended
}.

(** The simulator and its environment.  [queue] is kept in the order the
    timeouts were created; [draws] counts the calls of [random.random()]. *)
Record Sim : Type := {
  now : Q;
  queue : list Scheduled;
  draws : nat;
  logs : list Event;
  total_overtime_cost : Q
}.

(** [env.timeout(delay)]: a negative delay is refused by SimPy. *)
Definition timeout (s : Sim) (delay : Q) (vehicle : nat) (k : Suspended)
    : result Sim :=
  if Qlt_le_dec delay 0 then Raise (ValueError "Negative delay")
  else Ok {| now := now s;
             queue := queue s ++ [{| time := now s + delay;
                                     vehicle_id := vehicle;
                                     at_yield := k |}];
             draws := draws s;
             logs := logs s;
             total_overtime_cost := total_overtime_cost s |}.

(** Lines 64-75 and 105-112: from [current_node], leave for the next stop of
    the route or, after the last one, for the depot. *)
Definition depart (random : nat -> Q) (w : WeatherService.t) (d : DataModel)
    (s : Sim) (vehicle current_node : nat) (route : list nat) : result Sim :=
  let to := match route with next_node :: _ => next_node | [] => depot d end in
  base_travel_time <- matrix_get (time_matrix d) current_node to ;;
  let weather := get_current_weather w (random (draws s)) in
  let actual_travel_time := inject_Z base_travel_time * travel_time_factor weather in
  let s' := {| now := now s; queue := queue s; draws := S (draws s);
               logs := logs s;
               total_overtime_cost := total_overtime_cost s |} in
  timeout s' actual_travel_time vehicle
    match route with
    | next_node :: rest =>
        Traveling current_node next_node rest weather base_travel_time
          actual_travel_time
    | [] => Returning current_node weather base_travel_time actual_travel_time
    end.

(** Lines 79-88 and 115-124: the row appended on arrival, its cost filled in
    by lines 92-98 and 128-134. *)
Definition arrival_event (vehicle current_node to : nat) (weather : WeatherState)
    (base_travel_time : Z) (actual_travel_time current_time cost : Q) : Event :=
  {| Veiculo := vehicle; De := current_node; Para := to;
     Clima := name weather;
     Tempo_Base := base_travel_time;
     Tempo_Real := round2 actual_travel_time;
     Hora_Chegada := round2 current_time;
     Atraso := round2 (actual_travel_time - inject_Z base_travel_time);
     Custo_Hora_Extra := cost |}.

(** Lines 92-98 and 128-134, the same code with [latest_allowed] and
    [max_time]: the row is appended and the ledger charged. *)
Definition charge (s : Sim) (bound : Z) (row : Q -> Event) : Sim :=
  let current_time := now s in
  if Qlt_le_dec (inject_Z bound) current_time then
    let overtime := current_time - inject_Z bound in
    let cost := overtime * OVERTIME_RATE_PER_MIN in
    {| now := now s; queue := queue s; draws := draws s;
       logs := logs s ++ [row (round2 cost)];
       total_overtime_cost := total_overtime_cost s + cost |}
  else
    {| now := now s; queue := queue s; draws := draws s;
       logs := logs s ++ [row 0];
       total_overtime_cost := total_overtime_cost s |}.


(** The bound an arrival is compared with: line 91 for a customer, line 127
    for the depot; [None] when the generator resumes after a service. *)
Definition bound_of (d : DataModel) (k : Suspended) : result (option Z) :=
  match k with
  | Traveling _ next_node _ _ _ _ =>
      window <- list_get (time_windows d) next_node ;; Ok (Some (snd window))
  | Servicing _ _ => Ok None
  | Returning _ _ _ _ => Ok (Some (get (max_time_minutes d) 480%Z))
  end.

(** [drive] from one [yield] to the next, at clock [now s]. *)
Definition resume (random : nat -> Q) (w : WeatherService.t) (d : DataModel)
    (s : Sim) (vehicle : nat) (k : Suspended) : result Sim :=
  match k with
  | Traveling current_node next_node rest weather base actual =>
      window <- list_get (time_windows d) next_node ;;
      let s' := charge s (snd window)
                  (arrival_event vehicle current_node next_node weather base
                     actual (now s)) in
      timeout s' (inject_Z (get (service_time d) 10%Z)) vehicle
        (Servicing next_node rest)
  | Servicing next_node rest => depart random w d s vehicle next_node rest
  | Returning current_node weather base actual =>
      Ok (charge s (get (max_time_minutes d) 480%Z)
            (arrival_event vehicle current_node (depot d) weather base actual
               (now s)))
  end.

(** The pending timeout the environment fires next: the earliest one, the
    first created among equals. *)
Fixpoint pop (q : list Scheduled) : option (Scheduled * list Scheduled) :=
  match q with
  | [] => None
  | e :: rest =>
      match pop rest with
      | None => Some (e, [])
      | Some (e', rest') =>
          if Qlt_le_dec (time e') (time e) then Some (e', e :: rest')
          else Some (e, rest)
      end
  end.

(** One turn of [env.run()]: [None] when nothing is pending. *)
Definition step (random : nat -> Q) (w : WeatherService.t) (d : DataModel)
    (s : Sim) : result (option Sim) :=
  match pop (queue s) with
  | None => Ok None
  | Some (e, rest) =>
      s' <- resume random w d
              {| now := time e; queue := rest; draws := draws s;
                 logs := logs s;
                 total_overtime_cost := total_overtime_cost s |}
              (vehicle_id e) (at_yield e) ;;
      Ok (Some s')
  end.

(** Line 144. *)
Fixpoint run_events (fuel : nat) (random : nat -> Q) (w : WeatherService.t)
    (d : DataModel) (s : Sim) : result Sim :=
  match fuel with
  | O => OutOfFuel
  | S fuel' =>
      next <- step random w d s ;;
      match next with
      | None => Ok s
      | Some s' => run_events fuel' random w d s'
      end
  end.

(** Lines 140-142: the generators of the non-empty routes run to their first
    [yield], in the order of [enumerate]. *)
Fixpoint start (random : nat -> Q) (w : WeatherService.t) (d : DataModel)
    (s : Sim) (i : nat) (routes : list (list nat)) : result Sim :=
  match routes with
  | [] => Ok s
  | route :: rest =>
      s' <- match route with
            | [] => Ok s
            | _ :: _ => depart random w d s i (depot d) route
            end ;;
      start random w d s' (S i) rest
  end.

(** Lines 48-55. *)
Definition init : Sim :=
  {| now := 0; queue := []; draws := 0; logs := [];
     total_overtime_cost := 0 |}.

(** Lines 136-149; the returned state holds [self.logs] and
    [self.total_overtime_cost]. *)
Definition run (fuel : nat) (random : nat -> Q) (w : WeatherService.t)
    (d : DataModel) (routes : list (list nat)) : result Sim :=
  s <- start random w d init 0 routes ;;
  run_events fuel random w d s.

(** *** Quantities the claims speak about *)


(** The timeout about to fire is an arrival past its bound. *)
Definition late (d : DataModel) (s : Sim) : bool :=
  match pop (queue s) with
  | Some (e, _) =>
      match bound_of d (at_yield e) with
      | Ok (Some bound) =>
          if Qlt_le_dec (inject_Z bound) (time e) then true else false
      | _ => false
      end
  | None => false
  end.

(** No arrival of the run of [run_events fuel] from [s] is late. *)
Fixpoint on_time (fuel : nat) (random : nat -> Q) (w : WeatherService.t)
    (d : DataModel) (s : Sim) : bool :=
  match fuel with
  | O => true
  | S fuel' =>
      negb (late d s) &&
      match step random w d s with
      | Ok (Some s') => on_time fuel' random w d s'
      | _ => true
      end
  end.

(** Timeouts a suspended generator still has to wait for, this one
    included, and the same for a whole queue. *)
Definition pending (k : Suspended) : nat :=
  match k with
  | Traveling _ _ rest _ _ _ => 2 * length rest + 3
  | Servicing _ rest => 2 * length rest + 2
  | Returning _ _ _ _ => 1
  end.

Definition work (q : list Scheduled) : nat :=
  fold_right (fun e acc => pending (at_yield e) + acc)%nat O q.

End LogisticsSimulator.

(** ** data_gen.py: the generated instance

    The class [RealWorldVRPCreator] as the file leaves it defined (its second
    definition).  NumPy's generator, seeded by [__init__], is a [Stream]: what
    each call would yield, by the number of the call.  [calculate_time_matrix]
    goes through trigonometry and is an input of the model. *)

Module DataGen.

Local Open Scope Z_scope.

(** Lines 106-113. *)
Record Location : Type := {
  id : nat;
  lat : Q;
  lon : Q;
  demand : Z;
  is_depot : bool;
  cluster : string
}.

(** Lines 122-127, in the order of the dict. *)
Definition HUBS : list (string * (Q * Q)) :=
  [("Centro"%string, (- (235505 # 10000), - (466333 # 10000))%Q);
   ("Itaim"%string, (- (235840 # 10000), - (466780 # 10000))%Q);
   ("Guarulhos"%string, (- (234628 # 10000), - (465333 # 10000))%Q);
   ("Osasco"%string, (- (235329 # 10000), - (467920 # 10000))%Q)].

(** The seeded generator: the standard normal deviates call number [call]
    yields, by position, and the raw integer call number [call] reduces to
    its range. *)
Record Stream : Type := {
  deviate : nat -> nat -> Q;
  integer : nat -> Z
}.

(** [np.random.normal(loc, scale, size)]: [size] samples. *)
Definition normal (g : Stream) (call : nat) (loc scale : Q) (size : nat)
    : list Q :=
  map (fun position => (loc + scale * deviate g call position)%Q) (seq 0 size).

(** [np.random.randint(low, high)]: an integer of [low, high), or
    [ValueError] when the range is empty. *)
Definition randint (g : Stream) (call : nat) (low high : Z) : result Z :=
  if high <=? low then Raise (ValueError "low >= high")
  else Ok (low + integer g call mod (high - low)).

(** Lines 175-178: [for lat, lon in zip(lats, lons)].  Returns the locations
    appended, the next customer id and the number of the next call. *)
Fixpoint customers_of_hub (g : Stream) (call customer_id : nat)
    (hub_name : string) (coordinates : list (Q * Q))
    : result (list Location * nat * nat) :=
  match coordinates with
  | [] => Ok ([], customer_id, call)
  | (lat, lon) :: rest =>
      demand <- randint g call 1 10 ;;
      '(more, next_id, next_call) <-
        customers_of_hub g (S call) (S customer_id) hub_name rest ;;
      Ok ({| id := customer_id; lat := lat; lon := lon; demand := demand;
             is_depot := false; cluster := hub_name |} :: more,
          next_id, next_call)
  end.

(** Lines 163-178: [for i, (hub_name, (hub_lat, hub_lon)) in enumerate(...)]. *)
Fixpoint hubs_loop (g : Stream) (num_customers i : nat)
    (hubs : list (string * (Q * Q))) (call customer_id : nat)
    : result (list Location * nat * nat) :=
  match hubs with
  | [] => Ok ([], customer_id, call)
  | (hub_name, (hub_lat, hub_lon)) :: rest =>
      let points_per_hub := (num_customers / length HUBS)%nat in
      let remainder := (num_customers mod length HUBS)%nat in
      let count :=
        (points_per_hub + (if (i <? remainder)%nat then 1 else 0))%nat in
      let lats := normal g call hub_lat (2 # 100) count in
      let lons := normal g (S call) hub_lon (2 # 100) count in
      '(here, id1, call1) <-
        customers_of_hub g (S (S call)) customer_id hub_name
          (combine lats lons) ;;
      '(more, id2, call2) <-
        hubs_loop g num_customers (S i) rest call1 id1 ;;
      Ok (here ++ more, id2, call2)
  end.

(** Lines 152-180.  Returns the locations and the number of the next call. *)
Definition generate_locations (g : Stream) (num_customers : nat)
    : result (list Location * nat) :=
  let '(depot_lat, depot_lon) :=
    (- (235505 # 10000), - (466333 # 10000))%Q in
  '(customers, _, call) <- hubs_loop g num_customers 0 HUBS 0 1 ;;
  Ok ({| id := 0; lat := depot_lat; lon := depot_lon; demand := 0;
         is_depot := true; cluster := "Depot" |} :: customers, call).

(** Lines 224-235: [for i in range(1, len(locations))]. *)
Fixpoint windows_loop (g : Stream) (time_matrix : list (list Z))
    (max_time_minutes service_time : Z) (call : nat) (indices : list nat)
    : result (list (Z * Z)) :=
  match indices with
  | [] => Ok []
  | i :: rest =>
      dist_from_depot <- matrix_get time_matrix 0 i ;;
      let earliest_start := dist_from_depot in
      let latest_start := max_time_minutes - service_time - 30 in
      let latest_start :=
        if latest_start <? earliest_start then earliest_start + 10
        else latest_start in
      start <- randint g call earliest_start
                 (Z.max (earliest_start + 1) latest_start) ;;
      let stop := Z.min (start + 180) max_time_minutes in
      more <- windows_loop g time_matrix max_time_minutes service_time
                (S call) rest ;;
      Ok ((start, stop) :: more)
  end.

(** Lines 238-243: the fleet when [num_vehicles] is [None].  The product
    [total_demand / avg_capacity * 1.2] is taken exactly: it is a whole
    number only when [total_demand / avg_capacity] is a multiple of 2.5, and
    is otherwise at least 1/125 away from one, so the ceiling of the float
    is the ceiling of the exact product. *)
Definition default_fleet (locations : list Location) : nat :=
  let total_demand := fold_right Z.add 0 (map demand locations) in
  let avg_capacity := 50 in
  let min_vehicles :=
    Qceiling (inject_Z total_demand / inject_Z avg_capacity * (12 # 10))%Q in
  Z.to_nat (Z.max 5 min_vehicles).

(** What [create_data_model] returns: the keys of the optimizer's data model
    and the key ["locations"]. *)
Record Generated : Type := {
  model : DataModel;
  locations : list Location
}.

(** Lines 212-255. *)
Definition create_data_model (g : Stream)
    (calculate_time_matrix : list Location -> list (list Z))
    (num_customers : nat) (max_time_minutes service_time : Z)
    (num_vehicles : option nat) : result Generated :=
  '(locations, call) <- generate_locations g num_customers ;;
  let time_matrix := calculate_time_matrix locations in
  windows <- windows_loop g time_matrix max_time_minutes service_time call
               (seq 1 (length locations - 1)) ;;
  let time_windows := (0, max_time_minutes) :: windows in
  let num_vehicles :=
    match num_vehicles with
    | None => default_fleet locations
    | Some vehicles => vehicles
    end in
  Ok {| model :=
          {| time_matrix := time_matrix;
             time_windows := time_windows;
             num_vehicles := num_vehicles;
             depot := 0;
             demands := map demand locations;
             vehicle_capacities := repeat 50 num_vehicles;
             max_time_minutes := Some max_time_minutes;
             service_time := Some service_time |};
        locations := locations |}.

(** A customer as [generate_locations] makes them. *)
Definition customer_of (hub_name : string) (l : Location) : Prop :=
  is_depot l = false /\ 1 <= demand l <= 9 /\ cluster l = hub_name.

(** Customers drawn around hub number [i]. *)
Definition hub_count (num_customers i : nat) : nat :=
  (num_customers / length HUBS
   + (if (i <? num_customers mod length HUBS)%nat then 1 else 0))%nat.

(** Sum of the demands of the locations. *)
Definition total_demand (locations : list Location) : Z :=
  fold_right Z.add 0 (map demand locations).

(** What lines 226-234 make of the travel time [dist] from the depot: the
    window opens at a drawn [start] and closes at [stop]. *)
Definition window_of (max_time_minutes service_time dist : Z) (w : Z * Z)
    : Prop :=
  let latest := max_time_minutes - service_time - 30 in
  dist <= fst w /\
  fst w < Z.max (dist + 1) (if latest <? dist then dist + 10 else latest) /\
  snd w = Z.min (fst w + 180) max_time_minutes.

End DataGen.

(** ** Measures of a replay *)

Module Replay.

Import LogisticsSimulator.

(** Rows a suspended generator will still append to the log. *)
Definition legs (k : Suspended) : nat :=
  match k with
  | Traveling _ _ rest _ _ _ => length rest + 2
  | Servicing _ rest => length rest + 1
  | Returning _ _ _ _ => 1
  end.

(** One for a generator on the road, whose weather has been drawn and whose
    row has not been written yet. *)
Definition in_transit (k : Suspended) : nat :=
  match k with
  | Traveling _ _ _ _ _ _ => 1
  | Servicing _ _ => 0
  | Returning _ _ _ _ => 1
  end.

(** A measure summed over the pending timeouts. *)
Definition tally (f : Suspended -> nat) (q : list Scheduled) : nat :=
  list_sum (map (fun e => f (at_yield e)) q).

(** Legs of a route set: a route that is not empty has one leg to each stop
    and one back to the depot. *)
Definition planned_legs (routes : list (list nat)) : nat :=
  list_sum (map (fun r => match r with [] => O | _ :: _ => S (length r) end)
              routes).

(** Timeouts of a route set: two for each stop and one for the return. *)
Definition planned_timeouts (routes : list (list nat)) : nat :=
  list_sum (map (fun r => match r with
                          | [] => O
                          | _ :: _ => 2 * length r + 1
                          end) routes).

(** The travel times a generator on the road carries: the base time is not
    negative and the realized time is not below it. *)
Definition sound (k : Suspended) : Prop :=
  match k with
  | Traveling _ _ _ _ base actual =>
      (0 <= base)%Z /\ (inject_Z base <= actual)%Q
  | Servicing _ _ => True
  | Returning _ _ base actual =>
      (0 <= base)%Z /\ (inject_Z base <= actual)%Q
  end.

(** A row whose times and cost are not negative and whose realized time is
    not below the base time. *)
Definition row_ok (e : Event) : Prop :=
  (0 <= Tempo_Base e)%Z /\
  (inject_Z (Tempo_Base e) <= Tempo_Real e)%Q /\
  (0 <= Atraso e)%Q /\
  (0 <= Custo_Hora_Extra e)%Q.

(** The stops a suspended generator still has to reach are nodes of the
    model. *)
Definition in_range (n : nat) (k : Suspended) : Prop :=
  match k with
  | Traveling current_node next_node rest _ _ _ =>
      (current_node < n)%nat /\ (next_node < n)%nat /\
      Forall (fun stop => (stop < n)%nat) rest
  | Servicing next_node rest =>
      (next_node < n)%nat /\ Forall (fun stop => (stop < n)%nat) rest
  | Returning current_node _ _ _ => (current_node < n)%nat
  end.

(** An input the replay runs on without raising: [n] nodes, a time that is
    not negative between any two of them, a window for each, a service time
    that is not negative, and routes over those nodes. *)
Definition replayable (d : DataModel) (routes : list (list nat)) : Prop :=
  let n := length (time_matrix d) in
  (depot d < n)%nat /\
  (forall i j, (i < n)%nat -> (j < n)%nat ->
     exists t, matrix_get (time_matrix d) i j = Ok t /\ (0 <= t)%Z) /\
  (n <= length (time_windows d))%nat /\
  (0 <= get (service_time d) 10)%Z /\
  Forall (Forall (fun stop => (stop < n)%nat)) routes.

(** The rows are in the order of their arrival clocks, none of which is past
    the present clock, and nothing pending is due before it. *)
Definition in_order (s : Sim) : Prop :=
  StronglySorted (fun a b => (Hora_Chegada a <= Hora_Chegada b)%Q) (logs s) /\
  Forall (fun e => (Hora_Chegada e <= round2 (now s))%Q) (logs s) /\
  Forall (fun e => (now s <= time e)%Q) (queue s).

(** The rows of vehicle [i], and the timeouts pending for it. *)
Definition rows_of (i : nat) (log : list Event) : list Event :=
  filter (fun e => Nat.eqb (Veiculo e) i) log.

Definition pending_of (i : nat) (q : list Scheduled) : list Scheduled :=
  filter (fun e => Nat.eqb (vehicle_id e) i) q.

(** The destinations a suspended generator has still to log. *)
Definition todo (d : DataModel) (k : Suspended) : list nat :=
  match k with
  | Traveling _ next_node rest _ _ _ => next_node :: rest ++ [depot d]
  | Servicing _ rest => rest ++ [depot d]
  | Returning _ _ _ _ => [depot d]
  end.

(** The destinations of vehicle [i]: the stops of its route and the depot,
    or nothing when it has no route or an empty one. *)
Definition plan (d : DataModel) (routes : list (list nat)) (i : nat)
    : list nat :=
  match nth_error routes i with
  | Some (stop :: rest) => stop :: rest ++ [depot d]
  | _ => []
  end.

(** Vehicle [i] has at most one timeout pending, and what it has logged and
    has still to log make up [goal]. *)
Definition tracks (d : DataModel) (goal : list nat) (i : nat)
    (log : list Event) (q : list Scheduled) : Prop :=
  match pending_of i q with
  | [] => map Para (rows_of i log) = goal
  | [e] => map Para (rows_of i log) ++ todo d (at_yield e) = goal
  | _ :: _ :: _ => False
  end.

End Replay.

(** ** Concrete instances *)

Module Instances.

Import Optimizer.
Local Open Scope Z_scope.

(** The end-to-end scenario: a depot and two customers. *)
Definition two_customers : DataModel :=
  {| time_matrix := [[0; 10; 20]; [10; 0; 15]; [20; 15; 0]];
     time_windows := [(0, 480); (0, 480); (0, 480)];
     num_vehicles := 1;
     depot := 0;
     demands := [0; 5; 5];
     vehicle_capacities := [50];
     max_time_minutes := Some 480;
     service_time := Some 10 |}.

(** One customer who asks for more than a vehicle carries. *)
Definition overloaded : DataModel :=
  {| time_matrix := [[0; 10]; [10; 0]];
     time_windows := [(0, 480); (0, 480)];
     num_vehicles := 1;
     depot := 0;
     demands := [0; 100];
     vehicle_capacities := [50];
     max_time_minutes := Some 480;
     service_time := Some 10 |}.

(** Customer 1 next door and customer 2 five hours away, in an eight-hour
    shift. *)
Definition far_customer : DataModel :=
  {| time_matrix := [[0; 10; 300]; [10; 0; 300]; [300; 300; 0]];
     time_windows := [(0, 480); (0, 480); (0, 480)];
     num_vehicles := 1;
     depot := 0;
     demands := [0; 5; 5];
     vehicle_capacities := [50];
     max_time_minutes := Some 480;
     service_time := Some 10 |}.

(** Two customers ten minutes apart, thirty minutes of service at each, a
    horizon of eighty minutes. *)
Definition long_service : DataModel :=
  {| time_matrix := [[0; 10; 10]; [10; 0; 10]; [10; 10; 0]];
     time_windows := [(0, 80); (0, 80); (0, 80)];
     num_vehicles := 1;
     depot := 0;
     demands := [0; 1; 1];
     vehicle_capacities := [50];
     max_time_minutes := Some 80;
     service_time := Some 30 |}.

(** One customer a minute away whose window closes at minute one. *)
Definition tight_window : DataModel :=
  {| time_matrix := [[0; 1]; [1; 0]];
     time_windows := [(0, 480); (0, 1)];
     num_vehicles := 1;
     depot := 0;
     demands := [0; 1];
     vehicle_capacities := [50];
     max_time_minutes := Some 480;
     service_time := Some 10 |}.

(** Indices of three nodes and one vehicle: the start index is 0, the
    customers keep their numbers, the end index is 3. *)
Definition three_nodes : RoutingModel :=
  {| IndexToNode := fun index => if (index <? 3)%nat then index else O;
     NodeToIndex := fun node => node;
     Start := fun _ => O;
     IsEnd := fun index => Nat.eqb index 3 |}.

(** The plan depot, 1, 2, depot of [two_customers] with its clock and load. *)
Definition one_tour : Assignment :=
  {| Next := S;
     Cumul := fun dimension index =>
       if String.eqb dimension "Time"
       then nth index [0; 10; 35; 65] 0
       else nth index [0; 0; 5; 10] 0 |}.

(** The default weather service, [WeatherService()]: the floats 0.1 and 0.2
    and what line 26 makes of them. *)
Definition default_weather : WeatherService.t :=
  {| WeatherService.storm_prob := Binary64.fl (1 # 10);
     WeatherService.rain_prob := Binary64.fl (2 # 10);
     WeatherService.sunny_prob :=
       Binary64.fl (1 - Binary64.fl (Binary64.fl (1 # 10)
                                      + Binary64.fl (2 # 10)))%Q |}.

End Instances.

(** ** Concrete generators *)

Module GeneratedInstances.

Import DataGen.

(** A generator whose deviates are all zero and whose raw integers are the
    numbers of the calls. *)
Definition still_air : Stream :=
  {| deviate := fun _ _ => 0%Q; integer := fun call => Z.of_nat call |}.

(** A matrix of the right shape, seven minutes between any two locations. *)
Definition flat_matrix (locs : list Location) : list (list Z) :=
  map (fun _ => map (fun _ => 7%Z) locs) locs.

End GeneratedInstances.

(** * Properties *)

(** ** The outcome monad *)

Lemma bind_Ok (A B : Type) (m : result A) (k : A -> result B) (b : B) :
  bind m k = Ok b -> exists a, m = Ok a /\ k a = Ok b.
Proof. destruct m as [a| |]; simpl; intro H; try discriminate; eauto. Qed.

(** Splits a hypothesis [bind m k = Ok b] into its two halves. *)
Ltac bind_inv H :=
  let a := fresh "a" in
  let Ha := fresh "E" in
  apply bind_Ok in H; destruct H as (a & Ha & H).

Lemma list_get_fuel (A : Type) (l : list A) (i : nat) :
  list_get l i <> OutOfFuel.
Proof. unfold list_get. destruct (nth_error l i); discriminate. Qed.

Lemma matrix_get_fuel (m : list (list Z)) (i j : nat) :
  matrix_get m i j <> OutOfFuel.
Proof.
  unfold matrix_get. destruct (list_get m i) as [row|e|] eqn:E; simpl.
  - apply list_get_fuel.
  - discriminate.
  - exfalso. apply (list_get_fuel _ _ _ E).
Qed.

(** ** The greedy baseline *)

Section Greedy.

Import Optimizer.
Local Open Scope Z_scope.

Variable d : DataModel.
Variable vehicle_capacity : Z.

Local Abbreviation chosen := (Optimizer.chosen d vehicle_capacity).
Local Abbreviation tracked := (Optimizer.tracked d vehicle_capacity).

(** One candidate: either the running best is kept, or the candidate is
    eligible and replaces it. *)
Lemma scan_candidate_cases v best candidate best' :
  scan_candidate d vehicle_capacity v best candidate = Ok best' ->
  exists dist_to,
    matrix_get (time_matrix d) (current_node v) candidate = Ok dist_to /\
    ((best' = best /\
      (eligible d vehicle_capacity v candidate ->
       exists c min_dist, best = Some (c, min_dist) /\ min_dist <= dist_to)) \/
     (best' = Some (candidate, dist_to) /\
      eligible d vehicle_capacity v candidate /\
      forall c min_dist, best = Some (c, min_dist) -> dist_to < min_dist)).
Proof.
  unfold scan_candidate. intro H.
  bind_inv H. rename a into dist_to.
  bind_inv H. rename a into dist_back.
  bind_inv H. rename a into demand.
  exists dist_to. split; [assumption|].
  destruct (Z.gtb_spec (current_load v + demand) vehicle_capacity) as [Hc|Hc].
  { left. inversion H; subst. split; [reflexivity|].
    intros (t & b & q & Ht & Hb & Hq & Hle & _).
    rewrite E1 in Hq. inversion Hq; subst. lia. }
  destruct (Z.gtb_spec
              (current_time v + dist_to + get (service_time d) 10 + dist_back)
              (get (max_time_minutes d) 480)) as [Ht|Ht].
  { left. inversion H; subst. split; [reflexivity|].
    intros (t & b & q & Ht' & Hb & Hq & _ & Hle).
    rewrite E in Ht'. rewrite E0 in Hb. inversion Ht'; inversion Hb; subst. lia. }
  assert (Hel : eligible d vehicle_capacity v candidate).
  { exists dist_to, dist_back, demand. repeat split; assumption || lia. }
  destruct best as [[c min_dist]|].
  - destruct (Z.ltb_spec dist_to min_dist) as [Hlt|Hge]; inversion H; subst.
    + right. split; [reflexivity|]. split; [assumption|].
      intros c' m' Hb. inversion Hb; subst. assumption.
    + left. split; [reflexivity|]. intros _. exists c, min_dist.
      split; [reflexivity|lia].
  - inversion H; subst. right. split; [reflexivity|]. split; [assumption|].
    intros c m Hb. discriminate.
Qed.

Lemma chosen_weaken v (seen seen' : nat -> Prop) best :
  (forall c, seen' c <-> seen c) -> chosen v seen best -> chosen v seen' best.
Proof.
  intros Heq. destruct best as [[n m]|]; simpl.
  - intros (H1 & H2 & H3 & H4). split; [apply Heq; assumption|].
    split; [assumption|]. split; [assumption|].
    intros c dist Hc. apply H4. apply Heq. assumption.
  - intros H c Hc. apply H. apply Heq. assumption.
Qed.

(** The effect of one candidate [x], larger than every candidate seen. *)
Lemma scan_candidate_chosen v (seen : nat -> Prop) best x best' :
  (forall s, seen s -> (s < x)%nat) ->
  chosen v seen best ->
  scan_candidate d vehicle_capacity v best x = Ok best' ->
  chosen v (fun c => seen c \/ c = x) best'.
Proof.
  intros Hlt Hb E.
  destruct (scan_candidate_cases _ _ _ _ E)
    as (dx & Hdx & [[-> Hk]|(-> & Hel & Hk)]).
  - destruct best as [[n m]|]; simpl in *.
    + destruct Hb as (H1 & H2 & H3 & H4).
      split; [left; assumption|]. split; [assumption|]. split; [assumption|].
      intros c dist [Hc| ->] He Hd; [apply (H4 c dist Hc He Hd)|].
      destruct (Hk He) as (c' & m' & Hb' & Hle). inversion Hb'; subst.
      rewrite Hdx in Hd. inversion Hd; subst.
      split; [assumption|]. intros _. apply Nat.lt_le_incl, Hlt, H1.
    + intros c [Hc| ->]; [auto|].
      intro Hel. destruct (Hk Hel) as (? & ? & Hb' & _). discriminate.
  - simpl. split; [right; reflexivity|]. split; [assumption|].
    split; [assumption|]. intros c dist [Hc| ->] He Hd.
    + destruct best as [[n m]|]; simpl in Hb.
      * destruct Hb as (H1 & H2 & H3 & H4).
        specialize (Hk n m eq_refl).
        destruct (H4 c dist Hc He Hd) as [Hle _]. split; lia.
      * exfalso. apply (Hb c Hc He).
    + rewrite Hdx in Hd. inversion Hd; subst. split; [lia|intros; lia].
Qed.

Lemma scan_from_chosen v unvisited :
  forall (seen : nat -> Prop) best best',
    StronglySorted Nat.lt unvisited ->
    (forall s c, seen s -> In c unvisited -> (s < c)%nat) ->
    chosen v seen best ->
    scan_from d vehicle_capacity v best unvisited = Ok best' ->
    chosen v (fun c => seen c \/ In c unvisited) best'.
Proof.
  induction unvisited as [|x rest IH]; intros seen best best' Hs Hlt Hb H.
  - simpl in H. inversion H; subst.
    apply chosen_weaken with (seen := seen); [|assumption].
    intro c. simpl. tauto.
  - simpl in H. bind_inv H. rename a into mid.
    inversion Hs as [|? ? Hs' Hall]; subst.
    assert (Hmid : chosen v (fun c => seen c \/ c = x) mid).
    { apply scan_candidate_chosen with (best := best); auto.
      intros s Hsn. apply Hlt; [assumption|left; reflexivity]. }
    assert (Hlt' : forall s c, (seen s \/ s = x) -> In c rest -> (s < c)%nat).
    { intros s c [Hsn| ->] Hc.
      - apply Hlt; [assumption|right; assumption].
      - rewrite Forall_forall in Hall. apply Hall. assumption. }
    specialize (IH (fun c => seen c \/ c = x) mid best' Hs' Hlt' Hmid H).
    apply chosen_weaken with (2 := IH).
    intro c. simpl. intuition congruence.
Qed.

(** The same without any order on [unvisited]: what is picked is eligible and
    [min_dist] is its travel time; nothing picked means nothing eligible. *)
Lemma scan_from_pick v unvisited :
  forall best best',
    scan_from d vehicle_capacity v best unvisited = Ok best' ->
    match best' with
    | Some (nearest, min_dist) =>
        best = best' \/
        (In nearest unvisited /\ eligible d vehicle_capacity v nearest /\
         matrix_get (time_matrix d) (current_node v) nearest = Ok min_dist)
    | None =>
        best = None /\
        forall c, In c unvisited -> ~ eligible d vehicle_capacity v c
    end.
Proof.
  induction unvisited as [|x rest IH]; intros best best' H.
  - simpl in H. inversion H; subst. destruct best' as [[n m]|]; simpl; auto.
  - simpl in H. bind_inv H. rename a into mid.
    specialize (IH mid best' H).
    destruct (scan_candidate_cases _ _ _ _ E)
      as (dx & Hdx & [[-> Hk]|(-> & Hel & Hk)]).
    + destruct best' as [[n m]|].
      * destruct IH as [->|(Hin & He & Hd)]; [left; reflexivity|].
        right. split; [right; assumption|]. split; assumption.
      * destruct IH as [-> Hno]. split; [reflexivity|].
        intros c [<-|Hc]; [|apply Hno; assumption].
        intro He. destruct (Hk He) as (? & ? & Hb & _). discriminate.
    + destruct best' as [[n m]|].
      * destruct IH as [Heq|(Hin & He & Hd)].
        -- inversion Heq; subst. right.
           split; [left; reflexivity|]. split; assumption.
        -- right. split; [right; assumption|]. split; assumption.
      * destruct IH as [Hmid _]. discriminate.
Qed.

(** *** The inner loop *)

Lemma route_demand_app r x total demand :
  route_demand d r = Ok total ->
  list_get (demands d) x = Ok demand ->
  route_demand d (r ++ [x]) = Ok (total + demand).
Proof.
  revert total. induction r as [|y r IH]; simpl; intros total Hr Hx.
  - inversion Hr; subst. rewrite Hx. simpl. f_equal. lia.
  - bind_inv Hr. bind_inv Hr. inversion Hr; subst.
    rewrite E. simpl. rewrite (IH _ E0 Hx). simpl. f_equal. lia.
Qed.

Lemma route_travel_app r : forall from x travel leg,
  route_travel d from r = Ok travel ->
  matrix_get (time_matrix d) (last r from) x = Ok leg ->
  route_travel d from (r ++ [x]) = Ok (travel + leg).
Proof.
  induction r as [|y r IH]; intros from x travel leg Hr Hx.
  - simpl in *. inversion Hr; subst. rewrite Hx. simpl. f_equal. lia.
  - simpl in Hr. bind_inv Hr. bind_inv Hr. inversion Hr; subst.
    assert (Hl : last (y :: r) from = last r y).
    { clear. revert y from. induction r as [|z r IHr]; intros y from;
        [reflexivity|].
      change (last (y :: z :: r) from) with (last (z :: r) from).
      rewrite (IHr z from), (IHr z y). reflexivity. }
    rewrite Hl in Hx. simpl. rewrite E. simpl.
    rewrite (IH _ _ _ _ E0 Hx). simpl. f_equal. lia.
Qed.

Lemma tracked_fresh : tracked (fresh d).
Proof.
  unfold Optimizer.tracked, fresh; simpl. repeat split; auto.
  - exists 0. split; [reflexivity|lia].
  - congruence.
  - congruence.
Qed.

Lemma tracked_move v unvisited nearest min_dist demand :
  tracked v ->
  scan d vehicle_capacity v unvisited = Ok (Some (nearest, min_dist)) ->
  list_get (demands d) nearest = Ok demand ->
  tracked (move v nearest min_dist demand).
Proof.
  intros (Hload & Hnode & (travel & Htravel & Hclock) & _) Hscan Hdem.
  apply scan_from_pick in Hscan.
  destruct Hscan as [Hbad|(_ & Hel & Hdist)]; [discriminate|].
  destruct Hel as (dist_to & dist_back & demand' & Hto & Hback & Hdem' & Hcap & Htime).
  rewrite Hdem in Hdem'. inversion Hdem'; subst demand'.
  rewrite Hdist in Hto. inversion Hto; subst dist_to.
  unfold Optimizer.tracked, move; cbn [route current_load current_time current_node].
  split; [|split; [|split]].
  - apply route_demand_app; assumption.
  - rewrite last_last. reflexivity.
  - exists (travel + min_dist). split.
    + apply route_travel_app; [assumption|]. rewrite <- Hnode. assumption.
    + rewrite length_app. cbn [length]. lia.
  - intros _. split; [assumption|]. exists dist_back. split; [assumption|lia].
Qed.

Lemma route_loop_spec fuel : forall v unvisited v' unvisited',
  tracked v ->
  route_loop fuel d vehicle_capacity v unvisited = Ok (v', unvisited') ->
  tracked v' /\
  scan d vehicle_capacity v' unvisited' = Ok None /\
  (length (route v) <= length (route v'))%nat /\
  (route v' = route v -> v' = v /\ unvisited' = unvisited).
Proof.
  induction fuel as [|fuel IH]; intros v unvisited v' unvisited' Hv H.
  - discriminate.
  - simpl in H. bind_inv H. destruct a as [[nearest min_dist]|].
    + bind_inv H. rename a into demand.
      assert (Hv1 : tracked (move v nearest min_dist demand))
        by (eapply tracked_move; eassumption).
      destruct (IH _ _ _ _ Hv1 H) as (Ht & Hs & Hlen & _).
      unfold move in Hlen; simpl in Hlen. rewrite length_app in Hlen.
      simpl in Hlen.
      split; [assumption|]. split; [assumption|]. split; [lia|].
      intro Heq. rewrite Heq in Hlen. lia.
    + inversion H; subst. split; [assumption|]. split; [assumption|].
      split; [lia|]. intros _. split; reflexivity.
Qed.

(** The [for] loop runs out of nothing. *)
Lemma scan_from_fuel v unvisited : forall best,
  scan_from d vehicle_capacity v best unvisited <> OutOfFuel.
Proof.
  induction unvisited as [|x rest IH]; intro best; simpl; [discriminate|].
  destruct (scan_candidate d vehicle_capacity v best x) as [mid|e|] eqn:E;
    simpl; [apply IH|discriminate|].
  exfalso. unfold scan_candidate in E.
  destruct (matrix_get (time_matrix d) (current_node v) x) as [t|e|] eqn:E1;
    simpl in E; [|discriminate|apply (matrix_get_fuel _ _ _ E1)].
  destruct (matrix_get (time_matrix d) x (depot d)) as [b|e|] eqn:E2;
    simpl in E; [|discriminate|apply (matrix_get_fuel _ _ _ E2)].
  destruct (list_get (demands d) x) as [q|e|] eqn:E3;
    simpl in E; [|discriminate|apply (list_get_fuel _ _ _ E3)].
  repeat match type of E with
         | context [if ?c then _ else _] => destruct c
         | context [match ?o with Some _ => _ | None => _ end] => destruct o
         | context [let '(_, _) := ?p in _] => destruct p
         end; discriminate.
Qed.

(** [S (length unvisited)] passes are enough for the inner loop. *)
Lemma route_loop_fuel fuel : forall v unvisited,
  (length unvisited < fuel)%nat ->
  route_loop fuel d vehicle_capacity v unvisited <> OutOfFuel.
Proof.
  induction fuel as [|fuel IH]; intros v unvisited Hlen; [lia|].
  simpl. destruct (scan d vehicle_capacity v unvisited) as [best|e|] eqn:E;
    simpl; [|discriminate|exfalso; apply (scan_from_fuel _ _ _ E)].
  destruct best as [[nearest min_dist]|]; [|discriminate].
  destruct (list_get (demands d) nearest) as [demand|e|] eqn:Ed; simpl;
    [|discriminate|exfalso; apply (list_get_fuel _ _ _ Ed)].
  apply IH. apply scan_from_pick in E.
  destruct E as [Hbad|(Hin & _)]; [discriminate|].
  pose proof (remove_length_lt Nat.eq_dec unvisited nearest Hin). lia.
Qed.

(** *** The outer loop *)

Hypothesis capacity_read : list_get (vehicle_capacities d) 0 = Ok vehicle_capacity.

(** A new route that can take no customer leaves [unvisited] as it was: the
    outer loop never ends. *)
Lemma routes_loop_stuck unvisited :
  unvisited <> [] ->
  scan d vehicle_capacity (fresh d) unvisited = Ok None ->
  forall fuel routes, routes_loop fuel d routes unvisited = OutOfFuel.
Proof.
  intros Hne Hscan. induction fuel as [|fuel IH]; intro routes; [reflexivity|].
  destruct unvisited as [|x rest]; [congruence|].
  cbn [routes_loop]. rewrite capacity_read. cbn [bind].
  cbn [route_loop]. rewrite Hscan. cbn [bind]. apply IH.
Qed.

(** Every route the outer loop adds is a non-empty route of a tracked
    vehicle. *)
Lemma routes_loop_spec (P : list nat -> Prop) :
  (forall v, tracked v -> route v <> [] -> P (route v)) ->
  forall fuel routes unvisited res,
    Forall P routes ->
    routes_loop fuel d routes unvisited = Ok res ->
    Forall P res.
Proof.
  intros HP. induction fuel as [|fuel IH]; intros routes unvisited res Hr H.
  - discriminate.
  - destruct unvisited as [|x rest].
    + simpl in H. inversion H; subst. assumption.
    + cbn [routes_loop] in H. rewrite capacity_read in H. cbn [bind] in H.
      bind_inv H. destruct a as [v unvisited'].
      destruct (route_loop_spec _ _ _ _ _ tracked_fresh E) as (Ht & Hs & _ & Hsame).
      destruct (route v) as [|stop r] eqn:Hroute.
      * destruct (Hsame eq_refl) as [-> ->].
        rewrite routes_loop_stuck in H; [discriminate|congruence|assumption].
      * apply (IH _ _ _) in H; [assumption|].
        apply Forall_app. split; [assumption|]. constructor; [|constructor].
        rewrite <- Hroute. apply HP; [assumption|congruence].
Qed.

End Greedy.

(** ** The constraint-search strategy *)

Section ConstraintSearch.

Import Optimizer.
Local Open Scope Z_scope.

Variable m : RoutingModel.
Variable d : DataModel.
Variable sol : Assignment.

(** [_extract_routes] keeps the customers of the path it walks. *)
Lemma walk_path fuel : forall index route p e,
  path fuel m sol index = Ok (p, e) ->
  walk fuel m d sol index route = Ok (route ++ customers m d p).
Proof.
  induction fuel as [|fuel IH]; intros index route p e H; [discriminate|].
  simpl in *. destruct (IsEnd m index).
  - inversion H; subst. unfold customers. simpl. rewrite app_nil_r. reflexivity.
  - bind_inv H. destruct a as [p' e']. inversion H; subst.
    rewrite (IH _ _ _ _ E). unfold customers. simpl.
    destruct (Nat.eqb (IndexToNode m index) (depot d)); simpl.
    + reflexivity.
    + rewrite <- app_assoc. reflexivity.
Qed.

(** A path that is not empty begins at the index it was asked from. *)
Lemma path_head fuel index p e :
  path fuel m sol index = Ok (p, e) -> p = [] \/ hd e p = index.
Proof.
  destruct fuel as [|fuel]; simpl; [discriminate|].
  destruct (IsEnd m index).
  - intro H. inversion H. left. reflexivity.
  - intro H. bind_inv H. destruct a as [p' e']. inversion H; subst.
    right. reflexivity.
Qed.

Lemma customers_In p stop :
  In stop (customers m d p) ->
  stop <> depot d /\ exists index, In index p /\ IndexToNode m index = stop.
Proof.
  unfold customers. rewrite filter_In, in_map_iff.
  intros [(index & Hn & Hin) Hb]. split.
  - intro Heq. subst stop. rewrite Heq, Nat.eqb_refl in Hb. discriminate.
  - exists index. split; assumption.
Qed.

(** With no slack, the load variable grows by the demand of each node left,
    so the demand of the customers of a path is at most the growth of the
    load along it. *)
Lemma capacity_chain cumul e depot_demand :
  list_get (demands d) (depot d) = Ok depot_demand ->
  0 <= depot_demand ->
  forall p,
    chained (capacity_dimension m d) cumul p e ->
    exists total,
      route_demand d (customers m d p) = Ok total /\
      total <= cumul e - cumul (hd e p).
Proof.
  intros Hdep Hpos. induction p as [|index rest IH]; intro Hch.
  - exists 0. split; [reflexivity|simpl; lia].
  - destruct Hch as [(t & Ht & Hlink) Hrest].
    destruct (IH Hrest) as (total & Htotal & Hle).
    cbn [transit slack_max capacity_dimension] in Ht, Hlink.
    unfold demand_callback in Ht.
    unfold customers in *. cbn [map filter hd].
    destruct (Nat.eqb_spec (IndexToNode m index) (depot d)) as [Heq|Hne];
      cbn [negb].
    + rewrite Heq, Hdep in Ht. inversion Ht; subst t.
      exists total. split; [assumption|lia].
    + exists (t + total). split; [|lia].
      cbn [route_demand]. rewrite Ht. cbn [bind]. rewrite Htotal. reflexivity.
Qed.

(** Along a path the clock grows at least by the travel time of each leg
    and the service time at each customer left. *)
Lemma time_chain cumul e : forall pre index0 post,
  chained (time_dimension m d) cumul (index0 :: pre ++ post) e ->
  exists elapsed,
    minutes_along d (IndexToNode m index0) (map (IndexToNode m) pre)
      = Ok elapsed /\
    cumul index0 + elapsed <= cumul (last pre index0).
Proof.
  induction pre as [|x pre IH]; intros index0 post Hch.
  - exists 0. split; [reflexivity|simpl; lia].
  - destruct Hch as [(t & Ht & Hlink) Hrest].
    cbn [app hd] in Ht, Hlink.
    cbn [transit time_dimension] in Ht. unfold time_callback in Ht.
    bind_inv Ht. rename a into travel_time. inversion Ht; subst t.
    destruct (IH x post Hrest) as (elapsed & Helapsed & Hle).
    exists (travel_time
            + (if Nat.eqb (IndexToNode m index0) (depot d) then 0
               else get (service_time d) 0)
            + elapsed).
    split.
    + cbn [map minutes_along]. rewrite E. cbn [bind]. rewrite Helapsed.
      reflexivity.
    + assert (Hlast : forall (l : list nat) a b, last (a :: l) b = last l a).
      { induction l as [|y l IHl]; intros a b; [reflexivity|].
        change (last (a :: y :: l) b) with (last (y :: l) b).
        rewrite (IHl y b), (IHl y a). reflexivity. }
      rewrite Hlast. lia.
Qed.

(** The customers of a path that leaves from a start index. *)
Lemma customers_split vehicle_id before index after :
  manager_ok m d ->
  IndexToNode m index <> depot d ->
  customers m d (Start m vehicle_id :: before ++ index :: after)
  = customers m d before ++ IndexToNode m index :: customers m d after.
Proof.
  intros [Hstart _] Hne. unfold customers.
  cbn [map filter]. rewrite Hstart, Nat.eqb_refl. cbn [negb].
  rewrite map_app, filter_app. cbn [map filter].
  destruct (Nat.eqb_spec (IndexToNode m index) (depot d)); [contradiction|].
  reflexivity.
Qed.

(** The posted window of a customer is among the ranges. *)
Lemma window_ranges_In windows : forall first k lo hi,
  nth_error windows k = Some (lo, hi) ->
  (first + k)%nat <> depot d ->
  In (NodeToIndex m (first + k), (lo, hi)) (window_ranges m d first windows).
Proof.
  induction windows as [|[start stop] rest IH]; intros first k lo hi Hk Hne.
  - destruct k; discriminate.
  - destruct k as [|k]; simpl in Hk.
    + inversion Hk; subst. rewrite Nat.add_0_r in *. simpl.
      destruct (Nat.eqb_spec first (depot d)); [contradiction|].
      left. reflexivity.
    + assert (Hin : In (NodeToIndex m (S first + k), (lo, hi))
                       (window_ranges m d (S first) rest)).
      { apply IH; [assumption|]. rewrite Nat.add_succ_comm. assumption. }
      rewrite <- Nat.add_succ_comm. simpl.
      destruct (Nat.eqb first (depot d)); [assumption|right; assumption].
Qed.

Lemma walk_vehicles_nth fuel : forall vehicles routes,
  walk_vehicles fuel m d sol vehicles = Ok routes ->
  forall k r, nth_error routes k = Some r ->
  exists vehicle_id,
    nth_error vehicles k = Some vehicle_id /\
    walk fuel m d sol (Start m vehicle_id) [] = Ok r.
Proof.
  induction vehicles as [|v rest IH]; intros routes H k r Hk.
  - simpl in H. inversion H; subst. destruct k; discriminate.
  - simpl in H. bind_inv H. bind_inv H. inversion H; subst.
    destruct k as [|k]; simpl in Hk.
    + inversion Hk; subst. exists v. split; [reflexivity|assumption].
    + apply (IH _ E0 k r Hk).
Qed.

(** The route of a vehicle, as [solve] returns it, is the customers of the
    path the assignment gives that vehicle. *)
Lemma solve_route fuel routes vehicle_id r :
  feasible fuel m d sol ->
  solve fuel m d (Some sol) = Ok routes ->
  nth_error routes vehicle_id = Some r ->
  (vehicle_id < num_vehicles d)%nat /\
  exists p e,
    path fuel m sol (Start m vehicle_id) = Ok (p, e) /\
    r = customers m d p /\
    chained (time_dimension m d) (Cumul sol "Time") p e /\
    bounded (time_dimension m d) (Cumul sol "Time") vehicle_id p e /\
    chained (capacity_dimension m d) (Cumul sol "Capacity") p e /\
    bounded (capacity_dimension m d) (Cumul sol "Capacity") vehicle_id p e.
Proof.
  intros (Hpaths & _) H Hk. unfold solve in H. bind_inv H.
  unfold _extract_routes in H.
  destruct (walk_vehicles_nth _ _ _ H _ _ Hk) as (v & Hv & Hwalk).
  assert (Hlt : (vehicle_id < num_vehicles d)%nat).
  { assert (Hs : nth_error (seq 0 (num_vehicles d)) vehicle_id <> None)
      by congruence.
    apply nth_error_Some in Hs. rewrite length_seq in Hs. assumption. }
  assert (Hv' : v = vehicle_id).
  { apply nth_error_nth with (d := O) in Hv.
    rewrite seq_nth in Hv by assumption. simpl in Hv. congruence. }
  subst v. split; [assumption|].
  destruct (Hpaths _ Hlt) as (p & e & Hp & Hrest).
  exists p, e. split; [assumption|]. split; [|assumption].
  rewrite (walk_path _ _ [] _ _ Hp) in Hwalk. inversion Hwalk. reflexivity.
Qed.

End ConstraintSearch.

(** ** The simulator's ledger *)

Section Ledger.

Import WeatherService LogisticsSimulator.
Local Open Scope Q_scope.

Variable random : nat -> Q.
Variable w : WeatherService.t.
Variable d : DataModel.

(** Scheduling a timeout touches neither the log nor the ledger. *)
Lemma timeout_keeps s delay vehicle k s' :
  timeout s delay vehicle k = Ok s' ->
  logs s' = logs s /\ total_overtime_cost s' = total_overtime_cost s.
Proof.
  unfold timeout. destruct (Qlt_le_dec delay 0); [discriminate|].
  intro H. inversion H; subst. simpl. split; reflexivity.
Qed.

Lemma depart_keeps s vehicle current_node route s' :
  depart random w d s vehicle current_node route = Ok s' ->
  logs s' = logs s /\ total_overtime_cost s' = total_overtime_cost s.
Proof.
  unfold depart. intro H. bind_inv H. apply timeout_keeps in H. exact H.
Qed.

(** Lines 92-98 and 128-134 when the arrival is past the bound. *)
Lemma charge_late s bound row :
  inject_Z bound < now s ->
  charge s bound row =
    {| now := now s; queue := queue s; draws := draws s;
       logs := logs s ++
         [row (round2 ((now s - inject_Z bound) * OVERTIME_RATE_PER_MIN))];
       total_overtime_cost :=
         total_overtime_cost s + (now s - inject_Z bound) * OVERTIME_RATE_PER_MIN |}.
Proof.
  intro Hlt. unfold charge. destruct (Qlt_le_dec (inject_Z bound) (now s)) as [_|Hle].
  - reflexivity.
  - exfalso. apply (Qlt_not_le _ _ Hlt Hle).
Qed.

(** ... and when it is not. *)
Lemma charge_on_time s bound row :
  now s <= inject_Z bound ->
  charge s bound row =
    {| now := now s; queue := queue s; draws := draws s;
       logs := logs s ++ [row 0];
       total_overtime_cost := total_overtime_cost s |}.
Proof.
  intro Hle. unfold charge. destruct (Qlt_le_dec (inject_Z bound) (now s)) as [Hlt|_].
  - exfalso. apply (Qlt_not_le _ _ Hlt Hle).
  - reflexivity.
Qed.

Lemma charge_grows s bound row :
  total_overtime_cost s <= total_overtime_cost (charge s bound row).
Proof.
  destruct (Qlt_le_dec (inject_Z bound) (now s)) as [Hlt|Hle].
  - rewrite (charge_late _ _ _ Hlt). simpl.
    assert (0 <= (now s - inject_Z bound) * OVERTIME_RATE_PER_MIN).
    { apply Qmult_le_0_compat; [lra|discriminate]. }
    lra.
  - rewrite (charge_on_time _ _ _ Hle). simpl. apply Qle_refl.
Qed.

(** What one turn of the environment does to the log and the ledger. *)
Lemma resume_accounts s vehicle k s' :
  resume random w d s vehicle k = Ok s' ->
  exists ob, bound_of d k = Ok ob /\
    match ob with
    | Some bound =>
        exists row,
          (forall cost, Custo_Hora_Extra (row cost) = cost) /\
          logs s' = logs (charge s bound row) /\
          total_overtime_cost s' = total_overtime_cost (charge s bound row)
    | None =>
        logs s' = logs s /\ total_overtime_cost s' = total_overtime_cost s
    end.
Proof.
  destruct k as [cur next rest weather base actual|next rest|cur weather base actual];
    simpl; intro H.
  - bind_inv H. rename a into window. exists (Some (snd window)).
    rewrite E. simpl. split; [reflexivity|].
    apply timeout_keeps in H.
    exists (arrival_event vehicle cur next weather base actual (now s)).
    split; [reflexivity|exact H].
  - exists None. split; [reflexivity|]. apply depart_keeps in H. exact H.
  - inversion H; subst. eexists. split; [reflexivity|].
    exists (arrival_event vehicle cur (depot d) weather base actual (now s)).
    repeat split; reflexivity.
Qed.

Lemma resume_grows s vehicle k s' :
  resume random w d s vehicle k = Ok s' ->
  total_overtime_cost s <= total_overtime_cost s'.
Proof.
  intro H. destruct (resume_accounts _ _ _ _ H) as (ob & _ & Hob).
  destruct ob as [bound|].
  - destruct Hob as (row & _ & _ & ->). apply charge_grows.
  - destruct Hob as [_ ->]. apply Qle_refl.
Qed.

Lemma step_grows s s' :
  step random w d s = Ok (Some s') ->
  total_overtime_cost s <= total_overtime_cost s'.
Proof.
  unfold step. destruct (pop (queue s)) as [[e rest]|]; [|discriminate].
  intro H. bind_inv H. inversion H; subst.
  apply resume_grows in E. exact E.
Qed.

Lemma run_events_grows fuel : forall s s',
  run_events fuel random w d s = Ok s' ->
  total_overtime_cost s <= total_overtime_cost s'.
Proof.
  induction fuel as [|fuel IH]; intros s s' H; [discriminate|].
  simpl in H. bind_inv H. destruct a as [s1|].
  - apply Qle_trans with (total_overtime_cost s1).
    + apply step_grows. assumption.
    + apply IH. assumption.
  - inversion H; subst. apply Qle_refl.
Qed.

Lemma start_keeps routes : forall s i s',
  start random w d s i routes = Ok s' ->
  logs s' = logs s /\ total_overtime_cost s' = total_overtime_cost s.
Proof.
  induction routes as [|route rest IH]; intros s i s' H; simpl in H.
  - inversion H; subst. split; reflexivity.
  - bind_inv H. destruct (IH _ _ _ H) as [-> ->].
    destruct route; [inversion E; subst; split; reflexivity|].
    apply depart_keeps in E. exact E.
Qed.

(** A turn that is not late leaves the ledger as it was. *)
Lemma step_on_time s s' :
  step random w d s = Ok (Some s') ->
  late d s = false ->
  total_overtime_cost s' = total_overtime_cost s.
Proof.
  unfold step, late.
  destruct (pop (queue s)) as [[e rest]|] eqn:Hpop; [|discriminate].
  intros H Hon. bind_inv H. inversion H; subst.
  destruct (resume_accounts _ _ _ _ E) as (ob & Hb & Hob).
  rewrite Hb in Hon. destruct ob as [bound|].
  - destruct Hob as (row & _ & _ & ->).
    destruct (Qlt_le_dec (inject_Z bound) (time e)) as [Hlt|Hle];
      [discriminate|].
    rewrite charge_on_time; [reflexivity|exact Hle].
  - destruct Hob as [_ ->]. reflexivity.
Qed.

Lemma run_events_on_time fuel : forall s s',
  run_events fuel random w d s = Ok s' ->
  on_time fuel random w d s = true ->
  total_overtime_cost s' = total_overtime_cost s.
Proof.
  induction fuel as [|fuel IH]; intros s s' H Hon; [discriminate|].
  simpl in H, Hon. apply andb_prop in Hon. destruct Hon as [Hnow Hrest].
  apply negb_true_iff in Hnow.
  bind_inv H. rewrite E in Hrest. destruct a as [s1|].
  - rewrite (IH _ _ H Hrest). apply step_on_time; assumption.
  - inversion H; subst. reflexivity.
Qed.

(** *** The run ends *)

Lemma pop_work q : forall e rest,
  pop q = Some (e, rest) ->
  work q = (pending (at_yield e) + work rest)%nat.
Proof.
  induction q as [|x q IH]; intros e rest H; simpl in H; [discriminate|].
  destruct (pop q) as [[e' rest']|] eqn:Hq.
  - specialize (IH _ _ eq_refl).
    destruct (Qlt_le_dec (time e') (time x)); inversion H; subst; simpl.
    + rewrite IH. lia.
    + reflexivity.
  - inversion H; subst. destruct q; [reflexivity|].
    simpl in Hq. destruct (pop q) as [[? ?]|];
      [destruct (Qlt_le_dec _ _)|]; discriminate.
Qed.

Lemma timeout_work s delay vehicle k s' :
  timeout s delay vehicle k = Ok s' ->
  work (queue s') = (work (queue s) + pending k)%nat.
Proof.
  unfold timeout. destruct (Qlt_le_dec delay 0); [discriminate|].
  intro H. inversion H; subst. simpl. clear.
  induction (queue s) as [|x pendings IH]; simpl; [lia|]. rewrite IH. lia.
Qed.

Lemma resume_work s vehicle k s' :
  resume random w d s vehicle k = Ok s' ->
  (work (queue s') + 1 = work (queue s) + pending k)%nat.
Proof.
  destruct k as [cur next rest weather base actual|next rest|cur weather base actual];
    simpl; intro H.
  - bind_inv H. apply timeout_work in H. rewrite H.
    unfold charge. destruct (Qlt_le_dec _ _); simpl; lia.
  - unfold depart in H. bind_inv H. apply timeout_work in H. rewrite H.
    destruct rest; simpl; lia.
  - inversion H; subst. unfold charge.
    destruct (Qlt_le_dec _ _); simpl; lia.
Qed.

Lemma resume_fuel s vehicle k : resume random w d s vehicle k <> OutOfFuel.
Proof.
  assert (Ht : forall s delay v k, timeout s delay v k <> OutOfFuel).
  { intros. unfold timeout. destruct (Qlt_le_dec _ _); discriminate. }
  destruct k as [cur next rest weather base actual|next rest|cur weather base actual];
    simpl.
  - destruct (list_get (time_windows d) next) as [win|e|] eqn:E; simpl;
      [apply Ht|discriminate|exfalso; apply (list_get_fuel _ _ _ E)].
  - unfold depart.
    destruct (matrix_get _ _ _) as [t|e|] eqn:E; simpl;
      [apply Ht|discriminate|exfalso; apply (matrix_get_fuel _ _ _ E)].
  - discriminate.
Qed.

(** Fuel above the pending work is enough: [env.run()] returns or raises. *)
Lemma run_events_fuel fuel : forall s,
  (work (queue s) < fuel)%nat ->
  run_events fuel random w d s <> OutOfFuel.
Proof.
  induction fuel as [|fuel IH]; intros s Hlt; [lia|].
  simpl. unfold step.
  destruct (pop (queue s)) as [[e rest]|] eqn:Hpop; simpl; [|discriminate].
  apply pop_work in Hpop.
  destruct (resume random w d _ (vehicle_id e) (at_yield e)) as [s'|err|] eqn:E;
    simpl; [|discriminate|exfalso; apply (resume_fuel _ _ _ E)].
  apply IH. apply resume_work in E. simpl in E. lia.
Qed.

End Ledger.

(** ** Rounding *)

Section Rounding.

Import Binary64 LogisticsSimulator.
Local Open Scope Q_scope.

Lemma round_half_even_cases x :
  (round_half_even x = Qfloor x /\ x - inject_Z (Qfloor x) <= 1 # 2) \/
  (round_half_even x = (Qfloor x + 1)%Z /\ 1 # 2 <= x - inject_Z (Qfloor x)).
Proof.
  unfold round_half_even.
  destruct (Qcompare_spec (x - inject_Z (Qfloor x)) (1 # 2)) as [He|Hl|Hg].
  - destruct (Z.even (Qfloor x)); [left|right]; split; try reflexivity;
      rewrite He; apply Qle_refl.
  - left. split; [reflexivity|apply Qlt_le_weak; assumption].
  - right. split; [reflexivity|apply Qlt_le_weak; assumption].
Qed.

Lemma round_half_even_comp x y : x == y -> round_half_even x = round_half_even y.
Proof.
  intro H. unfold round_half_even.
  rewrite (Qfloor_comp _ _ H).
  assert (He : x - inject_Z (Qfloor y) == y - inject_Z (Qfloor y))
    by (rewrite H; reflexivity).
  rewrite (Qcompare_comp _ _ He _ _ (Qeq_refl (1 # 2))). reflexivity.
Qed.

Lemma round_half_even_mono x y :
  x <= y -> (round_half_even x <= round_half_even y)%Z.
Proof.
  intro Hle. pose proof (Qfloor_resp_le _ _ Hle) as Hf.
  destruct (Z.eq_dec (Qfloor x) (Qfloor y)) as [Heq|Hne].
  - unfold round_half_even. rewrite Heq.
    destruct (Qcompare_spec (x - inject_Z (Qfloor y)) (1 # 2)) as [Hx|Hx|Hx];
      destruct (Qcompare_spec (y - inject_Z (Qfloor y)) (1 # 2)) as [Hy|Hy|Hy];
      try (destruct (Z.even (Qfloor y))); try lia; exfalso; lra.
  - destruct (round_half_even_cases x) as [[-> _]|[-> _]];
      destruct (round_half_even_cases y) as [[-> _]|[-> _]]; lia.
Qed.

Lemma round_half_even_Z z : round_half_even (inject_Z z) = z.
Proof.
  unfold round_half_even. rewrite Qfloor_Z.
  destruct (Qcompare_spec (inject_Z z - inject_Z z) (1 # 2)) as [H|H|H].
  - exfalso. lra.
  - reflexivity.
  - exfalso. lra.
Qed.

Lemma hundredths z : z # 100 == inject_Z z * (1 # 100).
Proof. unfold Qeq, inject_Z. simpl. lia. Qed.

Lemma round2_mono x y : x <= y -> round2 x <= round2 y.
Proof.
  intro Hle. unfold round2.
  rewrite (hundredths (round_half_even (x * 100))),
    (hundredths (round_half_even (y * 100))).
  assert (Hz : (round_half_even (x * 100) <= round_half_even (y * 100))%Z)
    by (apply round_half_even_mono; lra).
  rewrite Zle_Qle in Hz. lra.
Qed.

Lemma round2_Z z : round2 (inject_Z z) == inject_Z z.
Proof.
  unfold round2.
  rewrite (round_half_even_comp (inject_Z z * 100) (inject_Z (z * 100))).
  - rewrite round_half_even_Z, (hundredths (z * 100)), inject_Z_mult.
    change (inject_Z 100) with 100. field.
  - rewrite inject_Z_mult. reflexivity.
Qed.

Lemma round2_nonneg x : 0 <= x -> 0 <= round2 x.
Proof.
  intro H. apply Qle_trans with (round2 0); [discriminate|].
  apply round2_mono. exact H.
Qed.

(** *** Rounding to binary64 *)

Lemma pow2_pos e : 0 < pow2 e.
Proof. apply Qpower_0_lt. reflexivity. Qed.

Lemma pow2_add a b : pow2 (a + b) == pow2 a * pow2 b.
Proof. apply Qpower_plus. discriminate. Qed.

Lemma pow2_le a b : (a <= b)%Z -> pow2 a <= pow2 b.
Proof. intro H. apply Qpower_le_compat_l; [assumption|discriminate]. Qed.

Lemma pow2_lt_inv a b : pow2 a < pow2 b -> (a < b)%Z.
Proof. intro H. apply (Qpower_lt_compat_l_inv 2); [assumption|reflexivity]. Qed.

Lemma pow2_Z e : (0 <= e)%Z -> pow2 e == inject_Z (2 ^ e).
Proof. intro H. unfold pow2. rewrite (Zpower_Qpower 2 e H). reflexivity. Qed.

Lemma ilog2_spec x : 0 < x -> pow2 (ilog2 x) <= x /\ x < pow2 (ilog2 x + 1).
Proof.
  intro Hx. destruct x as [n d]. unfold ilog2. cbn [Qnum Qden].
  assert (Hn : (0 < n)%Z) by (unfold Qlt in Hx; simpl in Hx; lia).
  destruct (Z.log2_spec n Hn) as [Hn1 Hn2].
  destruct (Z.log2_spec (Zpos d) (Pos2Z.is_pos d)) as [Hd1 Hd2].
  pose proof (Z.log2_nonneg n) as Hln.
  pose proof (Z.log2_nonneg (Zpos d)) as Hld.
  set (ln := Z.log2 n) in *. set (ld := Z.log2 (Zpos d)) in *.
  assert (Hx' : n # d == inject_Z n / inject_Z (Zpos d)) by apply Qmake_Qdiv.
  assert (Hdpos : 0 < inject_Z (Zpos d)) by reflexivity.
  assert (Hlo : pow2 (ln - ld - 1) <= n # d).
  { rewrite Hx'. apply Qle_shift_div_l; [assumption|].
    assert (E : pow2 (ln - ld - 1) * pow2 (ld + 1) == pow2 ln).
    { rewrite <- pow2_add. replace (ln - ld - 1 + (ld + 1))%Z with ln by lia.
      reflexivity. }
    apply Qle_trans with (pow2 (ln - ld - 1) * pow2 (ld + 1)).
    - apply Qmult_le_l; [apply pow2_pos|].
      rewrite (pow2_Z (ld + 1)) by lia. rewrite <- Zle_Qle.
      unfold Z.succ in Hd2. lia.
    - rewrite E, (pow2_Z ln) by lia. rewrite <- Zle_Qle. lia. }
  assert (Hhi : n # d < pow2 (ln - ld + 1)).
  { rewrite Hx'. apply Qlt_shift_div_r; [assumption|].
    assert (E : pow2 (ln - ld + 1) * pow2 ld == pow2 (ln + 1)).
    { rewrite <- pow2_add. replace (ln - ld + 1 + ld)%Z with (ln + 1)%Z by lia.
      reflexivity. }
    apply Qlt_le_trans with (pow2 (ln - ld + 1) * pow2 ld).
    - rewrite E, (pow2_Z (ln + 1)) by lia. rewrite <- Zlt_Qlt.
      unfold Z.succ in Hn2. lia.
    - apply Qmult_le_l; [apply pow2_pos|].
      rewrite (pow2_Z ld) by lia. rewrite <- Zle_Qle. lia. }
  destruct (Qle_bool (pow2 (ln - ld)) (n # d)) eqn:Hb.
  - apply Qle_bool_iff in Hb. split; assumption.
  - assert (Hlt : n # d < pow2 (ln - ld)).
    { apply Qnot_le_lt. intro H. apply Qle_bool_iff in H. congruence. }
    replace (ln - ld - 1 + 1)%Z with (ln - ld)%Z by lia. split; assumption.
Qed.

Lemma ilog2_unique x k : pow2 k <= x -> x < pow2 (k + 1) -> ilog2 x = k.
Proof.
  intros Hlo Hhi.
  assert (Hx : 0 < x) by (apply Qlt_le_trans with (pow2 k); [apply pow2_pos|assumption]).
  destruct (ilog2_spec x Hx) as [Hlo' Hhi'].
  assert (ilog2 x < k + 1)%Z
    by (apply pow2_lt_inv; apply Qle_lt_trans with x; assumption).
  assert (k < ilog2 x + 1)%Z
    by (apply pow2_lt_inv; apply Qle_lt_trans with x; assumption).
  lia.
Qed.

Lemma ilog2_mono x y : 0 < x -> x <= y -> (ilog2 x <= ilog2 y)%Z.
Proof.
  intros Hx Hle.
  assert (Hy : 0 < y) by (apply Qlt_le_trans with x; assumption).
  destruct (ilog2_spec x Hx) as [Hlo _]. destruct (ilog2_spec y Hy) as [_ Hhi].
  assert (ilog2 x < ilog2 y + 1)%Z; [|lia].
  apply pow2_lt_inv. apply Qle_lt_trans with x; [assumption|].
  apply Qle_lt_trans with y; assumption.
Qed.

Lemma last_bit_mono x y : 0 < x -> x <= y -> (last_bit x <= last_bit y)%Z.
Proof.
  intros Hx Hle. unfold last_bit. pose proof (ilog2_mono x y Hx Hle). lia.
Qed.

Lemma nearest_nonneg x : 0 < x -> 0 <= nearest x.
Proof.
  intro Hx. unfold nearest.
  apply Qmult_le_0_compat; [|apply Qlt_le_weak, pow2_pos].
  change 0 with (inject_Z 0). rewrite <- Zle_Qle.
  rewrite <- (round_half_even_Z 0). apply round_half_even_mono.
  apply Qle_shift_div_l; [apply pow2_pos|].
  change (inject_Z 0) with 0. lra.
Qed.

(** A positive number and its rounding sit on the same side of each power
    of two. *)
Lemma nearest_above x k :
  (-1074 <= k - 52)%Z -> pow2 k <= x -> pow2 k <= nearest x.
Proof.
  intros Hk Hx.
  assert (Hpos : 0 < x)
    by (apply Qlt_le_trans with (pow2 k); [apply pow2_pos|assumption]).
  destruct (ilog2_spec x Hpos) as [Hlo Hhi].
  assert (HkK : (k <= ilog2 x)%Z).
  { assert (k < ilog2 x + 1)%Z; [|lia].
    apply pow2_lt_inv. apply Qle_lt_trans with x; assumption. }
  apply Qle_trans with (pow2 (ilog2 x)); [apply pow2_le; assumption|].
  unfold nearest.
  assert (He : last_bit x = (ilog2 x - 52)%Z) by (unfold last_bit; lia).
  rewrite He. set (K := ilog2 x) in *.
  assert (Hm : (2 ^ 52 <= round_half_even (x / pow2 (K - 52)))%Z).
  { rewrite <- (round_half_even_Z (2 ^ 52)). apply round_half_even_mono.
    rewrite <- pow2_Z by lia. apply Qle_shift_div_l; [apply pow2_pos|].
    rewrite <- pow2_add. replace (52 + (K - 52))%Z with K by lia. assumption. }
  rewrite Zle_Qle, <- pow2_Z in Hm by lia.
  apply Qle_trans with (pow2 52 * pow2 (K - 52)).
  - rewrite <- pow2_add. replace (52 + (K - 52))%Z with K by lia.
    apply Qle_refl.
  - apply Qmult_le_compat_r; [assumption|apply Qlt_le_weak, pow2_pos].
Qed.

Lemma nearest_below x k :
  0 < x -> (last_bit x <= k)%Z -> x <= pow2 k -> nearest x <= pow2 k.
Proof.
  intros Hpos He Hx. unfold nearest. set (e := last_bit x) in *.
  assert (Hm : (round_half_even (x / pow2 e) <= 2 ^ (k - e))%Z).
  { rewrite <- (round_half_even_Z (2 ^ (k - e))). apply round_half_even_mono.
    rewrite <- pow2_Z by lia. apply Qle_shift_div_r; [apply pow2_pos|].
    rewrite <- pow2_add. replace (k - e + e)%Z with k by lia. assumption. }
  rewrite Zle_Qle, <- pow2_Z in Hm by lia.
  apply Qle_trans with (pow2 (k - e) * pow2 e).
  - apply Qmult_le_compat_r; [assumption|apply Qlt_le_weak, pow2_pos].
  - rewrite <- pow2_add. replace (k - e + e)%Z with k by lia. apply Qle_refl.
Qed.

Lemma nearest_mono x y : 0 < x -> x <= y -> nearest x <= nearest y.
Proof.
  intros Hx Hle.
  assert (Hy : 0 < y) by (apply Qlt_le_trans with x; assumption).
  pose proof (last_bit_mono x y Hx Hle) as He.
  assert (last_bit x = last_bit y \/ last_bit x < last_bit y)%Z as [Heq|Hlt]
    by lia.
  - unfold nearest. rewrite Heq.
    apply Qmult_le_compat_r; [|apply Qlt_le_weak, pow2_pos].
    rewrite <- Zle_Qle. apply round_half_even_mono.
    apply Qmult_le_compat_r; [assumption|].
    apply Qlt_le_weak, Qinv_lt_0_compat, pow2_pos.
  - destruct (ilog2_spec x Hx) as [_ Hxhi].
    destruct (ilog2_spec y Hy) as [Hylo _].
    assert (Hk : (last_bit y = ilog2 y - 52)%Z) by (unfold last_bit in *; lia).
    assert (Hik : (ilog2 x + 1 <= ilog2 y)%Z) by (unfold last_bit in *; lia).
    apply Qle_trans with (pow2 (ilog2 y)).
    + apply nearest_below; [assumption|lia|].
      apply Qle_trans with (pow2 (ilog2 x + 1));
        [apply Qlt_le_weak; assumption|apply pow2_le; assumption].
    + apply nearest_above; [unfold last_bit in *; lia|assumption].
Qed.

Lemma fl_0 : fl 0 = 0.
Proof. reflexivity. Qed.

Lemma fl_mono x y : x <= y -> fl x <= fl y.
Proof.
  intro Hle. unfold fl.
  destruct (Qcompare_spec x 0) as [Hx|Hx|Hx];
    destruct (Qcompare_spec y 0) as [Hy|Hy|Hy].
  - apply Qle_refl.
  - exfalso. lra.
  - apply nearest_nonneg; assumption.
  - assert (0 <= nearest (- x)) by (apply nearest_nonneg; lra). lra.
  - assert (nearest (- y) <= nearest (- x)) by (apply nearest_mono; lra). lra.
  - assert (0 <= nearest (- x)) by (apply nearest_nonneg; lra).
    assert (0 <= nearest y) by (apply nearest_nonneg; lra). lra.
  - exfalso. lra.
  - exfalso. lra.
  - apply nearest_mono; assumption.
Qed.

Lemma fl_comp x y : x == y -> fl x == fl y.
Proof.
  intro H. apply Qle_antisym; apply fl_mono; rewrite H; apply Qle_refl.
Qed.

Lemma fl_nonneg x : 0 <= x -> 0 <= fl x.
Proof. intro H. rewrite <- fl_0. apply fl_mono. assumption. Qed.

Lemma fl_nonpos x : x <= 0 -> fl x <= 0.
Proof. intro H. rewrite <- fl_0. apply fl_mono. assumption. Qed.

(** The floats next to one: a float above one is at least [1 + 2^-52]. *)
Lemma fl_above_one z : 1 < fl z -> 1 + pow2 (-52) <= fl z.
Proof.
  intro H.
  assert (H1 : fl 1 == 1) by (vm_compute; reflexivity).
  assert (H2 : fl 2 == 2) by (vm_compute; reflexivity).
  assert (Hz : 1 < z).
  { apply Qnot_le_lt. intro Hle. apply fl_mono in Hle. lra. }
  destruct (Qlt_le_dec z 2) as [Hlt|Hge].
  - assert (Hlog : ilog2 z = 0%Z)
      by (apply ilog2_unique; [exact (Qlt_le_weak _ _ Hz)|exact Hlt]).
    unfold fl in *. destruct (Qcompare_spec z 0) as [H0|H0|H0]; try lra.
    unfold nearest, last_bit in *. rewrite Hlog in *.
    change (Z.max (0 - 52) (-1074)) with (-52)%Z in *.
    set (m := round_half_even (z / pow2 (-52))) in *.
    assert (Hm : (2 ^ 52 < m)%Z).
    { rewrite Zlt_Qlt, <- pow2_Z by lia.
      apply Qmult_lt_r with (pow2 (-52)); [apply pow2_pos|].
      rewrite <- pow2_add. exact H. }
    assert (Hm' : (2 ^ 52 + 1 <= m)%Z) by lia.
    rewrite Zle_Qle, inject_Z_plus, <- pow2_Z in Hm' by lia.
    apply Qle_trans with ((pow2 52 + inject_Z 1) * pow2 (-52)).
    + rewrite Qmult_plus_distr_l, <- pow2_add. apply Qle_refl.
    + apply Qmult_le_compat_r; [assumption|apply Qlt_le_weak, pow2_pos].
  - apply fl_mono in Hge. rewrite H2 in Hge.
    assert (pow2 (-52) <= 1) by (vm_compute; discriminate). lra.
Qed.

(** [1.0 - x] is negative exactly when the float [x] exceeds one. *)
Lemma fl_one_minus z : fl (1 - fl z) < 0 <-> 1 < fl z.
Proof.
  split.
  - intro H. apply Qnot_le_lt. intro Hle.
    assert (0 <= fl (1 - fl z)) by (apply fl_nonneg; lra). lra.
  - intro H. apply fl_above_one in H.
    assert (Hle : 1 - fl z <= - pow2 (-52)) by lra.
    apply fl_mono in Hle.
    assert (fl (- pow2 (-52)) < 0) by (vm_compute; reflexivity). lra.
Qed.

(** On the samples, sums, differences and products as the kernel's
    binary64 computes them are the exact results rounded by [fl], and the
    floats written 0.1, 0.3, 0.7 and 1.6 are what [fl] makes of the
    decimals. *)
Lemma fl_conforms :
  forallb (fun xy =>
             conforms PrimFloat.add Qplus (fst xy) (snd xy)
             && conforms PrimFloat.sub Qminus (fst xy) (snd xy)
             && conforms PrimFloat.mul Qmult (fst xy) (snd xy)) samples
  = true /\
  to_Q 0x1.999999999999ap-4 == fl (1 # 10) /\
  to_Q 0x1.3333333333333p-2 == fl (3 # 10) /\
  to_Q 0x1.6666666666666p-1 == fl (7 # 10) /\
  to_Q 0x1.999999999999ap+0 == fl (16 # 10).
Proof.
  repeat (apply conj; [vm_compute; reflexivity|]). vm_compute. reflexivity.
Qed.



End Rounding.

(** * The claims *)

Section GreedyClaims.

Import Optimizer Instances.
Local Open Scope Z_scope.

(** The initial [unvisited] is increasing, and stays so. *)
Lemma seq_sorted len : forall first, StronglySorted Nat.lt (seq first len).
Proof.
  induction len as [|len IH]; intro first; simpl; constructor.
  - apply IH.
  - rewrite Forall_forall. intros x Hx. apply in_seq in Hx. lia.
Qed.

Lemma remove_sorted x l :
  StronglySorted Nat.lt l -> StronglySorted Nat.lt (remove Nat.eq_dec x l).
Proof.
  induction 1 as [|a l Hs IH Hall]; simpl; [constructor|].
  destruct (Nat.eq_dec x a); [assumption|].
  constructor; [assumption|].
  rewrite Forall_forall in *. intros y Hy. apply in_remove in Hy.
  apply Hall. tauto.
Qed.

Lemma route_loop_sorted d vehicle_capacity fuel : forall v unvisited v' unvisited',
  StronglySorted Nat.lt unvisited ->
  route_loop fuel d vehicle_capacity v unvisited = Ok (v', unvisited') ->
  StronglySorted Nat.lt unvisited'.
Proof.
  induction fuel as [|fuel IH]; intros v unvisited v' unvisited' Hs H;
    [discriminate|].
  simpl in H. bind_inv H. destruct a as [[nearest min_dist]|].
  - bind_inv H. apply (IH _ _ _ _ (remove_sorted nearest _ Hs) H).
  - inversion H; subst. assumption.
Qed.

(** Every stop added to the route left [unvisited]. *)
Lemma route_loop_shrinks d vehicle_capacity fuel :
  forall v unvisited v' unvisited',
    route_loop fuel d vehicle_capacity v unvisited = Ok (v', unvisited') ->
    incl unvisited' unvisited /\
    (length unvisited' + length (route v')
       <= length unvisited + length (route v))%nat.
Proof.
  induction fuel as [|fuel IH]; intros v unvisited v' unvisited' H;
    [discriminate|].
  simpl in H. bind_inv H. destruct a as [[nearest min_dist]|].
  - bind_inv H. destruct (IH _ _ _ _ H) as [Hincl Hlen].
    apply scan_from_pick in E. destruct E as [Hbad|(Hin & _)]; [discriminate|].
    pose proof (remove_length_lt Nat.eq_dec unvisited nearest Hin) as Hlt.
    unfold move in Hlen. cbn [route] in Hlen. rewrite length_app in Hlen.
    cbn [length] in Hlen. split; [|lia].
    intros c Hc. apply Hincl in Hc. apply in_remove in Hc. tauto.
  - inversion H; subst. split; [apply incl_refl|lia].
Qed.

(** *** When the baseline does return *)

Lemma scan_from_ok d vehicle_capacity v unvisited :
  well_formed d ->
  (current_node v < length (time_matrix d))%nat ->
  (forall c, In c unvisited -> (c < length (time_matrix d))%nat) ->
  forall best, exists best',
    scan_from d vehicle_capacity v best unvisited = Ok best'.
Proof.
  intros (Hdepot & Hmatrix & Hdemand) Hv.
  induction unvisited as [|x rest IH]; intros Hin best; simpl.
  - eexists. reflexivity.
  - assert (Hx : (x < length (time_matrix d))%nat) by (apply Hin; left; reflexivity).
    destruct (Hmatrix _ _ Hv Hx) as (t & Ht).
    destruct (Hmatrix _ _ Hx Hdepot) as (b & Hb).
    destruct (Hdemand _ Hx) as (q & Hq).
    assert (Hc : exists mid, scan_candidate d vehicle_capacity v best x = Ok mid).
    { unfold scan_candidate. rewrite Ht, Hb, Hq. cbn [bind].
      destruct (current_load v + q >? vehicle_capacity); [eexists; reflexivity|].
      destruct (current_time v + t + get (service_time d) 10 + b
                  >? get (max_time_minutes d) 480); [eexists; reflexivity|].
      destruct best as [[c m]|]; [|eexists; reflexivity].
      destruct (t <? m); eexists; reflexivity. }
    destruct Hc as (mid & ->). cbn [bind].
    apply IH. intros c Hc. apply Hin. right. assumption.
Qed.

Lemma route_loop_ok d vehicle_capacity fuel :
  well_formed d ->
  forall v unvisited,
    (length unvisited < fuel)%nat ->
    (current_node v < length (time_matrix d))%nat ->
    (forall c, In c unvisited -> (c < length (time_matrix d))%nat) ->
    exists v' unvisited',
      route_loop fuel d vehicle_capacity v unvisited = Ok (v', unvisited').
Proof.
  intro Hwf. induction fuel as [|fuel IH]; intros v unvisited Hlen Hv Hin;
    [lia|].
  simpl.
  destruct (scan_from_ok d vehicle_capacity v unvisited Hwf Hv Hin None)
    as (best & Hscan).
  unfold scan. rewrite Hscan. cbn [bind].
  destruct best as [[nearest min_dist]|]; [|eexists; eexists; reflexivity].
  apply scan_from_pick in Hscan.
  destruct Hscan as [Hbad|(Hnear & _)]; [discriminate|].
  destruct Hwf as (Hdepot & Hmatrix & Hdemand).
  destruct (Hdemand _ (Hin _ Hnear)) as (q & ->). cbn [bind].
  apply IH.
  - pose proof (remove_length_lt Nat.eq_dec unvisited nearest Hnear). lia.
  - simpl. apply Hin. assumption.
  - intros c Hc. apply in_remove in Hc. apply Hin. tauto.
Qed.

(** If every customer passes the two guards on a new route, each pass of the
    outer loop serves at least one of them, and the baseline returns. *)
Lemma routes_loop_returns d vehicle_capacity :
  well_formed d ->
  list_get (vehicle_capacities d) 0 = Ok vehicle_capacity ->
  forall fuel routes unvisited,
    (length unvisited < fuel)%nat ->
    (forall c, In c unvisited ->
       (c < length (time_matrix d))%nat /\
       eligible d vehicle_capacity (fresh d) c) ->
    exists res, routes_loop fuel d routes unvisited = Ok res.
Proof.
  intros Hwf Hcap. induction fuel as [|fuel IH]; intros routes unvisited Hlen Hall;
    [lia|].
  destruct unvisited as [|x rest]; [eexists; reflexivity|].
  cbn [routes_loop]. rewrite Hcap. cbn [bind].
  destruct (route_loop_ok d vehicle_capacity (S (length (x :: rest))) Hwf
              (fresh d) (x :: rest)) as (v' & unvisited' & Hloop).
  - lia.
  - apply Hwf.
  - intros c Hc. apply (Hall c Hc).
  - rewrite Hloop. cbn [bind].
    destruct (route_loop_shrinks _ _ _ _ _ _ _ Hloop) as [Hincl Hshrink].
    destruct (route_loop_spec d vehicle_capacity _ _ _ _ _
                (tracked_fresh d vehicle_capacity) Hloop)
      as (_ & Hnone & _ & Hsame).
    assert (Hne : route v' <> []).
    { intro Hnil. destruct (Hsame Hnil) as [-> ->].
      apply scan_from_pick in Hnone. destruct Hnone as [_ Hno].
      apply (Hno x); [left; reflexivity|]. apply Hall. left. reflexivity. }
    apply IH.
    + cbn [route fresh length] in Hshrink.
      destruct (route v'); [congruence|]. cbn [length] in *. lia.
    + intros c Hc. apply Hall. apply Hincl. assumption.
Qed.

Lemma solve_greedy_returns d vehicle_capacity :
  well_formed d ->
  list_get (vehicle_capacities d) 0 = Ok vehicle_capacity ->
  (forall c, In c (seq 1 (length (time_matrix d) - 1)) ->
     eligible d vehicle_capacity (fresh d) c) ->
  exists routes, solve_greedy (length (time_matrix d)) d = Ok routes.
Proof.
  intros Hwf Hcap Hall. unfold solve_greedy.
  apply routes_loop_returns with (vehicle_capacity := vehicle_capacity);
    try assumption.
  - rewrite length_seq. destruct Hwf as (Hdepot & _). lia.
  - intros c Hc. split; [|apply Hall; assumption].
    apply in_seq in Hc. lia.
Qed.

(** With a service time of at most ten minutes the constant of line 172 is on
    the safe side, and every returned route is back within the horizon. *)
Lemma solve_greedy_returns_in_time d fuel routes r :
  get (service_time d) 10 <= 10 ->
  solve_greedy fuel d = Ok routes ->
  In r routes ->
  exists minutes,
    route_duration d (get (service_time d) 10) r = Ok minutes /\
    minutes <= get (max_time_minutes d) 480.
Proof.
  intros Hservice H Hr. unfold solve_greedy in H.
  destruct fuel as [|fuel]; [discriminate|].
  destruct (seq 1 (length (time_matrix d) - 1)) as [|x rest] eqn:Hseq.
  - simpl in H. inversion H; subst. destruct Hr.
  - destruct (list_get (vehicle_capacities d) 0) as [cap|e|] eqn:Hcap;
      [|cbn [routes_loop] in H; rewrite Hcap in H; discriminate ..].
    assert (Hall : Forall (fun r => exists minutes,
                      route_duration d (get (service_time d) 10) r = Ok minutes /\
                      minutes <= get (max_time_minutes d) 480) routes).
    { refine (routes_loop_spec d cap Hcap _ _ (S fuel) [] (x :: rest) routes
                (Forall_nil _) H).
      intros v (_ & Hnode & (travel & Htravel & Hclock) & Hlast) Hne.
      destruct (Hlast Hne) as (_ & back & Hback & Hle).
      unfold route_duration. rewrite Htravel. cbn [bind].
      rewrite <- Hnode, Hback. cbn [bind]. eexists. split; [reflexivity|].
      assert (0 < Z.of_nat (length (route v))).
      { destruct (route v); [congruence|simpl; lia]. }
      nia. }
    rewrite Forall_forall in Hall. apply Hall. assumption.
Qed.

(** C1 (the code departs from the claim).  On [overloaded], whose only
    customer asks for more than the vehicle carries, and on [far_customer],
    whose second customer cannot be served and left within the shift,
    [solve_greedy] does not return a route list and drops nothing: once the
    customers that fit are served, every new route takes no customer, the set
    of unvisited customers stays as it was, and the outer loop goes on
    whatever the number of passes allowed. *)
Theorem solve_greedy_infeasible_customer_never_returns :
  forall fuel,
    solve_greedy fuel overloaded = OutOfFuel /\
    solve_greedy fuel far_customer = OutOfFuel.
Proof.
  intro fuel. split.
  - unfold solve_greedy.
    apply routes_loop_stuck with (vehicle_capacity := 50).
    + reflexivity.
    + discriminate.
    + reflexivity.
  - destruct fuel as [|fuel]; [reflexivity|].
    change (solve_greedy (S fuel) far_customer)
      with (routes_loop fuel far_customer [[1%nat]] [2%nat]).
    apply routes_loop_stuck with (vehicle_capacity := 50).
    + reflexivity.
    + discriminate.
    + reflexivity.
Qed.

(** C2 (the code departs from the claim).  On [long_service] the greedy
    baseline returns the single route 1, 2; with the configured thirty minutes
    of service that route is back at the depot after ninety minutes, past the
    horizon of eighty. *)
Theorem solve_greedy_long_service_overruns :
  solve_greedy 2 long_service = Ok [[1; 2]%nat] /\
  route_duration long_service (get (service_time long_service) 10) [1; 2]%nat
    = Ok 90 /\
  get (max_time_minutes long_service) 480 = 80.
Proof. repeat split. Qed.

(** C8.  In a scan of the unvisited customers in increasing order, the stop
    picked is an eligible one, [min_dist] is its travel time from the current
    node, no eligible customer is nearer, and among the eligible customers at
    that same travel time it has the lowest index. *)
Theorem scan_picks_nearest_lowest_index d vehicle_capacity v unvisited
    nearest min_dist :
  StronglySorted Nat.lt unvisited ->
  scan d vehicle_capacity v unvisited = Ok (Some (nearest, min_dist)) ->
  In nearest unvisited /\
  eligible d vehicle_capacity v nearest /\
  matrix_get (time_matrix d) (current_node v) nearest = Ok min_dist /\
  forall c dist,
    In c unvisited ->
    eligible d vehicle_capacity v c ->
    matrix_get (time_matrix d) (current_node v) c = Ok dist ->
    min_dist <= dist /\ (dist = min_dist -> (nearest <= c)%nat).
Proof.
  intros Hs H. unfold scan in H.
  apply scan_from_chosen with (seen := fun _ => False) in H.
  - simpl in H. destruct H as ([[]|Hin] & Hel & Hd & Hmin).
    split; [assumption|]. split; [assumption|]. split; [assumption|].
    intros c dist Hc. apply Hmin. right. assumption.
  - assumption.
  - intros s c [].
  - simpl. intros c [].
Qed.

Lemma scan_picks_nearest_lowest_index_witness :
  In 1%nat [1; 2]%nat /\
  eligible long_service 50 (fresh long_service) 1 /\
  matrix_get (time_matrix long_service)
    (current_node (fresh long_service)) 1 = Ok 10 /\
  forall c dist,
    In c [1; 2]%nat ->
    eligible long_service 50 (fresh long_service) c ->
    matrix_get (time_matrix long_service)
      (current_node (fresh long_service)) c = Ok dist ->
    10 <= dist /\ (dist = 10 -> (1 <= c)%nat).
Proof.
  apply (scan_picks_nearest_lowest_index long_service 50 (fresh long_service)
           [1; 2]%nat 1%nat 10).
  - apply (seq_sorted 2 1).
  - reflexivity.
Defined.

(** C9.  Each move adds the travel time and ten minutes to the route clock,
    whatever [service_time] says, while the guards passed by the stop just
    picked count the configured [service_time].  Hence, when the inner loop
    ends, the clock is the travel time of the route plus ten minutes a stop,
    and for a configured service time other than ten and a route that is not
    empty it is not the travel time plus the configured service time a stop. *)
Theorem greedy_clock_counts_ten_minutes d vehicle_capacity :
  (forall v unvisited nearest min_dist demand,
     scan d vehicle_capacity v unvisited = Ok (Some (nearest, min_dist)) ->
     eligible d vehicle_capacity v nearest /\
     current_time (move v nearest min_dist demand)
       = current_time v + min_dist + 10) /\
  (forall fuel unvisited v unvisited',
     route_loop fuel d vehicle_capacity (fresh d) unvisited
       = Ok (v, unvisited') ->
     exists travel,
       route_travel d (depot d) (route v) = Ok travel /\
       current_time v = travel + 10 * Z.of_nat (length (route v)) /\
       forall s,
         service_time d = Some s -> s <> 10 -> route v <> [] ->
         current_time v <> travel + s * Z.of_nat (length (route v))).
Proof.
  split.
  - intros v unvisited nearest min_dist demand H.
    apply scan_from_pick in H. destruct H as [Hbad|(_ & Hel & _)];
      [discriminate|].
    split; [assumption|]. simpl. lia.
  - intros fuel unvisited v unvisited' H.
    destruct (route_loop_spec d vehicle_capacity _ _ _ _ _
                (tracked_fresh d vehicle_capacity) H)
      as ((_ & _ & (travel & Htravel & Hclock) & _) & _).
    exists travel. split; [assumption|]. split; [assumption|].
    intros s _ Hs Hne. rewrite Hclock.
    assert (0 < Z.of_nat (length (route v))).
    { destruct (route v); [congruence|simpl; lia]. }
    nia.
Qed.

Lemma greedy_clock_counts_ten_minutes_witness :
  exists travel,
    route_travel long_service 0 [1; 2]%nat = Ok travel /\
    40 = travel + 10 * 2 /\
    40 <> travel + 30 * 2.
Proof.
  destruct (proj2 (greedy_clock_counts_ten_minutes long_service 50)
              3%nat [1; 2]%nat
              {| route := [1; 2]%nat; current_load := 2; current_time := 40;
                 current_node := 2 |} [] eq_refl)
    as (travel & Ht & Hc & Hs).
  exists travel. split; [exact Ht|]. split; [exact Hc|].
  apply (Hs 30 eq_refl); discriminate.
Defined.

End GreedyClaims.

Section RouteClaims.

Import Optimizer Instances.
Local Open Scope Z_scope.

Lemma three_nodes_ok : manager_ok three_nodes two_customers.
Proof.
  split.
  - intro vehicle_id. reflexivity.
  - intros index. simpl.
    destruct (Nat.ltb_spec index 3) as [Hlt|Hge]; [reflexivity|congruence].
Qed.

Lemma one_tour_feasible : feasible 4 three_nodes two_customers one_tour.
Proof.
  split.
  - intros vehicle_id Hv. exists [0; 1; 2]%nat, 3%nat.
    split; [reflexivity|].
    split; [|split; [|split]].
    + simpl. repeat split; eexists; (split; [reflexivity|simpl; lia]).
    + split; [|discriminate]. exists 1440. split; [reflexivity|].
      simpl. intros index [<-|[<-|[<-|[<-|[]]]]]; simpl; lia.
    + simpl. repeat split; eexists; (split; [reflexivity|simpl; lia]).
    + simpl in Hv. assert (vehicle_id = O) by lia. subst vehicle_id.
      split; [|reflexivity]. exists 50. split; [reflexivity|].
      simpl. intros index [<-|[<-|[<-|[<-|[]]]]]; simpl; lia.
  - intros ranges H. inversion H; subst. repeat constructor; simpl; lia.
Qed.

(** C3.  Every route [solve_greedy] returns carries at most the capacity the
    code reads, that of vehicle 0; and every route [solve] extracts from an
    assignment that satisfies the posted constraints carries at most the
    capacity of its vehicle. *)
Theorem route_demand_within_capacity :
  (forall d fuel routes r,
     solve_greedy fuel d = Ok routes ->
     In r routes ->
     exists cap total,
       list_get (vehicle_capacities d) 0 = Ok cap /\
       route_demand d r = Ok total /\ total <= cap) /\
  (forall fuel m d solution routes vehicle_id r,
     manager_ok m d ->
     (forall sol, solution = Some sol -> feasible fuel m d sol) ->
     solve fuel m d solution = Ok routes ->
     nth_error routes vehicle_id = Some r ->
     exists cap total,
       list_get (vehicle_capacities d) vehicle_id = Ok cap /\
       route_demand d r = Ok total /\ total <= cap).
Proof.
  split.
  - intros d fuel routes r H Hr. unfold solve_greedy in H.
    destruct fuel as [|fuel]; [discriminate|].
    destruct (seq 1 (length (time_matrix d) - 1)) as [|x rest] eqn:Hseq.
    + simpl in H. inversion H; subst. destruct Hr.
    + destruct (list_get (vehicle_capacities d) 0) as [cap|e|] eqn:Hcap;
        [|cbn [routes_loop] in H; rewrite Hcap in H; discriminate ..].
      exists cap.
      assert (Hall : Forall (fun r => exists total,
                        route_demand d r = Ok total /\ total <= cap) routes).
      { refine (routes_loop_spec d cap Hcap _ _ (S fuel) [] (x :: rest) routes
                  (Forall_nil _) H).
        intros v (Hload & _ & _ & Hlast) Hne.
        exists (current_load v). split; [assumption|]. apply Hlast, Hne. }
      rewrite Forall_forall in Hall. destruct (Hall r Hr) as (total & Ht & Hle).
      exists total. repeat split; assumption.
  - intros fuel m d solution routes vehicle_id r Hm Hfeas H Hr.
    destruct solution as [sol|].
    2:{ unfold solve in H. bind_inv H. simpl in H. inversion H; subst.
        destruct vehicle_id; discriminate. }
    specialize (Hfeas sol eq_refl).
    destruct (solve_route m d sol fuel routes vehicle_id r Hfeas H Hr)
      as (_ & p & e & Hp & -> & _ & _ & Hch & (c & Hc & Hin) & Hzero).
    cbn [capacity capacity_dimension] in Hc. exists c.
    specialize (Hzero eq_refl).
    destruct p as [|index rest].
    + exists 0. split; [assumption|]. split; [reflexivity|].
      assert (0 <= Cumul sol "Capacity" e <= c) by (apply Hin; left; reflexivity).
      lia.
    + pose proof Hch as [(t & Ht & Hlink) _].
      cbn [transit slack_max capacity_dimension] in Ht, Hlink.
      unfold demand_callback in Ht. cbn [hd] in Hzero.
      assert (Hstart : index = Start m vehicle_id).
      { destruct (path_head m sol fuel _ _ _ Hp) as [Hnil|Hhd];
          [discriminate|exact Hhd]. }
      rewrite Hstart, (proj1 Hm) in Ht.
      assert (Hnext : 0 <= Cumul sol "Capacity" (hd e rest)).
      { apply Hin. destruct rest as [|y rest]; simpl; auto. }
      destruct (capacity_chain m d (Cumul sol "Capacity") e t Ht
                  ltac:(lia) (index :: rest) Hch)
        as (total & Htotal & Hle).
      exists total. split; [assumption|]. split; [assumption|].
      cbn [hd] in Hle.
      assert (Cumul sol "Capacity" e <= c).
      { apply Hin. apply in_or_app. right. left. reflexivity. }
      lia.
Qed.

Lemma route_demand_within_capacity_witness :
  (exists cap total,
     list_get (vehicle_capacities two_customers) 0 = Ok cap /\
     route_demand two_customers [1; 2]%nat = Ok total /\ total <= cap) /\
  (exists cap total,
     list_get (vehicle_capacities two_customers) 0 = Ok cap /\
     route_demand two_customers [1; 2]%nat = Ok total /\ total <= cap).
Proof.
  split.
  - apply (proj1 route_demand_within_capacity two_customers 2%nat
             [[1; 2]%nat] [1; 2]%nat).
    + reflexivity.
    + left. reflexivity.
  - apply (proj2 route_demand_within_capacity 4%nat three_nodes two_customers
             (Some one_tour) [[1; 2]%nat] 0%nat [1; 2]%nat).
    + exact three_nodes_ok.
    + intros sol Hsol. inversion Hsol; subst. exact one_tour_feasible.
    + reflexivity.
    + reflexivity.
Defined.

(** C4.  Every stop of a route [solve] extracts from an assignment that
    satisfies the posted constraints is a customer whose index lies on the
    path of the route's vehicle, after the start index and the indices of the
    stops before it.  The value of the time dimension at that index, the
    cumulative arrival time at the stop, lies within the stop's window, and
    it is no earlier than the opening of the depot plus the minutes the
    vehicle needs up to the stop: the travel time of every leg and the
    service time at every customer left before. *)
Theorem arrival_within_time_window fuel m d sol routes vehicle_id r stop
    earliest latest :
  manager_ok m d ->
  feasible fuel m d sol ->
  solve fuel m d (Some sol) = Ok routes ->
  nth_error routes vehicle_id = Some r ->
  In stop r ->
  nth_error (time_windows d) stop = Some (earliest, latest) ->
  exists e before index after depot_window elapsed,
    path fuel m sol (Start m vehicle_id)
      = Ok (Start m vehicle_id :: before ++ index :: after, e) /\
    r = customers m d before ++ stop :: customers m d after /\
    IndexToNode m index = stop /\ stop <> depot d /\
    earliest <= Cumul sol "Time" index <= latest /\
    nth_error (time_windows d) (depot d) = Some depot_window /\
    minutes_along d (depot d) (map (IndexToNode m) (before ++ [index]))
      = Ok elapsed /\
    fst depot_window + elapsed <= Cumul sol "Time" index.
Proof.
  intros Hm Hfeas H Hr Hstop Hwin.
  destruct (solve_route m d sol fuel routes vehicle_id r Hfeas H Hr)
    as (Hv & p & e & Hp & -> & Hch & _).
  destruct (customers_In m d p stop Hstop) as (Hne & index & Hin & Hnode).
  assert (Hsplit : exists before after,
            p = Start m vehicle_id :: before ++ index :: after).
  { destruct (path_head m sol fuel _ _ _ Hp) as [Hnil|Hhd];
      [subst p; destruct Hin|].
    destruct p as [|first rest]; [destruct Hin|]. cbn [hd] in Hhd. subst first.
    destruct Hin as [Heq|Hin].
    - exfalso. apply Hne. rewrite <- Hnode, <- Heq. apply (proj1 Hm).
    - destruct (in_split _ _ Hin) as (before & after & ->).
      exists before, after. reflexivity. }
  destruct Hsplit as (before & after & ->).
  destruct Hfeas as (_ & Hranges).
  unfold solve in H. bind_inv H. rename a into ranges.
  specialize (Hranges ranges E).
  unfold time_ranges in E. bind_inv E. rename a into starts.
  inversion E; subst ranges.
  unfold in_ranges in Hranges. rewrite Forall_forall in Hranges.
  assert (Hdepot : exists depot_window,
            nth_error (time_windows d) (depot d) = Some depot_window /\
            fst depot_window <= Cumul sol "Time" (Start m vehicle_id)).
  { unfold start_ranges in E0.
    destruct (num_vehicles d) as [|n] eqn:Hn; [lia|].
    bind_inv E0. rename a into depot_window. inversion E0; subst starts.
    exists depot_window. split.
    - unfold list_get in E1.
      destruct (nth_error (time_windows d) (depot d)); [|discriminate].
      inversion E1. reflexivity.
    - assert (Hposted : In (Start m vehicle_id, (fst depot_window, 1440))
                           (map (fun v => (Start m v, (fst depot_window, 1440)))
                              (seq 0 (S n)))).
      { apply in_map_iff. exists vehicle_id. split; [reflexivity|].
        apply in_seq. lia. }
      specialize (Hranges _ (in_or_app _ _ _ (or_intror Hposted))).
      cbn [fst snd] in Hranges. lia. }
  destruct Hdepot as (depot_window & Hdw & Hopen).
  assert (Hchain : exists elapsed,
            minutes_along d (depot d) (map (IndexToNode m) (before ++ [index]))
              = Ok elapsed /\
            Cumul sol "Time" (Start m vehicle_id) + elapsed
              <= Cumul sol "Time" index).
  { replace (Start m vehicle_id :: before ++ index :: after)
      with (Start m vehicle_id :: (before ++ [index]) ++ after) in Hch
      by (rewrite <- app_assoc; reflexivity).
    destruct (time_chain m d (Cumul sol "Time") e _ _ _ Hch)
      as (elapsed & Helapsed & Hle).
    rewrite (proj1 Hm) in Helapsed. rewrite last_last in Hle.
    exists elapsed. split; assumption. }
  destruct Hchain as (elapsed & Helapsed & Hle).
  exists e, before, index, after, depot_window, elapsed.
  split; [exact Hp|]. split.
  { rewrite <- Hnode. apply customers_split; [exact Hm|].
    rewrite Hnode. exact Hne. }
  split; [exact Hnode|]. split; [exact Hne|]. split.
  { pose proof (window_ranges_In m d (time_windows d) 0 stop earliest latest
                  Hwin Hne) as Hposted.
    specialize (Hranges _ (in_or_app _ _ _ (or_introl Hposted))).
    cbn [fst snd] in Hranges.
    rewrite Nat.add_0_l, <- Hnode, (proj2 Hm) in Hranges.
    - exact Hranges.
    - rewrite Hnode. assumption. }
  split; [exact Hdw|]. split; [exact Helapsed|]. lia.
Qed.

Lemma arrival_within_time_window_witness :
  exists e before index after depot_window elapsed,
    path 4 three_nodes one_tour (Start three_nodes 0)
      = Ok (Start three_nodes 0 :: before ++ index :: after, e) /\
    [1; 2]%nat = customers three_nodes two_customers before
                   ++ 2%nat :: customers three_nodes two_customers after /\
    IndexToNode three_nodes index = 2%nat /\
    2%nat <> depot two_customers /\
    0 <= Cumul one_tour "Time" index <= 480 /\
    nth_error (time_windows two_customers) (depot two_customers)
      = Some depot_window /\
    minutes_along two_customers (depot two_customers)
      (map (IndexToNode three_nodes) (before ++ [index])) = Ok elapsed /\
    fst depot_window + elapsed <= Cumul one_tour "Time" index.
Proof.
  apply (arrival_within_time_window 4 three_nodes two_customers one_tour
           [[1; 2]%nat] 0 [1; 2]%nat 2 0 480).
  - exact three_nodes_ok.
  - exact one_tour_feasible.
  - reflexivity.
  - reflexivity.
  - right. left. reflexivity.
  - reflexivity.
Defined.

End RouteClaims.

Section WeatherClaims.

Import Binary64 WeatherService.
Local Open Scope Q_scope.

(** The three states are told apart by their names. *)
Lemma states_distinct :
  Tempestade_Severa <> Chuva_Leve /\ Tempestade_Severa <> Ensolarado /\
  Chuva_Leve <> Ensolarado.
Proof. repeat split; discriminate. Qed.

(** The second threshold is the sum as the interpreter rounds it: with the
    floats 0.3 and 0.4, a draw of the float 0.7 is below the exact sum of the
    two and not below their sum in binary64, and the state is the sunny one. *)
Lemma rounded_threshold :
  let storm := fl (3 # 10) in
  let rain := fl (4 # 10) in
  let r := fl (7 # 10) in
  r < storm + rain /\ fl (storm + rain) == r /\
  forall sunny,
    get_current_weather
      {| storm_prob := storm; rain_prob := rain; sunny_prob := sunny |} r
    = Ensolarado.
Proof.
  cbv zeta. split; [vm_compute; reflexivity|].
  split; [vm_compute; reflexivity|]. intro sunny. vm_compute. reflexivity.
Qed.

(** C6.  For a value [r] of the random source, the draw is the severe storm
    exactly when [r < storm_prob], else the light rain exactly when
    [r < storm_prob + rain_prob], the sum being the one line 38 computes in
    binary64, else the sunny state; the three cases exclude one another and
    leave nothing out, and the multipliers are the floats 1.60, 1.25 and
    1.00. *)
Theorem draw_follows_cumulative_thresholds (self : WeatherService.t) (r : Q) :
  (get_current_weather self r = Tempestade_Severa <-> r < storm_prob self) /\
  (get_current_weather self r = Chuva_Leve <->
     storm_prob self <= r /\ r < fl (storm_prob self + rain_prob self)) /\
  (get_current_weather self r = Ensolarado <->
     storm_prob self <= r /\ fl (storm_prob self + rain_prob self) <= r) /\
  travel_time_factor Tempestade_Severa == fl (16 # 10) /\
  travel_time_factor Chuva_Leve == 125 # 100 /\
  travel_time_factor Ensolarado == 1.
Proof.
  destruct states_distinct as (Hsr & Hss & Hrs).
  assert (Hf : travel_time_factor Tempestade_Severa == fl (16 # 10))
    by (vm_compute; reflexivity).
  unfold get_current_weather.
  destruct (Qlt_le_dec r (storm_prob self)) as [Hs|Hs];
    [|destruct (Qlt_le_dec r (fl (storm_prob self + rain_prob self)))
        as [Hr|Hr]].
  - split; [tauto|]. split; [|split; [|split; [exact Hf|split; reflexivity]]].
    + split; [congruence|]. intros [H _]. exfalso. apply (Qlt_not_le _ _ Hs H).
    + split; [congruence|]. intros [H _]. exfalso. apply (Qlt_not_le _ _ Hs H).
  - split; [|split; [tauto|split; [|split; [exact Hf|split; reflexivity]]]].
    + split; [intro H; symmetry in H; contradiction|].
      intro H. exfalso. apply (Qlt_not_le _ _ H Hs).
    + split; [congruence|]. intros [_ H]. exfalso. apply (Qlt_not_le _ _ Hr H).
  - split; [|split; [|split; [tauto|split; [exact Hf|split; reflexivity]]]].
    + split; [intro H; symmetry in H; contradiction|].
      intro H. exfalso. apply (Qlt_not_le _ _ H Hs).
    + split; [intro H; symmetry in H; contradiction|].
      intros [_ H]. exfalso. apply (Qlt_not_le _ _ H Hr).
Qed.

(** The sum the guard looks at is the rounded one: the floats 0.5 and
    0.5000000000000001 add up to more than one, their sum in binary64 is one,
    and the service is constructed, with a sunny probability of zero. *)
Lemma rounded_sum_accepted :
  let storm := 1 # 2 in
  let rain := fl (5000000000000001 # 10000000000000000) in
  1 < storm + rain /\ fl (storm + rain) == 1 /\
  exists self, __init__ storm rain = Ok self /\ sunny_prob self == 0.
Proof.
  cbv zeta. split; [vm_compute; reflexivity|].
  split; [vm_compute; reflexivity|].
  eexists. split; [vm_compute; reflexivity|]. reflexivity.
Qed.

(** C7.  The constructor raises its error (Python's [ValueError], the
    configuration error of the specification) exactly when
    [storm_prob + rain_prob], the sum line 26 computes in binary64, exceeds
    1; otherwise it returns a service that holds the two probabilities as
    they were given. *)
Theorem init_rejects_sum_above_one (storm rain : Q) :
  ((exists msg, __init__ storm rain = Raise (ValueError msg))
     <-> 1 < fl (storm + rain)) /\
  (fl (storm + rain) <= 1 ->
   __init__ storm rain =
     Ok {| storm_prob := storm; rain_prob := rain;
           sunny_prob := fl (1 - fl (storm + rain)) |}).
Proof.
  pose proof (fl_one_minus (storm + rain)) as Hguard.
  unfold __init__.
  destruct (Qlt_le_dec (fl (1 - fl (storm + rain))) 0) as [Hneg|Hpos].
  - split.
    + split; [intros _; apply Hguard; exact Hneg|].
      intros _. eexists. reflexivity.
    + intro Hle. exfalso. apply Hguard in Hneg. lra.
  - split.
    + split; [intros [msg H]; discriminate|].
      intro H. exfalso. apply Hguard in H. lra.
    + intros _. reflexivity.
Qed.

End WeatherClaims.

Section LedgerClaims.

Import Binary64 WeatherService LogisticsSimulator Instances.
Local Open Scope Q_scope.

(** The value the code rounds: five eighths is not a number of hundredths. *)
Lemma round2_five_eighths : round2 (5 # 8) = 62 # 100.
Proof. reflexivity. Qed.

(** Replayed under a clear sky, the route the baseline builds on
    [long_service] is back at the depot at minute 90, ten minutes past the
    horizon, and pays for it. *)
Lemma long_service_replay_pays_overtime :
  exists final,
    run 6 (fun _ => 1 # 2) default_weather long_service [[1; 2]%nat]
      = Ok final /\
    now final == 90 /\ total_overtime_cost final == 25.
Proof.
  eexists. split; [vm_compute; reflexivity|]. split; reflexivity.
Qed.






End LedgerClaims.

(** * Further properties of the greedy baseline *)

Section GreedyCoverage.

Import Optimizer Instances.
Local Open Scope Z_scope.

Lemma remove_NoDup x l : NoDup l -> NoDup (remove Nat.eq_dec x l).
Proof.
  induction 1 as [|a l Hnot Hnd IH]; simpl; [constructor|].
  destruct (Nat.eq_dec x a); [assumption|].
  constructor; [|assumption]. intro Hin. apply in_remove in Hin. tauto.
Qed.

Lemma remove_Permutation x l :
  NoDup l -> In x l -> Permutation l (x :: remove Nat.eq_dec x l).
Proof.
  induction 1 as [|a l Hnot Hnd IH]; intro Hin; [destruct Hin|].
  simpl. destruct (Nat.eq_dec x a) as [->|Hne].
  - rewrite notin_remove by assumption. apply Permutation_refl.
  - destruct Hin as [Heq|Hin]; [congruence|].
    apply perm_trans with (a :: x :: remove Nat.eq_dec x l).
    + apply perm_skip, IH, Hin.
    + apply perm_swap.
Qed.

(** The inner loop moves customers from [unvisited] to the route, one at a
    time, and loses none. *)
Lemma route_loop_Permutation d vehicle_capacity fuel :
  forall v unvisited v' unvisited',
    NoDup unvisited ->
    route_loop fuel d vehicle_capacity v unvisited = Ok (v', unvisited') ->
    NoDup unvisited' /\
    Permutation (route v' ++ unvisited') (route v ++ unvisited).
Proof.
  induction fuel as [|fuel IH]; intros v unvisited v' unvisited' Hnd H;
    [discriminate|].
  simpl in H. bind_inv H. destruct a as [[nearest min_dist]|].
  - bind_inv H. apply scan_from_pick in E.
    destruct E as [Hbad|(Hin & _)]; [discriminate|].
    destruct (IH _ _ _ _ (remove_NoDup nearest _ Hnd) H) as [Hnd' Hperm].
    split; [assumption|]. eapply perm_trans; [exact Hperm|].
    cbn [route move]. rewrite <- app_assoc. apply Permutation_app_head.
    simpl. apply Permutation_sym, remove_Permutation; assumption.
  - inversion H; subst. split; [assumption|apply Permutation_refl].
Qed.

Lemma routes_loop_Permutation d fuel : forall routes unvisited res,
  NoDup unvisited ->
  routes_loop fuel d routes unvisited = Ok res ->
  Permutation (concat res) (concat routes ++ unvisited).
Proof.
  induction fuel as [|fuel IH]; intros routes unvisited res Hnd H;
    [discriminate|].
  destruct unvisited as [|x rest].
  - simpl in H. inversion H; subst. rewrite app_nil_r. apply Permutation_refl.
  - cbn [routes_loop] in H. bind_inv H. rename a into cap.
    bind_inv H. destruct a as [v unvisited'].
    destruct (route_loop_Permutation _ _ _ _ _ _ _ Hnd E0) as [Hnd' Hperm].
    eapply perm_trans; [apply (IH _ _ _ Hnd' H)|].
    rewrite concat_app. simpl. rewrite app_nil_r, <- app_assoc.
    apply Permutation_app_head. exact Hperm.
Qed.

(** Routes are only ever added. *)
Lemma routes_loop_grows d fuel : forall routes unvisited res,
  routes_loop fuel d routes unvisited = Ok res ->
  (length routes <= length res)%nat /\
  (unvisited <> [] -> (length routes < length res)%nat).
Proof.
  induction fuel as [|fuel IH]; intros routes unvisited res H; [discriminate|].
  destruct unvisited as [|x rest].
  - simpl in H. inversion H; subst. split; [lia|congruence].
  - cbn [routes_loop] in H. bind_inv H. bind_inv H. destruct a0 as [v unvisited'].
    destruct (IH _ _ _ H) as [Hle _]. rewrite length_app in Hle. simpl in Hle.
    split; [lia|intros _; lia].
Qed.

Lemma solve_greedy_Permutation d fuel routes :
  solve_greedy fuel d = Ok routes ->
  Permutation (concat routes) (seq 1 (length (time_matrix d) - 1)).
Proof.
  intro H. unfold solve_greedy in H.
  pose proof (seq_NoDup (length (time_matrix d) - 1) 1) as Hnd.
  pose proof (routes_loop_Permutation d fuel [] _ _ Hnd H) as Hperm.
  exact Hperm.
Qed.

(** X1.  When the baseline returns, its routes taken together hold every
    customer 1 .. n-1 exactly once, and nothing else. *)
Theorem solve_greedy_serves_each_customer_once d fuel routes :
  solve_greedy fuel d = Ok routes ->
  Permutation (concat routes) (seq 1 (length (time_matrix d) - 1)) /\
  NoDup (concat routes).
Proof.
  intro H. pose proof (solve_greedy_Permutation d fuel routes H) as Hperm.
  split; [exact Hperm|].
  apply Permutation_NoDup with (1 := Permutation_sym Hperm).
  apply seq_NoDup.
Qed.

Lemma solve_greedy_serves_each_customer_once_witness :
  Permutation (concat [[1; 2]%nat]) (seq 1 (length (time_matrix two_customers) - 1)) /\
  NoDup (concat [[1; 2]%nat]).
Proof.
  apply (solve_greedy_serves_each_customer_once two_customers 2 [[1; 2]%nat]).
  reflexivity.
Defined.

(** X2.  No route the baseline returns is empty, so it never returns more
    routes than there are customers. *)
Theorem solve_greedy_routes_not_empty d fuel routes :
  solve_greedy fuel d = Ok routes ->
  Forall (fun r => r <> []) routes /\
  (length routes <= length (time_matrix d) - 1)%nat.
Proof.
  intro H.
  assert (Hne : Forall (fun r : list nat => r <> []) routes).
  { unfold solve_greedy in H. destruct fuel as [|fuel]; [discriminate|].
    destruct (seq 1 (length (time_matrix d) - 1)) as [|x rest] eqn:Hseq.
    - simpl in H. inversion H; subst. constructor.
    - destruct (list_get (vehicle_capacities d) 0) as [cap|e|] eqn:Hcap;
        [|cbn [routes_loop] in H; rewrite Hcap in H; discriminate ..].
      refine (routes_loop_spec d cap Hcap _ _ (S fuel) [] (x :: rest) routes
                (Forall_nil _) H).
      intros v _ Hv. exact Hv. }
  split; [assumption|].
  pose proof (Permutation_length (solve_greedy_Permutation d fuel routes H))
    as Hlen.
  rewrite length_seq in Hlen. rewrite <- Hlen. clear -Hne.
  induction Hne as [|r routes Hr _ IH]; simpl; [lia|].
  rewrite length_app. destruct r; [congruence|]. simpl. lia.
Qed.

Lemma solve_greedy_routes_not_empty_witness :
  Forall (fun r : list nat => r <> []) [[1; 2]%nat] /\
  (length [[1; 2]%nat] <= length (time_matrix two_customers) - 1)%nat.
Proof.
  apply (solve_greedy_routes_not_empty two_customers 2 [[1; 2]%nat]).
  reflexivity.
Defined.

(** The running minimum only goes down, and ends below the travel time of
    every eligible candidate, in whatever order they come. *)
Lemma scan_from_lower_bound d vehicle_capacity v unvisited :
  forall best best' nearest min_dist,
    scan_from d vehicle_capacity v best unvisited = Ok best' ->
    best' = Some (nearest, min_dist) ->
    (forall c m, best = Some (c, m) -> min_dist <= m) /\
    (forall c dist,
       In c unvisited -> eligible d vehicle_capacity v c ->
       matrix_get (time_matrix d) (current_node v) c = Ok dist ->
       min_dist <= dist).
Proof.
  induction unvisited as [|x rest IH]; intros best best' nearest min_dist H Hb.
  - simpl in H. inversion H; subst best.
    split; [intros c m Hc; rewrite Hb in Hc; inversion Hc; lia|intros c dist []].
  - simpl in H. bind_inv H. rename a into mid.
    destruct (IH _ _ _ _ H Hb) as [Hmid Hrest].
    destruct (scan_candidate_cases _ _ _ _ _ _ E)
      as (dx & Hdx & [[-> Hk]|(-> & Hel & Hk)]).
    + split; [exact Hmid|]. intros c dist [<-|Hc] He Hd.
      * destruct (Hk He) as (c' & m' & -> & Hle).
        rewrite Hdx in Hd. inversion Hd; subst.
        specialize (Hmid c' m' eq_refl). lia.
      * apply (Hrest c dist Hc He Hd).
    + specialize (Hmid x dx eq_refl). split.
      * intros c m Hc. specialize (Hk c m Hc). lia.
      * intros c dist [<-|Hc] He Hd.
        -- rewrite Hdx in Hd. inversion Hd; subst. lia.
        -- apply (Hrest c dist Hc He Hd).
Qed.

(** X3.  In whatever order the set is enumerated, a scan that raises nothing
    ends with [nearest = None], which breaks the inner loop, exactly when no
    unvisited customer passes the two guards; otherwise it picks an unvisited
    customer that passes them, [min_dist] is its travel time from the current
    node, and no customer that passes them is nearer. *)
Theorem scan_in_any_order d vehicle_capacity v unvisited best :
  scan d vehicle_capacity v unvisited = Ok best ->
  (best = None <->
   forall c, In c unvisited -> ~ eligible d vehicle_capacity v c) /\
  (forall nearest min_dist,
     best = Some (nearest, min_dist) ->
     In nearest unvisited /\
     eligible d vehicle_capacity v nearest /\
     matrix_get (time_matrix d) (current_node v) nearest = Ok min_dist /\
     forall c dist,
       In c unvisited -> eligible d vehicle_capacity v c ->
       matrix_get (time_matrix d) (current_node v) c = Ok dist ->
       min_dist <= dist).
Proof.
  intro H. unfold scan in H. pose proof (scan_from_pick _ _ _ _ _ _ H) as Hpick.
  split.
  - destruct best as [[nearest min_dist]|].
    + destruct Hpick as [Hbad|(Hin & Hel & _)]; [discriminate|].
      split; [discriminate|]. intro Hno. exfalso. apply (Hno nearest Hin Hel).
    + destruct Hpick as [_ Hno]. split; [intros _; exact Hno|reflexivity].
  - intros nearest min_dist ->.
    destruct Hpick as [Hbad|(Hin & Hel & Hd)]; [discriminate|].
    split; [assumption|]. split; [assumption|]. split; [assumption|].
    apply (scan_from_lower_bound _ _ _ _ _ _ _ _ H eq_refl).
Qed.

Lemma scan_in_any_order_witness :
  (Some (2%nat, 10) = None <->
   forall c, In c [2; 1]%nat -> ~ eligible long_service 50 (fresh long_service) c) /\
  (forall nearest min_dist,
     Some (2%nat, 10) = Some (nearest, min_dist) ->
     In nearest [2; 1]%nat /\
     eligible long_service 50 (fresh long_service) nearest /\
     matrix_get (time_matrix long_service)
       (current_node (fresh long_service)) nearest = Ok min_dist /\
     forall c dist,
       In c [2; 1]%nat -> eligible long_service 50 (fresh long_service) c ->
       matrix_get (time_matrix long_service)
         (current_node (fresh long_service)) c = Ok dist ->
       min_dist <= dist).
Proof.
  apply (scan_in_any_order long_service 50 (fresh long_service) [2; 1]%nat
           (Some (2%nat, 10))).
  reflexivity.
Defined.

(** A customer who asks for more than the vehicle carries is never picked,
    whatever the load, as long as loads do not go negative. *)
Lemma route_loop_keeps_overloaded d vehicle_capacity c demand fuel :
  (forall i q, list_get (demands d) i = Ok q -> 0 <= q) ->
  list_get (demands d) c = Ok demand ->
  vehicle_capacity < demand ->
  forall v unvisited v' unvisited',
    0 <= current_load v ->
    In c unvisited ->
    route_loop fuel d vehicle_capacity v unvisited = Ok (v', unvisited') ->
    In c unvisited'.
Proof.
  intros Hpos Hc Hover.
  induction fuel as [|fuel IH]; intros v unvisited v' unvisited' Hload Hin H;
    [discriminate|].
  simpl in H. bind_inv H. destruct a as [[nearest min_dist]|].
  - bind_inv H. rename a into q. apply scan_from_pick in E.
    destruct E as [Hbad|(_ & Hel & _)]; [discriminate|].
    destruct Hel as (t & b & q' & _ & _ & Hq' & Hcap & _).
    rewrite E0 in Hq'. inversion Hq'; subst q'.
    apply (IH _ _ _ _) with (3 := H).
    + simpl. specialize (Hpos _ _ E0). lia.
    + apply in_in_remove; [|assumption].
      intros ->. rewrite Hc in E0. inversion E0; subst q. lia.
  - inversion H; subst. assumption.
Qed.

(** X4.  With non-negative demands, if some customer asks for more than
    [vehicle_capacities[0]], the baseline returns no route list, whatever the
    other customers and the number of passes: that customer is never taken off
    the unvisited set. *)
Theorem solve_greedy_overloaded_customer_blocks d vehicle_capacity c demand :
  (forall i q, list_get (demands d) i = Ok q -> 0 <= q) ->
  list_get (vehicle_capacities d) 0 = Ok vehicle_capacity ->
  In c (seq 1 (length (time_matrix d) - 1)) ->
  list_get (demands d) c = Ok demand ->
  vehicle_capacity < demand ->
  forall fuel routes, solve_greedy fuel d <> Ok routes.
Proof.
  intros Hpos Hcap Hc Hd Hover fuel. unfold solve_greedy.
  generalize (@nil (list nat)).
  revert Hc. generalize (seq 1 (length (time_matrix d) - 1)).
  induction fuel as [|fuel IH]; intros unvisited Hc acc routes H;
    [discriminate|].
  destruct unvisited as [|x rest]; [destruct Hc|].
  cbn [routes_loop] in H. rewrite Hcap in H. cbn [bind] in H.
  bind_inv H. destruct a as [v unvisited'].
  apply (IH unvisited') with (2 := H).
  apply (route_loop_keeps_overloaded d vehicle_capacity c demand _ Hpos Hd Hover
           (fresh d) _ _ _ (Z.le_refl 0) Hc E).
Qed.

Lemma solve_greedy_overloaded_customer_blocks_witness :
  solve_greedy 3 overloaded <> Ok [[1%nat]].
Proof.
  apply (solve_greedy_overloaded_customer_blocks overloaded 50 1%nat 100).
  - intros i q H. destruct i as [|[|[|i]]]; inversion H; lia.
  - reflexivity.
  - left. reflexivity.
  - reflexivity.
  - reflexivity.
Defined.

Lemma two_customers_well_formed : well_formed two_customers.
Proof.
  split; [simpl; lia|]. split.
  - intros i j Hi Hj. simpl in Hi, Hj.
    destruct i as [|[|[|i]]]; [| | |lia];
      (destruct j as [|[|[|j]]]; [| | |lia]); eexists; reflexivity.
  - intros i Hi. simpl in Hi.
    destruct i as [|[|[|i]]]; [| | |lia]; eexists; reflexivity.
Qed.

(** X5.  On a square matrix with a demand for every node, if every customer
    passes the two guards on a route just opened, the baseline returns within
    as many passes of the outer loop as there are nodes, and its routes serve
    every customer. *)
Theorem solve_greedy_returns_when_all_fit d vehicle_capacity :
  well_formed d ->
  list_get (vehicle_capacities d) 0 = Ok vehicle_capacity ->
  (forall c, In c (seq 1 (length (time_matrix d) - 1)) ->
     eligible d vehicle_capacity (fresh d) c) ->
  exists routes,
    solve_greedy (length (time_matrix d)) d = Ok routes /\
    Permutation (concat routes) (seq 1 (length (time_matrix d) - 1)).
Proof.
  intros Hwf Hcap Hall.
  destruct (solve_greedy_returns d vehicle_capacity Hwf Hcap Hall)
    as (routes & H).
  exists routes. split; [exact H|].
  apply (solve_greedy_Permutation d _ routes H).
Qed.

Lemma solve_greedy_returns_when_all_fit_witness :
  exists routes,
    solve_greedy (length (time_matrix two_customers)) two_customers = Ok routes /\
    Permutation (concat routes) (seq 1 (length (time_matrix two_customers) - 1)).
Proof.
  apply (solve_greedy_returns_when_all_fit two_customers 50).
  - exact two_customers_well_formed.
  - reflexivity.
  - intros c [<-|[<-|[]]].
    + exists 10, 10, 5. repeat split; simpl; lia.
    + exists 20, 20, 5. repeat split; simpl; lia.
Defined.

(** X6.  What the guard of line 158 does give: for every returned route, the
    travel time of its legs, ten minutes for each stop but the last, the
    configured service time once and the travel time back to the depot add
    up to at most [max_time_minutes].  Hence, with a configured service time
    of at most ten minutes, the route with that service time at every stop is
    back at the depot within [max_time_minutes]. *)
Theorem solve_greedy_guarded_duration d fuel routes r :
  solve_greedy fuel d = Ok routes ->
  In r routes ->
  exists travel back,
    route_travel d (depot d) r = Ok travel /\
    matrix_get (time_matrix d) (last r (depot d)) (depot d) = Ok back /\
    travel + 10 * (Z.of_nat (length r) - 1) + get (service_time d) 10 + back
      <= get (max_time_minutes d) 480 /\
    (get (service_time d) 10 <= 10 ->
     travel + get (service_time d) 10 * Z.of_nat (length r) + back
       <= get (max_time_minutes d) 480).
Proof.
  intros H Hr. unfold solve_greedy in H.
  destruct fuel as [|fuel]; [discriminate|].
  destruct (seq 1 (length (time_matrix d) - 1)) as [|x rest] eqn:Hseq.
  - simpl in H. inversion H; subst. destruct Hr.
  - destruct (list_get (vehicle_capacities d) 0) as [cap|e|] eqn:Hcap;
      [|cbn [routes_loop] in H; rewrite Hcap in H; discriminate ..].
    assert (Hall : Forall (fun r => exists travel back,
              route_travel d (depot d) r = Ok travel /\
              matrix_get (time_matrix d) (last r (depot d)) (depot d) = Ok back /\
              travel + 10 * (Z.of_nat (length r) - 1)
                + get (service_time d) 10 + back
                <= get (max_time_minutes d) 480 /\
              (get (service_time d) 10 <= 10 ->
               travel + get (service_time d) 10 * Z.of_nat (length r) + back
                 <= get (max_time_minutes d) 480)) routes).
    { refine (routes_loop_spec d cap Hcap _ _ (S fuel) [] (x :: rest) routes
                (Forall_nil _) H).
      intros v (_ & Hnode & (travel & Htravel & Hclock) & Hlast) Hne.
      destruct (Hlast Hne) as (_ & back & Hback & Hle).
      exists travel, back. rewrite <- Hnode.
      split; [assumption|]. split; [assumption|].
      assert (0 < Z.of_nat (length (route v))).
      { destruct (route v); [congruence|simpl; lia]. }
      split; [lia|]. intro Hs. nia. }
    rewrite Forall_forall in Hall. apply Hall. assumption.
Qed.

Lemma solve_greedy_guarded_duration_witness :
  exists travel back,
    route_travel long_service (depot long_service) [1; 2]%nat = Ok travel /\
    matrix_get (time_matrix long_service)
      (last [1; 2]%nat (depot long_service)) (depot long_service) = Ok back /\
    travel + 10 * (Z.of_nat (length [1; 2]%nat) - 1)
      + get (service_time long_service) 10 + back
      <= get (max_time_minutes long_service) 480 /\
    (get (service_time long_service) 10 <= 10 ->
     travel + get (service_time long_service) 10
              * Z.of_nat (length [1; 2]%nat) + back
       <= get (max_time_minutes long_service) 480).
Proof.
  apply (solve_greedy_guarded_duration long_service 2 [[1; 2]%nat] [1; 2]%nat).
  - reflexivity.
  - left. reflexivity.
Defined.

(** X7.  The baseline returns the empty list exactly when the matrix has no
    customer row (at most one node) and the outer loop is entered at all. *)
Theorem solve_greedy_empty_iff_no_customer d fuel :
  solve_greedy fuel d = Ok [] <->
  (fuel <> O /\ (length (time_matrix d) <= 1)%nat).
Proof.
  unfold solve_greedy. split.
  - intro H. destruct fuel as [|fuel]; [discriminate|].
    split; [discriminate|].
    destruct (routes_loop_grows d (S fuel) [] _ [] H) as [_ Hlt].
    destruct (length (time_matrix d)) as [|[|n]]; [lia|lia|].
    exfalso. simpl in Hlt. specialize (Hlt ltac:(discriminate)). lia.
  - intros [Hf Hn]. destruct fuel as [|fuel]; [congruence|].
    replace (length (time_matrix d) - 1)%nat with O by lia. reflexivity.
Qed.

End GreedyCoverage.

(** * Further properties of route extraction *)

Section Extraction.

Import Optimizer Instances.
Local Open Scope Z_scope.

Variable m : RoutingModel.
Variable d : DataModel.

(** A walk only appends nodes that are not the depot. *)
Lemma walk_appends sol fuel : forall index route r,
  walk fuel m d sol index route = Ok r ->
  exists more, r = route ++ more /\ ~ In (depot d) more.
Proof.
  induction fuel as [|fuel IH]; intros index route r H; [discriminate|].
  simpl in H. destruct (IsEnd m index).
  - inversion H; subst. exists []. rewrite app_nil_r. split; [reflexivity|].
    intros [].
  - destruct (Nat.eqb_spec (IndexToNode m index) (depot d)) as [Heq|Hne].
    + apply (IH _ _ _ H).
    + destruct (IH _ _ _ H) as (more & -> & Hnot).
      exists (IndexToNode m index :: more). rewrite <- app_assoc.
      split; [reflexivity|]. intros [Hd|Hd]; [congruence|contradiction].
Qed.

Lemma walk_vehicles_shape sol fuel : forall vehicles routes,
  walk_vehicles fuel m d sol vehicles = Ok routes ->
  length routes = length vehicles /\
  Forall (fun r => ~ In (depot d) r) routes.
Proof.
  induction vehicles as [|v rest IH]; intros routes H; simpl in H.
  - inversion H; subst. split; [reflexivity|constructor].
  - bind_inv H. bind_inv H. inversion H; subst.
    destruct (IH _ E0) as [Hlen Hall]. split; [simpl; congruence|].
    constructor; [|assumption].
    destruct (walk_appends _ _ _ _ _ E) as (more & -> & Hnot). exact Hnot.
Qed.

(** X8.  What [solve] returns has the shape the simulator expects: no routes
    at all when the solver found no assignment, otherwise one route for each
    of the [num_vehicles] vehicles, in the order of the vehicles; and the
    depot is on none of them. *)
Theorem solve_returns_one_route_per_vehicle fuel solution routes :
  solve fuel m d solution = Ok routes ->
  length routes = match solution with
                  | Some _ => num_vehicles d
                  | None => O
                  end /\
  Forall (fun r => ~ In (depot d) r) routes.
Proof.
  unfold solve. intro H. bind_inv H. destruct solution as [sol|]; simpl in H.
  - destruct (walk_vehicles_shape _ _ _ _ H) as [Hlen Hall].
    rewrite length_seq in Hlen. split; assumption.
  - inversion H; subst. split; [reflexivity|constructor].
Qed.

End Extraction.

Lemma solve_returns_one_route_per_vehicle_witness :
  length [[1; 2]%nat] = num_vehicles Instances.two_customers /\
  Forall (fun r => ~ In (depot Instances.two_customers) r) [[1; 2]%nat].
Proof.
  apply (solve_returns_one_route_per_vehicle Instances.three_nodes
           Instances.two_customers 4 (Some Instances.one_tour) [[1; 2]%nat]).
  reflexivity.
Defined.

(** * Further properties of the weather service *)

Section WeatherFacts.

Import Binary64 WeatherService.
Local Open Scope Q_scope.

(** Every state of the table slows travel down or leaves it as it is. *)
Lemma factor_bounds self r :
  1 <= travel_time_factor (get_current_weather self r) /\
  travel_time_factor (get_current_weather self r) <= fl (16 # 10).
Proof.
  unfold get_current_weather.
  destruct (Qlt_le_dec r (storm_prob self));
    [|destruct (Qlt_le_dec r (fl (storm_prob self + rain_prob self)))];
    split; vm_compute; discriminate.
Qed.

End WeatherFacts.

(** * Further properties of the simulator *)

Section Replaying.

Import WeatherService LogisticsSimulator Replay Instances.
Local Open Scope Q_scope.

Variable random : nat -> Q.
Variable w : WeatherService.t.
Variable d : DataModel.

(** *** The queue *)

Lemma pop_None q : pop q = None -> q = [].
Proof.
  destruct q as [|x q]; [reflexivity|]. simpl.
  destruct (pop q) as [[e' rest']|]; [|discriminate].
  destruct (Qlt_le_dec (time e') (time x)); discriminate.
Qed.

Lemma pop_Permutation q : forall e rest,
  pop q = Some (e, rest) -> Permutation q (e :: rest).
Proof.
  induction q as [|x q IH]; intros e rest H; simpl in H; [discriminate|].
  destruct (pop q) as [[e' rest']|] eqn:Hq.
  - specialize (IH _ _ eq_refl).
    destruct (Qlt_le_dec (time e') (time x)); inversion H; subst.
    + apply perm_trans with (x :: e :: rest'); [apply perm_skip, IH|].
      apply perm_swap.
    + apply Permutation_refl.
  - inversion H; subst. apply pop_None in Hq. subst q. apply Permutation_refl.
Qed.

(** The timeout fired is the earliest one pending. *)
Lemma pop_min q : forall e rest,
  pop q = Some (e, rest) -> Forall (fun x => time e <= time x) rest.
Proof.
  induction q as [|x q IH]; intros e rest H; simpl in H; [discriminate|].
  destruct (pop q) as [[e' rest']|] eqn:Hq.
  - pose proof (IH _ _ eq_refl) as Hmin.
    pose proof (pop_Permutation _ _ _ Hq) as Hperm.
    destruct (Qlt_le_dec (time e') (time x)) as [Hlt|Hle]; inversion H; subst.
    + constructor; [apply Qlt_le_weak; assumption|assumption].
    + apply Permutation_Forall with (1 := Permutation_sym Hperm).
      constructor; [assumption|].
      rewrite Forall_forall in *. intros y Hy.
      apply Qle_trans with (time e'); [assumption|apply Hmin, Hy].
  - inversion H; subst. apply pop_None in Hq. subst q. constructor.
Qed.

Lemma tally_cons f e q :
  tally f (e :: q) = (f (at_yield e) + tally f q)%nat.
Proof. reflexivity. Qed.

Lemma tally_app f q e : tally f (q ++ [e]) = (tally f q + f (at_yield e))%nat.
Proof. unfold tally. rewrite map_app, list_sum_app. simpl. lia. Qed.

Lemma tally_Permutation f q q' :
  Permutation q q' -> tally f q = tally f q'.
Proof.
  unfold tally. induction 1; simpl; try lia.
Qed.

(** *** One resumption, spelled out *)

Lemma timeout_inv s delay vehicle k s' :
  timeout s delay vehicle k = Ok s' ->
  0 <= delay /\
  s' = {| now := now s;
          queue := queue s ++ [{| time := now s + delay;
                                  vehicle_id := vehicle; at_yield := k |}];
          draws := draws s; logs := logs s;
          total_overtime_cost := total_overtime_cost s |}.
Proof.
  unfold timeout. destruct (Qlt_le_dec delay 0) as [|Hle]; [discriminate|].
  intro H. inversion H; subst. split; [assumption|reflexivity].
Qed.

Lemma depart_inv s vehicle current_node route s' :
  depart random w d s vehicle current_node route = Ok s' ->
  exists base weather,
    matrix_get (time_matrix d) current_node
      match route with next_node :: _ => next_node | [] => depot d end
      = Ok base /\
    weather = get_current_weather w (random (draws s)) /\
    0 <= inject_Z base * travel_time_factor weather /\
    s' = {| now := now s;
            queue := queue s ++
              [{| time := now s + inject_Z base * travel_time_factor weather;
                  vehicle_id := vehicle;
                  at_yield :=
                    match route with
                    | next_node :: rest =>
                        Traveling current_node next_node rest weather base
                          (inject_Z base * travel_time_factor weather)
                    | [] =>
                        Returning current_node weather base
                          (inject_Z base * travel_time_factor weather)
                    end |}];
            draws := S (draws s); logs := logs s;
            total_overtime_cost := total_overtime_cost s |}.
Proof.
  unfold depart. intro H. bind_inv H. rename a into base.
  apply timeout_inv in H. destruct H as [Hpos ->]. simpl.
  exists base, (get_current_weather w (random (draws s))).
  repeat split; assumption.
Qed.

Lemma step_inv s s' :
  step random w d s = Ok (Some s') ->
  exists e rest,
    pop (queue s) = Some (e, rest) /\
    resume random w d
      {| now := time e; queue := rest; draws := draws s; logs := logs s;
         total_overtime_cost := total_overtime_cost s |}
      (vehicle_id e) (at_yield e) = Ok s'.
Proof.
  unfold step. destruct (pop (queue s)) as [[e rest]|]; [|discriminate].
  intro H. bind_inv H. inversion H; subst. exists e, rest.
  split; [reflexivity|assumption].
Qed.

Lemma charge_fields s bound row :
  now (charge s bound row) = now s /\
  queue (charge s bound row) = queue s /\
  draws (charge s bound row) = draws s /\
  exists cost, logs (charge s bound row) = logs s ++ [row cost] /\ 0 <= cost.
Proof.
  unfold charge. destruct (Qlt_le_dec (inject_Z bound) (now s)) as [Hlt|Hle];
    simpl; repeat split; eexists; (split; [reflexivity|]).
  - apply round2_nonneg. apply Qmult_le_0_compat; [lra|discriminate].
  - apply Qle_refl.
Qed.

(** A run that returns has fired every timeout, and keeps what every turn
    keeps. *)
Lemma run_events_invariant (P : Sim -> Prop) :
  (forall s s', P s -> step random w d s = Ok (Some s') -> P s') ->
  forall fuel s final,
    P s -> run_events fuel random w d s = Ok final ->
    P final /\ queue final = [].
Proof.
  intro Hstep. induction fuel as [|fuel IH]; intros s final Hs H;
    [discriminate|].
  simpl in H. bind_inv H. destruct a as [s1|].
  - apply (IH s1 final); [apply (Hstep s s1 Hs E)|assumption].
  - inversion H; subst. split; [assumption|].
    unfold step in E. destruct (pop (queue final)) as [[e rest]|] eqn:Hpop.
    + bind_inv E. discriminate.
    + apply pop_None. assumption.
Qed.

(** *** Rows and draws *)

Lemma resume_counts s vehicle k s' :
  resume random w d s vehicle k = Ok s' ->
  (length (logs s') + tally legs (queue s')
     = length (logs s) + tally legs (queue s) + legs k)%nat /\
  (draws s' + in_transit k
     = draws s + (length (logs s') - length (logs s))
       + (tally in_transit (queue s') - tally in_transit (queue s)))%nat /\
  (length (logs s) <= length (logs s'))%nat /\
  (tally in_transit (queue s) <= tally in_transit (queue s'))%nat.
Proof.
  destruct k as [cur next rest weather base actual|next rest|cur weather base actual];
    simpl; intro H.
  - bind_inv H. apply timeout_inv in H. destruct H as [_ ->]. simpl.
    destruct (charge_fields s (snd a)
                (arrival_event vehicle cur next weather base actual (now s)))
      as (_ & -> & -> & cost & -> & _).
    rewrite !tally_app, length_app. simpl. lia.
  - apply depart_inv in H.
    destruct H as (base & weather & _ & _ & _ & ->). simpl.
    rewrite !tally_app. destruct rest; simpl; lia.
  - inversion H; subst.
    destruct (charge_fields s (get (max_time_minutes d) 480%Z)
                (arrival_event vehicle cur (depot d) weather base actual (now s)))
      as (_ & -> & -> & cost & -> & _).
    rewrite length_app. simpl. lia.
Qed.

Lemma step_counts s s' :
  step random w d s = Ok (Some s') ->
  (length (logs s') + tally legs (queue s')
     = length (logs s) + tally legs (queue s))%nat /\
  (draws s = length (logs s) + tally in_transit (queue s) ->
   draws s' = length (logs s') + tally in_transit (queue s'))%nat.
Proof.
  intro H. destruct (step_inv _ _ H) as (e & rest & Hpop & Hres).
  apply pop_Permutation in Hpop.
  rewrite (tally_Permutation legs _ _ Hpop),
    (tally_Permutation in_transit _ _ Hpop).
  apply resume_counts in Hres. simpl in Hres.
  rewrite !tally_cons. lia.
Qed.

Lemma planned_legs_cons r routes :
  planned_legs (r :: routes)
  = (match r with [] => O | _ :: _ => S (length r) end + planned_legs routes)%nat.
Proof. reflexivity. Qed.

Lemma planned_timeouts_cons r routes :
  planned_timeouts (r :: routes)
  = (match r with [] => O | _ :: _ => 2 * length r + 1 end
     + planned_timeouts routes)%nat.
Proof. reflexivity. Qed.

Lemma start_counts routes : forall s i s',
  start random w d s i routes = Ok s' ->
  logs s' = logs s /\
  (tally legs (queue s') = tally legs (queue s) + planned_legs routes)%nat /\
  (draws s' + tally in_transit (queue s)
     = draws s + tally in_transit (queue s'))%nat /\
  (tally pending (queue s')
     = tally pending (queue s) + planned_timeouts routes)%nat.
Proof.
  induction routes as [|route rest IH]; intros s i s' H; simpl in H.
  - inversion H; subst. unfold planned_legs, planned_timeouts. simpl.
    repeat split; lia.
  - bind_inv H. destruct (IH _ _ _ H) as (-> & Hl & Hd & Hp).
    rewrite planned_legs_cons, planned_timeouts_cons.
    destruct route as [|stop route].
    + inversion E; subst. repeat split; try reflexivity; lia.
    + apply depart_inv in E.
      destruct E as (base & weather & _ & _ & _ & ->).
      cbn [queue draws logs] in *. rewrite !tally_app in *.
      cbn [at_yield legs in_transit pending length] in *.
      repeat split; try reflexivity; lia.
Qed.

Lemma run_logs_one_row_per_leg_aux fuel routes final :
  run fuel random w d routes = Ok final ->
  length (logs final) = planned_legs routes /\
  draws final = planned_legs routes /\
  queue final = [].
Proof.
  unfold run. intro H. bind_inv H. rename a into s.
  destruct (start_counts _ _ _ _ E) as (Hlogs & Hlegs & Hdraws & _).
  change (logs init) with (@nil Event) in Hlogs.
  change (tally legs (queue init)) with O in Hlegs.
  change (tally in_transit (queue init)) with O in Hdraws.
  change (draws init) with O in Hdraws.
  destruct (run_events_invariant
              (fun s' =>
                 (length (logs s') + tally legs (queue s') = planned_legs routes
                  /\ draws s' = length (logs s') + tally in_transit (queue s'))%nat)
              ) with (fuel := fuel) (s := s) (final := final)
    as ((Hrows & Hd) & Hq).
  - intros s1 s2 [H1 H2] Hstep. destruct (step_counts _ _ Hstep) as [Hc Hdr].
    split; [lia|apply Hdr, H2].
  - rewrite Hlogs. cbn [length]. lia.
  - assumption.
  - rewrite Hq in Hrows, Hd.
    change (tally legs []) with O in Hrows.
    change (tally in_transit []) with O in Hd.
    repeat split; try assumption; lia.
Qed.

(** X11.  A run that returns has appended one row and drawn the weather once
    for every leg of the plan: one leg to each stop of each route that is not
    empty, and one back to the depot. *)
Theorem run_logs_one_row_per_leg fuel routes final :
  run fuel random w d routes = Ok final ->
  length (logs final) = planned_legs routes /\
  draws final = planned_legs routes /\
  queue final = [].
Proof.
  apply run_logs_one_row_per_leg_aux.
Qed.


(** *** What the rows hold *)

Lemma slowed_bounds base f :
  1 <= f -> 0 <= inject_Z base * f ->
  (0 <= base)%Z /\ inject_Z base <= inject_Z base * f.
Proof.
  intros Hf Hpos.
  assert (Hbase : 0 <= inject_Z base).
  { destruct (Qlt_le_dec (inject_Z base) 0) as [Hneg|Hok]; [|assumption].
    exfalso. assert (0 < - inject_Z base * f) by (apply Qmult_lt_0_compat; lra).
    lra. }
  split; [rewrite Zle_Qle; exact Hbase|].
  pose proof (Qmult_le_compat_r 1 f (inject_Z base) Hf Hbase). lra.
Qed.

Lemma arrival_event_ok vehicle current_node to weather base actual clock cost :
  (0 <= base)%Z -> inject_Z base <= actual -> 0 <= cost ->
  row_ok (arrival_event vehicle current_node to weather base actual clock cost).
Proof.
  intros Hb Ha Hc. unfold row_ok, arrival_event. simpl.
  split; [assumption|]. split; [|split; [|assumption]].
  - apply Qle_trans with (round2 (inject_Z base)).
    + rewrite round2_Z. apply Qle_refl.
    + apply round2_mono. assumption.
  - apply round2_nonneg. lra.
Qed.

Lemma resume_rows s vehicle k s' :
  Forall row_ok (logs s) ->
  Forall (fun e => sound (at_yield e)) (queue s) ->
  sound k ->
  resume random w d s vehicle k = Ok s' ->
  Forall row_ok (logs s') /\ Forall (fun e => sound (at_yield e)) (queue s').
Proof.
  intros Hlogs Hq Hk.
  destruct k as [cur next rest weather base actual|next rest|cur weather base actual];
    simpl; intro H.
  - bind_inv H. apply timeout_inv in H. destruct H as [_ ->]. simpl.
    destruct (charge_fields s (snd a)
                (arrival_event vehicle cur next weather base actual (now s)))
      as (_ & -> & _ & cost & -> & Hcost).
    destruct Hk as [Hb Ha]. split.
    + apply Forall_app. split; [assumption|]. constructor; [|constructor].
      apply arrival_event_ok; assumption.
    + apply Forall_app. split; [assumption|]. constructor; [exact I|constructor].
  - apply depart_inv in H.
    destruct H as (base & weather & _ & -> & Hpos & ->). simpl.
    split; [assumption|]. apply Forall_app. split; [assumption|].
    constructor; [|constructor]. simpl.
    destruct (factor_bounds w (random (draws s))) as [Hlo _].
    destruct rest; simpl; apply slowed_bounds; assumption.
  - inversion H; subst.
    destruct (charge_fields s (get (max_time_minutes d) 480%Z)
                (arrival_event vehicle cur (depot d) weather base actual (now s)))
      as (_ & -> & _ & cost & -> & Hcost).
    destruct Hk as [Hb Ha]. split; [|assumption].
    apply Forall_app. split; [assumption|]. constructor; [|constructor].
    apply arrival_event_ok; assumption.
Qed.

Lemma start_rows routes : forall s i s',
  Forall (fun e => sound (at_yield e)) (queue s) ->
  start random w d s i routes = Ok s' ->
  Forall (fun e => sound (at_yield e)) (queue s').
Proof.
  induction routes as [|route rest IH]; intros s i s' Hq H; simpl in H.
  - inversion H; subst. assumption.
  - bind_inv H. apply (IH _ _ _) with (2 := H).
    destruct route as [|stop route]; [inversion E; subst; assumption|].
    apply depart_inv in E. destruct E as (base & weather & _ & -> & Hpos & ->).
    simpl. apply Forall_app. split; [assumption|]. constructor; [|constructor].
    simpl. destruct (factor_bounds w (random (draws s))) as [Hlo _].
    apply slowed_bounds; assumption.
Qed.

(** X12.  In the log of a run that returns, no row has a negative base time,
    a realized time below its base time, a negative delay or a negative
    overtime cost. *)
Theorem run_logs_sane_rows fuel routes final :
  run fuel random w d routes = Ok final ->
  Forall row_ok (logs final).
Proof.
  unfold run. intro H. bind_inv H. rename a into s.
  pose proof (start_rows routes init 0%nat s (Forall_nil _) E) as Hq.
  destruct (start_counts _ _ _ _ E) as (Hlogs & _).
  destruct (run_events_invariant
              (fun s' => Forall row_ok (logs s') /\
                         Forall (fun e => sound (at_yield e)) (queue s')))
    with (fuel := fuel) (s := s) (final := final) as ((Hrows & _) & _).
  - intros s1 s2 [H1 H2] Hstep.
    destruct (step_inv _ _ Hstep) as (e & rest & Hpop & Hres).
    apply pop_Permutation in Hpop.
    apply (Permutation_Forall Hpop) in H2. inversion H2; subst.
    apply (resume_rows _ _ _ _) with (4 := Hres); assumption.
  - rewrite Hlogs. split; [constructor|assumption].
  - assumption.
  - assumption.
Qed.

(** *** The order of the rows *)

Lemma StronglySorted_snoc (A : Type) (R : A -> A -> Prop) l x :
  StronglySorted R l -> Forall (fun a => R a x) l ->
  StronglySorted R (l ++ [x]).
Proof.
  induction 1 as [|a l Hs IH Ha]; intro Hx; simpl.
  - constructor; constructor.
  - inversion Hx; subst. constructor; [apply IH; assumption|].
    apply Forall_app. split; [assumption|]. constructor; [assumption|constructor].
Qed.

Lemma charge_in_order s bound vehicle current_node to weather base actual :
  in_order s ->
  in_order (charge s bound
              (arrival_event vehicle current_node to weather base actual (now s))).
Proof.
  intros (Hs & Hlogs & Hq).
  destruct (charge_fields s bound
              (arrival_event vehicle current_node to weather base actual (now s)))
    as (Hnow & Hqueue & _ & cost & Hl & _).
  unfold in_order. rewrite Hnow, Hqueue, Hl. split; [|split; [|assumption]].
  - apply StronglySorted_snoc; assumption.
  - apply Forall_app. split; [assumption|]. constructor; [|constructor].
    simpl. apply Qle_refl.
Qed.

Lemma resume_in_order s vehicle k s' :
  in_order s -> resume random w d s vehicle k = Ok s' -> in_order s'.
Proof.
  intro Hs.
  destruct k as [cur next rest weather base actual|next rest|cur weather base actual];
    simpl; intro H.
  - bind_inv H. apply timeout_inv in H. destruct H as [Hpos ->].
    pose proof (charge_in_order s (snd a) vehicle cur next weather base actual Hs)
      as (H1 & H2 & H3).
    unfold in_order. simpl. split; [assumption|]. split; [assumption|].
    apply Forall_app. split; [assumption|]. constructor; [|constructor].
    simpl. lra.
  - apply depart_inv in H.
    destruct H as (base & weather & _ & _ & Hpos & ->).
    destruct Hs as (H1 & H2 & H3). unfold in_order. simpl.
    split; [assumption|]. split; [assumption|].
    apply Forall_app. split; [assumption|]. constructor; [|constructor].
    simpl. lra.
  - inversion H; subst. apply charge_in_order. assumption.
Qed.

Lemma step_in_order s s' :
  in_order s -> step random w d s = Ok (Some s') -> in_order s'.
Proof.
  intros (H1 & H2 & H3) Hstep.
  destruct (step_inv _ _ Hstep) as (e & rest & Hpop & Hres).
  pose proof (pop_min _ _ _ Hpop) as Hmin.
  apply pop_Permutation in Hpop.
  apply (Permutation_Forall Hpop) in H3. inversion H3 as [|? ? He Hrest]; subst.
  apply (resume_in_order _ _ _ _) with (2 := Hres).
  unfold in_order. simpl. split; [assumption|]. split; [|assumption].
  rewrite Forall_forall in *. intros x Hx.
  apply Qle_trans with (round2 (now s)); [apply H2, Hx|].
  apply round2_mono. assumption.
Qed.

Lemma start_in_order routes : forall s i s',
  in_order s -> start random w d s i routes = Ok s' -> in_order s'.
Proof.
  induction routes as [|route rest IH]; intros s i s' Hs H; simpl in H.
  - inversion H; subst. assumption.
  - bind_inv H. apply (IH _ _ _) with (2 := H).
    destruct route as [|stop route]; [inversion E; subst; assumption|].
    apply depart_inv in E. destruct E as (base & weather & _ & _ & Hpos & ->).
    destruct Hs as (H1 & H2 & H3). unfold in_order. simpl.
    split; [assumption|]. split; [assumption|].
    apply Forall_app. split; [assumption|]. constructor; [|constructor].
    simpl. lra.
Qed.

(** X13.  The log of a run that returns is in time order across all
    vehicles: the arrival clock of a row is never below that of a row
    before it. *)
Theorem run_logs_in_time_order fuel routes final :
  run fuel random w d routes = Ok final ->
  StronglySorted (fun a b => Hora_Chegada a <= Hora_Chegada b) (logs final).
Proof.
  unfold run. intro H. bind_inv H. rename a into s.
  assert (H0 : in_order init).
  { unfold in_order, init. simpl. repeat split; constructor. }
  pose proof (start_in_order routes init 0%nat s H0 E) as Hs.
  destruct (run_events_invariant in_order step_in_order fuel s final Hs H)
    as ((Hsorted & _) & _).
  exact Hsorted.
Qed.

(** *** Edge cases and termination *)

(** X15.  A route set with no route, or with empty routes only, starts no
    vehicle: the run returns at once with an empty log, a zero ledger and no
    weather drawn. *)
Theorem run_without_stops_does_nothing fuel routes :
  Forall (fun r => r = []) routes ->
  run (S fuel) random w d routes = Ok init.
Proof.
  intro Hall. unfold run.
  assert (Hstart : forall i, start random w d init i routes = Ok init).
  { induction Hall as [|r routes -> _ IH]; intro i; simpl; [reflexivity|].
    apply IH. }
  rewrite Hstart. reflexivity.
Qed.

Lemma work_tally q : work q = tally pending q.
Proof.
  induction q as [|e q IH]; [reflexivity|].
  rewrite tally_cons, <- IH. reflexivity.
Qed.

Lemma depart_fuel s vehicle current_node route :
  depart random w d s vehicle current_node route <> OutOfFuel.
Proof.
  unfold depart.
  destruct (matrix_get _ _ _) as [t|e|] eqn:E; simpl;
    [|discriminate|exfalso; apply (matrix_get_fuel _ _ _ E)].
  unfold timeout. destruct (Qlt_le_dec _ _); discriminate.
Qed.

Lemma start_fuel routes : forall s i,
  start random w d s i routes <> OutOfFuel.
Proof.
  induction routes as [|route rest IH]; intros s i; simpl; [discriminate|].
  destruct route as [|stop route]; simpl; [apply IH|].
  destruct (depart random w d s i (depot d) (stop :: route)) as [s'|e|] eqn:E;
    simpl; [apply IH|discriminate|exfalso; apply (depart_fuel _ _ _ _ E)].
Qed.

(** X16.  The replay always ends: allowed one turn more than two timeouts a
    stop and one a route that is not empty, [run] returns or raises. *)
Theorem run_ends fuel routes :
  (planned_timeouts routes < fuel)%nat ->
  run fuel random w d routes <> OutOfFuel.
Proof.
  intro Hfuel. unfold run.
  destruct (start random w d init 0 routes) as [s|e|] eqn:E; simpl;
    [|discriminate|exfalso; apply (start_fuel _ _ _ E)].
  apply run_events_fuel.
  destruct (start_counts _ _ _ _ E) as (_ & _ & _ & Hp).
  change (tally pending (queue init)) with O in Hp.
  rewrite work_tally. lia.
Qed.

(** *** Inputs the replay accepts *)

Section Accepted.

Variable routes : list (list nat).
Hypothesis accepted : replayable d routes.

Let n := length (time_matrix d).

Lemma depart_ok s vehicle current_node route :
  (current_node < n)%nat ->
  Forall (fun stop => (stop < n)%nat) route ->
  Forall (fun e => in_range n (at_yield e)) (queue s) ->
  exists s',
    depart random w d s vehicle current_node route = Ok s' /\
    Forall (fun e => in_range n (at_yield e)) (queue s').
Proof.
  intros Hcur Hroute Hq.
  destruct accepted as (Hdepot & Hmatrix & _ & _ & _). fold n in Hdepot, Hmatrix.
  assert (Hto : (match route with next_node :: _ => next_node | [] => depot d end
                 < n)%nat).
  { destruct route as [|x route]; [assumption|]. inversion Hroute; assumption. }
  destruct (Hmatrix _ _ Hcur Hto) as (t & Ht & Hpos).
  unfold depart. rewrite Ht. cbn [bind]. unfold timeout.
  destruct (factor_bounds w (random (draws s))) as [Hlo _].
  destruct (Qlt_le_dec _ _) as [Hneg|_].
  - exfalso. rewrite Zle_Qle in Hpos. change (inject_Z 0) with 0 in Hpos.
    pose proof (Qmult_le_0_compat (inject_Z t)
                  (travel_time_factor (get_current_weather w (random (draws s))))
                  Hpos ltac:(lra)).
    lra.
  - eexists. split; [reflexivity|]. simpl.
    apply Forall_app. split; [assumption|]. constructor; [|constructor].
    simpl. destruct route as [|x route]; simpl; [assumption|].
    inversion Hroute; subst. repeat split; assumption.
Qed.

Lemma resume_ok s vehicle k :
  in_range n k ->
  Forall (fun e => in_range n (at_yield e)) (queue s) ->
  exists s',
    resume random w d s vehicle k = Ok s' /\
    Forall (fun e => in_range n (at_yield e)) (queue s').
Proof.
  intros Hk Hq.
  destruct accepted as (Hdepot & Hmatrix & Hwin & Hservice & _).
  fold n in Hdepot, Hmatrix, Hwin.
  destruct k as [cur next rest weather base actual|next rest|cur weather base actual];
    simpl.
  - destruct Hk as (_ & Hnext & Hrest).
    destruct (nth_error (time_windows d) next) as [window|] eqn:Hw.
    2:{ exfalso. apply nth_error_None in Hw. lia. }
    unfold list_get. rewrite Hw. cbn [bind]. unfold timeout.
    destruct (Qlt_le_dec _ _) as [Hneg|_].
    + exfalso. rewrite Zle_Qle in Hservice.
      change (inject_Z 0) with 0 in Hservice. lra.
    + eexists. split; [reflexivity|]. simpl.
      destruct (charge_fields s (snd window)
                  (arrival_event vehicle cur next weather base actual (now s)))
        as (_ & -> & _).
      apply Forall_app. split; [assumption|]. constructor; [|constructor].
      simpl. split; assumption.
  - destruct Hk as [Hnext Hrest]. apply depart_ok; assumption.
  - eexists. split; [reflexivity|].
    destruct (charge_fields s (get (max_time_minutes d) 480%Z)
                (arrival_event vehicle cur (depot d) weather base actual (now s)))
      as (_ & -> & _).
    assumption.
Qed.

Lemma run_events_ok fuel : forall s,
  (work (queue s) < fuel)%nat ->
  Forall (fun e => in_range n (at_yield e)) (queue s) ->
  exists final, run_events fuel random w d s = Ok final.
Proof.
  induction fuel as [|fuel IH]; intros s Hlt Hq; [lia|].
  simpl. unfold step.
  destruct (pop (queue s)) as [[e rest]|] eqn:Hpop; simpl;
    [|eexists; reflexivity].
  pose proof (pop_work _ _ _ Hpop) as Hwork.
  apply pop_Permutation in Hpop.
  apply (Permutation_Forall Hpop) in Hq. inversion Hq as [|? ? He Hrest]; subst.
  destruct (resume_ok
              {| now := time e; queue := rest; draws := draws s; logs := logs s;
                 total_overtime_cost := total_overtime_cost s |}
              (vehicle_id e) (at_yield e) He Hrest) as (s' & Hres & Hq').
  rewrite Hres. cbn [bind]. apply IH; [|assumption].
  apply (resume_work random w d) in Hres. simpl in Hres. lia.
Qed.

Lemma start_ok rs : forall s i,
  Forall (Forall (fun stop => (stop < n)%nat)) rs ->
  Forall (fun e => in_range n (at_yield e)) (queue s) ->
  exists s',
    start random w d s i rs = Ok s' /\
    Forall (fun e => in_range n (at_yield e)) (queue s').
Proof.
  induction rs as [|route rest IH]; intros s i Hrs Hq; simpl.
  - eexists. split; [reflexivity|assumption].
  - inversion Hrs as [|? ? Hroute Hrest]; subst.
    destruct route as [|stop route]; simpl; [apply IH; assumption|].
    destruct (depart_ok s i (depot d) (stop :: route)) as (s1 & -> & Hq1);
      [apply accepted|assumption|assumption|].
    cbn [bind]. apply IH; assumption.
Qed.

Lemma run_accepts_well_formed_input_aux :
  exists final,
    run (S (planned_timeouts routes)) random w d routes = Ok final.
Proof.
  unfold run.
  destruct (start_ok routes init 0%nat) as (s & Hs & Hq);
    [apply accepted|constructor|].
  rewrite Hs. cbn [bind]. apply run_events_ok; [|assumption].
  destruct (start_counts _ _ _ _ Hs) as (_ & _ & _ & Hp).
  change (tally pending (queue init)) with O in Hp.
  rewrite work_tally. lia.
Qed.

(** X17.  On an input whose matrix is square with no negative entry, which
    has a window for every node and a service time that is not negative, and
    whose routes visit nodes of the matrix only, the replay raises nothing:
    it returns within one turn more than its planned timeouts. *)
Theorem run_accepts_well_formed_input :
  exists final,
    run (S (planned_timeouts routes)) random w d routes = Ok final.
Proof. exact run_accepts_well_formed_input_aux. Qed.

End Accepted.

End Replaying.

Section ReplayingWitnesses.

Import WeatherService LogisticsSimulator Replay Instances.
Local Open Scope Q_scope.

Lemma run_logs_one_row_per_leg_witness :
  exists final,
    run 4 (fun _ => 1 # 4) default_weather tight_window [[1%nat]] = Ok final /\
    length (logs final) = planned_legs [[1%nat]] /\
    draws final = planned_legs [[1%nat]] /\
    queue final = [].
Proof.
  destruct (run 4 (fun _ => 1 # 4) default_weather tight_window [[1%nat]])
    as [final| |] eqn:H; try (vm_compute in H; discriminate).
  exists final. split; [reflexivity|].
  apply (run_logs_one_row_per_leg (fun _ => 1 # 4) default_weather tight_window
           4 [[1%nat]] final H).
Defined.

Lemma run_logs_sane_rows_witness :
  exists final,
    run 4 (fun _ => 1 # 4) default_weather tight_window [[1%nat]] = Ok final /\
    Forall row_ok (logs final).
Proof.
  destruct (run 4 (fun _ => 1 # 4) default_weather tight_window [[1%nat]])
    as [final| |] eqn:H; try (vm_compute in H; discriminate).
  exists final. split; [reflexivity|].
  apply (run_logs_sane_rows (fun _ => 1 # 4) default_weather tight_window
           4 [[1%nat]] final H).
Defined.

Lemma run_logs_in_time_order_witness :
  exists final,
    run 9 (fun _ => 1 # 2) default_weather two_customers [[1%nat]; [2%nat]]
      = Ok final /\
    StronglySorted (fun a b => Hora_Chegada a <= Hora_Chegada b) (logs final).
Proof.
  destruct (run 9 (fun _ => 1 # 2) default_weather two_customers
              [[1%nat]; [2%nat]])
    as [final| |] eqn:H; try (vm_compute in H; discriminate).
  exists final. split; [reflexivity|].
  apply (run_logs_in_time_order (fun _ => 1 # 2) default_weather two_customers
           9 [[1%nat]; [2%nat]] final H).
Defined.

Lemma run_without_stops_does_nothing_witness :
  run 1 (fun _ => 1 # 4) default_weather tight_window [[]; []] = Ok init.
Proof.
  apply (run_without_stops_does_nothing (fun _ => 1 # 4) default_weather
           tight_window 0 [[]; []]).
  repeat constructor.
Defined.

Lemma run_ends_witness :
  run 4 (fun _ => 1 # 4) default_weather tight_window [[1%nat]] <> OutOfFuel.
Proof.
  apply (run_ends (fun _ => 1 # 4) default_weather tight_window 4 [[1%nat]]).
  unfold planned_timeouts. simpl. lia.
Defined.

Lemma two_customers_replayable : replayable two_customers [[1; 2]%nat].
Proof.
  split; [simpl; lia|]. split; [|split; [simpl; lia|split; [simpl; lia|]]].
  - intros i j Hi Hj. simpl in Hi, Hj.
    destruct i as [|[|[|i]]]; [| | |lia];
      (destruct j as [|[|[|j]]]; [| | |lia]);
      eexists; (split; [reflexivity|lia]).
  - repeat constructor.
Qed.

Lemma run_accepts_well_formed_input_witness :
  exists final,
    run (S (planned_timeouts [[1; 2]%nat])) (fun _ => 1 # 2) default_weather
      two_customers [[1; 2]%nat] = Ok final.
Proof.
  apply (run_accepts_well_formed_input (fun _ => 1 # 2) default_weather
           two_customers [[1; 2]%nat] two_customers_replayable).
Defined.

End ReplayingWitnesses.

(** * Properties of the generated instance *)

Section Generation.

Import DataGen.
Local Open Scope Z_scope.

Variable g : Stream.

Lemma randint_range call low high x :
  randint g call low high = Ok x -> low <= x < high.
Proof.
  unfold randint. destruct (Z.leb_spec high low) as [|Hlt]; [discriminate|].
  intro H. inversion H; subst.
  pose proof (Z.mod_pos_bound (integer g call) (high - low) ltac:(lia)). lia.
Qed.

Lemma randint_ok call low high :
  low < high -> exists x, randint g call low high = Ok x.
Proof.
  intro Hlt. unfold randint.
  destruct (Z.leb_spec high low) as [|_]; [lia|]. eexists. reflexivity.
Qed.

Lemma customers_of_hub_spec hub_name coordinates : forall call customer_id,
  exists here,
    customers_of_hub g call customer_id hub_name coordinates
      = Ok (here, (customer_id + length coordinates)%nat,
            (call + length coordinates)%nat) /\
    map id here = seq customer_id (length coordinates) /\
    Forall (customer_of hub_name) here.
Proof.
  induction coordinates as [|[la lo] rest IH]; intros call customer_id.
  - exists []. simpl. rewrite !Nat.add_0_r. repeat split. constructor.
  - destruct (randint_ok call 1 10 ltac:(lia)) as (q & Hq).
    destruct (IH (S call) (S customer_id)) as (more & Hmore & Hids & Hall).
    eexists. cbn [customers_of_hub]. rewrite Hq. cbn [bind]. rewrite Hmore.
    cbn [bind length]. rewrite !Nat.add_succ_r. split; [reflexivity|].
    split.
    + simpl. rewrite Hids. reflexivity.
    + constructor; [|assumption]. apply randint_range in Hq.
      unfold customer_of. simpl. repeat split; lia.
Qed.

Lemma hub_counts_add_up n : list_sum (map (hub_count n) (seq 0 4)) = n.
Proof.
  unfold hub_count. change (length HUBS) with 4%nat.
  pose proof (Nat.div_mod_eq n 4) as Hn.
  pose proof (Nat.mod_upper_bound n 4 ltac:(lia)) as Hr.
  remember (n / 4)%nat as q eqn:Hq. remember (n mod 4)%nat as r eqn:Hrem.
  clear Hq Hrem. destruct r as [|[|[|[|r]]]]; simpl; lia.
Qed.

Lemma list_sum_cons a l : list_sum (a :: l) = (a + list_sum l)%nat.
Proof. reflexivity. Qed.

Lemma hubs_loop_spec n hubs : forall i call customer_id,
  exists blocks call',
    hubs_loop g n i hubs call customer_id
      = Ok (concat blocks,
            (customer_id + list_sum (map (hub_count n) (seq i (length hubs))))%nat,
            call') /\
    map id (concat blocks)
      = seq customer_id (list_sum (map (hub_count n) (seq i (length hubs)))) /\
    map (@length Location) blocks = map (hub_count n) (seq i (length hubs)) /\
    Forall2 (fun hub block => Forall (customer_of (fst hub)) block) hubs blocks.
Proof.
  induction hubs as [|[hub_name [hub_lat hub_lon]] rest IH];
    intros i call customer_id.
  - exists [], call. simpl. rewrite Nat.add_0_r. repeat split. constructor.
  - cbn [hubs_loop].
    set (count := (n / length HUBS
                   + (if (i <? n mod length HUBS)%nat then 1 else 0))%nat).
    set (coordinates := combine (normal g call hub_lat (2 # 100) count)
                          (normal g (S call) hub_lon (2 # 100) count)).
    assert (Hlen : length coordinates = hub_count n i).
    { unfold coordinates, normal.
      rewrite length_combine, !length_map, !length_seq. apply Nat.min_id. }
    destruct (customers_of_hub_spec hub_name coordinates (S (S call)) customer_id)
      as (here & Hhere & Hids & Hall).
    rewrite Hhere. cbn [bind].
    destruct (IH (S i) (S (S call) + length coordinates)%nat
                (customer_id + length coordinates)%nat)
      as (blocks & call' & Hrest & Hids' & Hlens & Hblocks).
    rewrite Hrest. cbn [bind].
    exists (here :: blocks), call'. cbn [concat length seq map].
    rewrite list_sum_cons, <- Hlen. split; [|split; [|split]].
    + f_equal. f_equal. f_equal. lia.
    + rewrite map_app, Hids, Hids', <- seq_app. reflexivity.
    + f_equal; [|assumption].
      rewrite <- (length_map id here), Hids, length_seq. reflexivity.
    + constructor; assumption.
Qed.

Lemma generate_locations_numbers_customers_aux n :
  exists depot_location customers call,
    generate_locations g n = Ok (depot_location :: customers, call) /\
    is_depot depot_location = true /\ demand depot_location = 0 /\
    length customers = n /\
    Forall (fun l => is_depot l = false /\ 1 <= demand l <= 9) customers.
Proof.
  destruct (hubs_loop_spec n HUBS 0 0 1)
    as (blocks & call & Hloop & Hids & _ & Hblocks).
  change (length HUBS) with 4%nat in Hloop, Hids.
  rewrite hub_counts_add_up in Hloop, Hids.
  eexists. exists (concat blocks), call. unfold generate_locations.
  rewrite Hloop. cbn [bind]. split; [reflexivity|].
  split; [reflexivity|]. split; [reflexivity|]. split.
  - rewrite <- (length_map id), Hids, length_seq. reflexivity.
  - clear -Hblocks. induction Hblocks as [|hub block hubs blocks Hb _ IH];
      simpl; [constructor|].
    apply Forall_app. split; [|assumption].
    apply Forall_impl with (2 := Hb). intros l (H1 & H2 & _). split; assumption.
Qed.

(** X18.  [generate_locations] raises nothing and returns the depot followed
    by [num_customers] customers: the ids are 0, 1, ..., [num_customers] in
    order, the depot has demand 0, and every customer is not a depot and has a
    demand from 1 to 9. *)
Theorem generate_locations_numbers_customers n :
  exists depot_location customers call,
    generate_locations g n = Ok (depot_location :: customers, call) /\
    map id (depot_location :: customers) = seq 0 (S n) /\
    is_depot depot_location = true /\ demand depot_location = 0 /\
    length customers = n /\
    Forall (fun l => is_depot l = false /\ 1 <= demand l <= 9) customers.
Proof.
  destruct (hubs_loop_spec n HUBS 0 0 1)
    as (blocks & call & Hloop & Hids & _ & Hblocks).
  change (length HUBS) with 4%nat in Hloop, Hids.
  rewrite hub_counts_add_up in Hloop, Hids.
  eexists. exists (concat blocks), call. unfold generate_locations.
  rewrite Hloop. cbn [bind]. split; [reflexivity|].
  split; [cbn [map id seq]; rewrite Hids; reflexivity|].
  split; [reflexivity|]. split; [reflexivity|]. split.
  - rewrite <- (length_map id), Hids, length_seq. reflexivity.
  - clear -Hblocks. induction Hblocks as [|hub block hubs blocks Hb _ IH];
      simpl; [constructor|].
    apply Forall_app. split; [|assumption].
    apply Forall_impl with (2 := Hb). intros l (H1 & H2 & _). split; assumption.
Qed.

(** X19.  The customers come hub by hub, in the order of the table; hub
    number [i] gets [num_customers // 4] of them, and one more when
    [i < num_customers % 4], each tagged with the name of the hub, so no two
    hubs differ by more than one customer. *)
Theorem generate_locations_splits_evenly n :
  exists depot_location blocks call,
    generate_locations g n = Ok (depot_location :: concat blocks, call) /\
    map (@length Location) blocks = map (hub_count n) (seq 0 4) /\
    Forall2 (fun hub block => Forall (fun l => cluster l = fst hub) block)
      HUBS blocks /\
    (forall i j, (i < 4)%nat -> (j < 4)%nat ->
       (hub_count n i <= hub_count n j + 1)%nat).
Proof.
  destruct (hubs_loop_spec n HUBS 0 0 1)
    as (blocks & call & Hloop & _ & Hlens & Hblocks).
  eexists. exists blocks, call. unfold generate_locations.
  rewrite Hloop. cbn [bind]. split; [reflexivity|]. split; [exact Hlens|].
  split.
  - clear -Hblocks. induction Hblocks as [|hub block hubs blocks Hb _ IH];
      constructor; [|assumption].
    apply Forall_impl with (2 := Hb). intros l (_ & _ & H). exact H.
  - intros i j _ _. unfold hub_count.
    destruct (i <? n mod length HUBS)%nat, (j <? n mod length HUBS)%nat; lia.
Qed.

(** *** The data model *)

Lemma windows_loop_spec tm max_time service indices : forall call windows,
  windows_loop g tm max_time service call indices = Ok windows ->
  Forall2 (fun i w => exists dist,
             matrix_get tm 0 i = Ok dist /\ window_of max_time service dist w)
    indices windows.
Proof.
  induction indices as [|i rest IH]; intros call windows H; simpl in H.
  - inversion H; subst. constructor.
  - bind_inv H. rename a into dist. bind_inv H. rename a into start.
    bind_inv H. inversion H; subst. constructor; [|apply (IH _ _ E1)].
    exists dist. split; [assumption|]. apply randint_range in E0.
    unfold window_of. simpl. repeat split; lia.
Qed.

Lemma windows_loop_ok tm max_time service indices : forall call,
  (forall i, In i indices -> exists t, matrix_get tm 0 i = Ok t) ->
  exists windows,
    windows_loop g tm max_time service call indices = Ok windows.
Proof.
  induction indices as [|i rest IH]; intros call Hrow; simpl.
  - eexists. reflexivity.
  - destruct (Hrow i (or_introl eq_refl)) as (t & ->). cbn [bind].
    destruct (randint_ok call t
                (Z.max (t + 1)
                   (if max_time - service - 30 <? t then t + 10
                    else max_time - service - 30)) ltac:(lia)) as (x & ->).
    cbn [bind].
    destruct (IH (S call) (fun j Hj => Hrow j (or_intror Hj))) as (ws & ->).
    eexists. reflexivity.
Qed.

Lemma Forall2_seq_nth (A : Type) (P : nat -> A -> Prop) len : forall first l,
  Forall2 P (seq first len) l ->
  forall k x, nth_error l k = Some x -> P (first + k)%nat x.
Proof.
  induction len as [|len IH]; intros first l H k x Hk; simpl in H.
  - inversion H; subst. destruct k; discriminate.
  - inversion H as [|? y ? l' Hy Hrest]; subst. destruct k as [|k]; simpl in Hk.
    + inversion Hk; subst. rewrite Nat.add_0_r. assumption.
    + rewrite Nat.add_succ_r. apply (IH (S first) l' Hrest k x Hk).
Qed.

Variable calculate_time_matrix : list Location -> list (list Z).

(** X20.  Whenever the matrix it is given has, in the row of the depot, a
    column for every location, [create_data_model] raises nothing (the range
    of every draw is not empty) and returns a model with the depot at index
    0, one demand and one window for each of the [num_customers] + 1
    locations, the window (0, [max_time_minutes]) and the demand 0 for the
    depot, no demand above 9, and [num_vehicles] capacities of 50. *)
Theorem create_data_model_shape n max_time service vehicles :
  (forall locs call,
     generate_locations g n = Ok (locs, call) ->
     forall i, (i < length locs)%nat ->
     exists t, matrix_get (calculate_time_matrix locs) 0 i = Ok t) ->
  exists gen,
    create_data_model g calculate_time_matrix n max_time service vehicles
      = Ok gen /\
    depot (model gen) = O /\
    time_matrix (model gen) = calculate_time_matrix (locations gen) /\
    length (locations gen) = S n /\
    demands (model gen) = map demand (locations gen) /\
    length (time_windows (model gen)) = S n /\
    nth_error (time_windows (model gen)) 0 = Some (0, max_time) /\
    nth_error (demands (model gen)) 0 = Some 0 /\
    Forall (fun q => 0 <= q <= 9) (demands (model gen)) /\
    vehicle_capacities (model gen) = repeat 50 (num_vehicles (model gen)).
Proof.
  intro Hrow.
  destruct (generate_locations_numbers_customers_aux n)
    as (dep & customers & call & Hgen & Hdep & Hdem & Hlen & Hall).
  unfold create_data_model. rewrite Hgen. cbn [bind].
  destruct (windows_loop_ok (calculate_time_matrix (dep :: customers)) max_time
              service (seq 1 (length (dep :: customers) - 1)) call)
    as (windows & Hw).
  { intros i Hi. apply (Hrow _ _ Hgen). apply in_seq in Hi. simpl in *. lia. }
  rewrite Hw. cbn [bind]. eexists. split; [reflexivity|]. simpl.
  pose proof (Forall2_length (windows_loop_spec _ _ _ _ _ _ Hw)) as Hwl.
  rewrite length_seq in Hwl. simpl in Hwl. rewrite Nat.sub_0_r in Hwl.
  repeat split; try reflexivity; try lia.
  - rewrite Hdem. reflexivity.
  - rewrite Hdem. constructor; [lia|]. clear -Hall.
    induction Hall as [|l ls [_ Hl] _ IH]; simpl; constructor; [lia|assumption].
Qed.

(** X21.  In the returned model, the window of customer [i] opens no earlier
    than the travel time from the depot, closes no later than
    [max_time_minutes] and at most 180 minutes after it opens; it opens
    before [max_time_minutes - service_time - 30] when the customer is nearer
    than that, and less than ten minutes after the travel time otherwise; it
    closes before it opens exactly when it opens past [max_time_minutes]. *)
Theorem create_data_model_windows n max_time service vehicles gen i start stop :
  create_data_model g calculate_time_matrix n max_time service vehicles
    = Ok gen ->
  (1 <= i)%nat ->
  nth_error (time_windows (model gen)) i = Some (start, stop) ->
  exists dist,
    matrix_get (time_matrix (model gen)) 0 i = Ok dist /\
    dist <= start /\ stop <= max_time /\ stop <= start + 180 /\
    (stop < start <-> max_time < start) /\
    (dist < max_time - service - 30 -> start < max_time - service - 30) /\
    (max_time - service - 30 <= dist -> start < dist + 10).
Proof.
  unfold create_data_model. intros H Hi Hw.
  bind_inv H. destruct a as [locs call]. bind_inv H. rename a into windows.
  inversion H; subst gen. simpl in *.
  destruct i as [|k]; [lia|]. simpl in Hw.
  pose proof (Forall2_seq_nth _ _ _ _ _ (windows_loop_spec _ _ _ _ _ _ E0)
                k (start, stop) Hw) as (dist & Hd & Hlo & Hhi & Hstop).
  simpl in Hlo, Hhi, Hstop. exists dist. split; [exact Hd|].
  destruct (Z.ltb_spec (max_time - service - 30) dist); lia.
Qed.

(** X22.  Left to itself ([num_vehicles] is [None]), [create_data_model]
    sizes the fleet at five vehicles or more, enough for their capacities of
    50 to add up to at least 1.2 times the total demand. *)
Theorem create_data_model_default_fleet n max_time service gen :
  create_data_model g calculate_time_matrix n max_time service None = Ok gen ->
  (5 <= num_vehicles (model gen))%nat /\
  12 * total_demand (locations gen)
    <= 10 * fold_right Z.add 0 (vehicle_capacities (model gen)).
Proof.
  unfold create_data_model. intro H.
  bind_inv H. destruct a as [locs call]. bind_inv H. rename a into windows.
  inversion H; subst gen.
  cbn [model locations num_vehicles vehicle_capacities]. clear.
  unfold default_fleet. fold (total_demand locs).
  set (c := Qceiling (inject_Z (total_demand locs) / inject_Z 50 * (12 # 10))).
  assert (Hc : 12 * total_demand locs <= 500 * c).
  { pose proof (Qle_ceiling
                  (inject_Z (total_demand locs) / inject_Z 50 * (12 # 10)))
      as Hle. fold c in Hle.
    rewrite Zle_Qle, !inject_Z_mult.
    change (inject_Z 12) with 12%Q. change (inject_Z 500) with 500%Q.
    change (inject_Z 50) with 50%Q in Hle.
    assert (Heq : (inject_Z (total_demand locs) / 50 * (12 # 10)
                   == inject_Z (total_demand locs) * (12 # 500))%Q) by field.
    rewrite Heq in Hle. lra. }
  assert (Hsum : forall k, fold_right Z.add 0 (repeat 50 k) = 50 * Z.of_nat k).
  { induction k as [|k IH]; [reflexivity|].
    cbn [repeat fold_right]. rewrite IH. lia. }
  rewrite Hsum. split; lia.
Qed.

End Generation.

Section GenerationWitnesses.

Import DataGen GeneratedInstances.
Local Open Scope Z_scope.

Lemma flat_row (ls : list Location) : forall i,
  (i < length ls)%nat -> nth_error (map (fun _ : Location => 7) ls) i = Some 7.
Proof.
  induction ls as [|x ls IH]; intros i Hi; [simpl in Hi; lia|].
  destruct i as [|i]; [reflexivity|]. simpl. apply IH. simpl in Hi. lia.
Qed.

Lemma flat_matrix_row n locs call :
  generate_locations still_air n = Ok (locs, call) ->
  forall i, (i < length locs)%nat ->
  exists t, matrix_get (flat_matrix locs) 0 i = Ok t.
Proof.
  intros _ i Hi. exists 7. unfold flat_matrix, matrix_get, list_get.
  destruct locs as [|l locs]; [simpl in Hi; lia|].
  simpl.
  change (7 :: map (fun _ : Location => 7) locs)
    with (map (fun _ : Location => 7) (l :: locs)).
  rewrite (flat_row (l :: locs) i Hi). reflexivity.
Qed.

Lemma create_data_model_shape_witness :
  exists gen,
    create_data_model still_air flat_matrix 2 480 30 (Some 2%nat) = Ok gen /\
    depot (model gen) = O /\
    time_matrix (model gen) = flat_matrix (locations gen) /\
    length (locations gen) = 3%nat /\
    demands (model gen) = map demand (locations gen) /\
    length (time_windows (model gen)) = 3%nat /\
    nth_error (time_windows (model gen)) 0 = Some (0, 480) /\
    nth_error (demands (model gen)) 0 = Some 0 /\
    Forall (fun q => 0 <= q <= 9) (demands (model gen)) /\
    vehicle_capacities (model gen) = repeat 50 (num_vehicles (model gen)).
Proof.
  apply (create_data_model_shape still_air flat_matrix 2 480 30 (Some 2%nat)).
  apply flat_matrix_row.
Defined.

Lemma create_data_model_windows_witness :
  exists gen,
    create_data_model still_air flat_matrix 2 480 30 (Some 2%nat) = Ok gen /\
    exists dist,
      matrix_get (time_matrix (model gen)) 0 1 = Ok dist /\
      dist <= 17 /\ 197 <= 480 /\ 197 <= 17 + 180 /\
      (197 < 17 <-> 480 < 17) /\
      (dist < 480 - 30 - 30 -> 17 < 480 - 30 - 30) /\
      (480 - 30 - 30 <= dist -> 17 < dist + 10).
Proof.
  destruct (create_data_model still_air flat_matrix 2 480 30 (Some 2%nat))
    as [gen| |] eqn:H; try (vm_compute in H; discriminate).
  exists gen. split; [reflexivity|].
  apply (create_data_model_windows still_air flat_matrix 2 480 30 (Some 2%nat)
           gen 1 17 197 H).
  - lia.
  - vm_compute in H. inversion H. reflexivity.
Defined.

Lemma create_data_model_default_fleet_witness :
  exists gen,
    create_data_model still_air flat_matrix 2 480 30 None = Ok gen /\
    (5 <= num_vehicles (model gen))%nat /\
    12 * total_demand (locations gen)
      <= 10 * fold_right Z.add 0 (vehicle_capacities (model gen)).
Proof.
  destruct (create_data_model still_air flat_matrix 2 480 30 None)
    as [gen| |] eqn:H; try (vm_compute in H; discriminate).
  exists gen. split; [reflexivity|].
  apply (create_data_model_default_fleet still_air flat_matrix 2 480 30 gen H).
Defined.

End GenerationWitnesses.

(** * The baseline replayed *)

Section BaselineReplayed.

Import Optimizer WeatherService LogisticsSimulator Replay Instances.

Lemma planned_legs_not_empty routes :
  Forall (fun r : list nat => r <> []) routes ->
  planned_legs routes = (length (concat routes) + length routes)%nat.
Proof.
  induction 1 as [|r routes Hr _ IH]; [reflexivity|].
  rewrite planned_legs_cons, IH. simpl. rewrite length_app.
  destruct r; [congruence|]. simpl. lia.
Qed.

(** X23.  The routes of the baseline can be handed to the simulator as they
    are: on a model whose matrix has no negative entry, with a window for
    every node and a service time that is not negative, the replay of the
    routes [solve_greedy] returned raises nothing and logs one row for each
    customer and one more for each route. *)
Theorem greedy_routes_replay random w d fuel routes :
  replayable d [] ->
  solve_greedy fuel d = Ok routes ->
  exists final,
    run (S (planned_timeouts routes)) random w d routes = Ok final /\
    length (logs final)
      = (length (time_matrix d) - 1 + length routes)%nat.
Proof.
  intros (Hdepot & Hmatrix & Hwin & Hservice & _) H.
  pose proof (solve_greedy_Permutation d fuel routes H) as Hperm.
  assert (Hne : Forall (fun r : list nat => r <> []) routes).
  { unfold solve_greedy in H. destruct fuel as [|fuel']; [discriminate|].
    destruct (seq 1 (length (time_matrix d) - 1)) as [|x rest] eqn:Hseq.
    - simpl in H. inversion H; subst. constructor.
    - destruct (list_get (vehicle_capacities d) 0) as [cap|e|] eqn:Hcap;
        [|cbn [routes_loop] in H; rewrite Hcap in H; discriminate ..].
      refine (routes_loop_spec d cap Hcap _ _ (S fuel') [] (x :: rest) routes
                (Forall_nil _) H).
      intros v _ Hv. exact Hv. }
  assert (Hacc : replayable d routes).
  { split; [assumption|]. split; [assumption|]. split; [assumption|].
    split; [assumption|].
    rewrite Forall_forall. intros r Hr. rewrite Forall_forall. intros stop Hs.
    assert (Hin : In stop (concat routes)).
    { apply in_concat. exists r. split; assumption. }
    apply (Permutation_in _ Hperm) in Hin. apply in_seq in Hin. lia. }
  destruct (run_accepts_well_formed_input_aux random w d routes Hacc)
    as (final & Hrun).
  exists final. split; [exact Hrun|].
  destruct (run_logs_one_row_per_leg_aux random w d _ routes final Hrun)
    as (Hrows & _).
  rewrite Hrows, (planned_legs_not_empty routes Hne).
  rewrite (Permutation_length Hperm), length_seq. reflexivity.
Qed.

End BaselineReplayed.

(** * The rows of each vehicle *)

Section RowsOfVehicles.

Import WeatherService LogisticsSimulator Replay Instances.
Local Open Scope Q_scope.

Variable random : nat -> Q.
Variable w : WeatherService.t.
Variable d : DataModel.

Lemma filter_Permutation (A : Type) (f : A -> bool) l l' :
  Permutation l l' -> Permutation (filter f l) (filter f l').
Proof.
  induction 1 as [|x l l' _ IH|x y l|l l' l'' _ IH1 _ IH2]; simpl.
  - constructor.
  - destruct (f x); [apply perm_skip|]; assumption.
  - destruct (f x), (f y); try apply Permutation_refl. apply perm_swap.
  - eapply perm_trans; eassumption.
Qed.

Lemma pending_of_snoc i q x :
  pending_of i (q ++ [x])
  = pending_of i q ++ (if Nat.eqb (vehicle_id x) i then [x] else []).
Proof. unfold pending_of. rewrite filter_app. reflexivity. Qed.

Lemma rows_of_snoc i log e :
  rows_of i (log ++ [e])
  = rows_of i log ++ (if Nat.eqb (Veiculo e) i then [e] else []).
Proof. unfold rows_of. rewrite filter_app. reflexivity. Qed.

Lemma todo_not_nil k : todo d k <> [].
Proof. destruct k; simpl; try discriminate. destruct rest; discriminate. Qed.

(** Popping a timeout of vehicle [j] leaves the other vehicles as they were
    and vehicle [j] with nothing pending. *)
Lemma pop_tracks q e rest goal i log :
  pop q = Some (e, rest) ->
  tracks d goal i log q ->
  if Nat.eqb (vehicle_id e) i
  then pending_of i rest = [] /\
       map Para (rows_of i log) ++ todo d (at_yield e) = goal
  else tracks d goal i log rest.
Proof.
  intros Hpop Ht. apply pop_Permutation in Hpop.
  pose proof (filter_Permutation _ (fun x => Nat.eqb (vehicle_id x) i) _ _ Hpop)
    as Hperm.
  fold (pending_of i q) in Hperm. simpl in Hperm. unfold tracks in *.
  destruct (Nat.eqb (vehicle_id e) i).
  - fold (pending_of i rest) in Hperm.
    destruct (pending_of i q) as [|x [|y more]].
    + apply Permutation_nil in Hperm. discriminate.
    + apply Permutation_length_1_inv in Hperm.
      injection Hperm as He Hnil. subst x. split; [exact Hnil|exact Ht].
    + destruct Ht.
  - fold (pending_of i rest) in Hperm.
    destruct (pending_of i q) as [|x [|y more]].
    + apply Permutation_nil in Hperm. rewrite Hperm. assumption.
    + apply Permutation_length_1_inv in Hperm. rewrite Hperm. assumption.
    + destruct Ht.
Qed.

Lemma charge_logs s bound row :
  exists cost, logs (charge s bound row) = logs s ++ [row cost].
Proof.
  destruct (charge_fields s bound row) as (_ & _ & _ & cost & H & _).
  exists cost. exact H.
Qed.

Lemma resume_tracks s vehicle k s' goal i :
  (if Nat.eqb vehicle i
   then pending_of i (queue s) = [] /\
        map Para (rows_of i (logs s)) ++ todo d k = goal
   else tracks d goal i (logs s) (queue s)) ->
  resume random w d s vehicle k = Ok s' ->
  tracks d goal i (logs s') (queue s').
Proof.
  intros Hi H.
  destruct k as [cur next rest weather base actual|next rest|cur weather base actual];
    simpl in H.
  - bind_inv H. apply timeout_inv in H. destruct H as [_ ->].
    destruct (charge_fields s (snd a)
                (arrival_event vehicle cur next weather base actual (now s)))
      as (_ & Hq & _ & cost & Hl & _).
    unfold tracks. cbn [queue logs]. rewrite Hq, Hl, pending_of_snoc, rows_of_snoc.
    cbn [vehicle_id Veiculo arrival_event at_yield].
    destruct (Nat.eqb vehicle i).
    + destruct Hi as [-> Hgoal]. cbn [app]. rewrite map_app. cbn [map Para todo].
      rewrite <- Hgoal, <- app_assoc. reflexivity.
    + rewrite !app_nil_r. exact Hi.
  - apply depart_inv in H. destruct H as (base & weather & _ & _ & _ & ->).
    unfold tracks. cbn [queue logs]. rewrite pending_of_snoc.
    cbn [vehicle_id at_yield].
    destruct (Nat.eqb vehicle i).
    + destruct Hi as [-> Hgoal]. cbn [app]. rewrite <- Hgoal.
      destruct rest; reflexivity.
    + rewrite app_nil_r. exact Hi.
  - inversion H; subst s'.
    destruct (charge_fields s (get (max_time_minutes d) 480%Z)
                (arrival_event vehicle cur (depot d) weather base actual (now s)))
      as (_ & Hq & _ & cost & Hl & _).
    unfold tracks. rewrite Hq, Hl, rows_of_snoc.
    cbn [Veiculo arrival_event].
    destruct (Nat.eqb vehicle i).
    + destruct Hi as [-> Hgoal]. rewrite map_app. exact Hgoal.
    + rewrite app_nil_r. exact Hi.
Qed.

Lemma step_tracks s s' goal i :
  tracks d goal i (logs s) (queue s) ->
  step random w d s = Ok (Some s') ->
  tracks d goal i (logs s') (queue s').
Proof.
  intros Ht Hstep. destruct (step_inv _ _ _ _ _ Hstep) as (e & rest & Hpop & Hres).
  apply (resume_tracks _ _ _ _ _ _) with (2 := Hres). simpl.
  apply (pop_tracks _ _ _ _ _ _ Hpop Ht).
Qed.

Lemma plan_app_lt done rs i :
  (i < length done)%nat -> plan d (done ++ rs) i = plan d done i.
Proof. intro H. unfold plan. rewrite nth_error_app1 by assumption. reflexivity. Qed.

Lemma plan_beyond routes i :
  (length routes <= i)%nat -> plan d routes i = [].
Proof.
  intro H. unfold plan.
  destruct (nth_error routes i) eqn:E; [|reflexivity].
  assert (nth_error routes i <> None) by congruence.
  apply nth_error_Some in H0. lia.
Qed.

Lemma plan_last done r :
  plan d (done ++ [r]) (length done)
  = match r with stop :: rest => stop :: rest ++ [depot d] | [] => [] end.
Proof.
  unfold plan. rewrite nth_error_app2, Nat.sub_diag by lia. reflexivity.
Qed.

(** After the generators have started, nothing is logged and each vehicle
    has its whole plan before it. *)
Lemma start_tracks rs : forall done s s',
  logs s = [] ->
  (forall i, tracks d (plan d done i) i [] (queue s)) ->
  start random w d s (length done) rs = Ok s' ->
  logs s' = [] /\
  forall i, tracks d (plan d (done ++ rs) i) i [] (queue s').
Proof.
  induction rs as [|r rs IH]; intros done s s' Hlogs Hall H; simpl in H.
  - inversion H; subst. rewrite app_nil_r. split; assumption.
  - bind_inv H. rename a into s1.
    replace (done ++ r :: rs) with ((done ++ [r]) ++ rs)
      by (rewrite <- app_assoc; reflexivity).
    replace (S (length done)) with (length (done ++ [r])) in H
      by (rewrite length_app; simpl; lia).
    assert (Hidle : pending_of (length done) (queue s) = []).
    { specialize (Hall (length done)). unfold tracks in Hall.
      rewrite plan_beyond in Hall by lia.
      destruct (pending_of (length done) (queue s)) as [|e [|e' more]];
        [reflexivity| |destruct Hall].
      exfalso. simpl in Hall. apply (todo_not_nil _ Hall). }
    apply (IH (done ++ [r]) s1 s'); [| |exact H].
    + destruct r as [|stop rest]; [inversion E; subst; assumption|].
      apply depart_keeps in E. destruct E as [-> _]. assumption.
    + intro i. specialize (Hall i).
      destruct (Nat.lt_trichotomy i (length done)) as [Hlt|[->|Hgt]].
      * rewrite plan_app_lt by assumption.
        destruct r as [|stop rest]; [inversion E; subst; assumption|].
        apply depart_inv in E. destruct E as (base & weather & _ & _ & _ & ->).
        unfold tracks in *. cbn [queue]. rewrite pending_of_snoc.
        cbn [vehicle_id]. destruct (Nat.eqb_spec (length done) i); [lia|].
        rewrite app_nil_r. assumption.
      * rewrite plan_last.
        destruct r as [|stop rest].
        -- inversion E; subst. unfold tracks. rewrite Hidle. reflexivity.
        -- apply depart_inv in E.
           destruct E as (base & weather & _ & _ & _ & ->).
           unfold tracks. cbn [queue]. rewrite pending_of_snoc, Hidle.
           cbn [vehicle_id]. rewrite Nat.eqb_refl. reflexivity.
      * rewrite plan_beyond in * by (try rewrite length_app; simpl; lia).
        destruct r as [|stop rest]; [inversion E; subst; assumption|].
        apply depart_inv in E. destruct E as (base & weather & _ & _ & _ & ->).
        unfold tracks in *. cbn [queue]. rewrite pending_of_snoc.
        cbn [vehicle_id]. destruct (Nat.eqb_spec (length done) i); [lia|].
        rewrite app_nil_r. assumption.
Qed.

(** X24.  In the log of a run that returns, the rows of vehicle [i], in the
    order they were written, go to the stops of route [i] in the order of the
    route and then to the depot; a vehicle with no route or an empty one has
    no row. *)
Theorem run_logs_follow_routes fuel routes final i :
  run fuel random w d routes = Ok final ->
  map Para (rows_of i (logs final)) = plan d routes i.
Proof.
  unfold run. intro H. bind_inv H. rename a into s.
  destruct (start_tracks routes [] init s eq_refl) as [Hlogs Hall].
  - intro j. unfold tracks, plan. simpl. destruct j; reflexivity.
  - exact E.
  - destruct (run_events_invariant random w d
                (fun s' => tracks d (plan d routes i) i (logs s') (queue s')))
      with (fuel := fuel) (s := s) (final := final) as (Ht & Hq).
    + intros s1 s2. apply step_tracks.
    + rewrite Hlogs. apply Hall.
    + exact H.
    + unfold tracks in Ht. rewrite Hq in Ht. exact Ht.
Qed.

End RowsOfVehicles.

Section CompositionWitnesses.

Import Optimizer WeatherService LogisticsSimulator Replay Instances.

Lemma two_customers_accepts_nothing : replayable two_customers [].
Proof.
  destruct two_customers_replayable as (H1 & H2 & H3 & H4 & _).
  repeat (split; [assumption|]). constructor.
Qed.

Lemma greedy_routes_replay_witness :
  exists final,
    run (S (planned_timeouts [[1; 2]%nat])) (fun _ => (1 # 2)%Q)
      default_weather two_customers [[1; 2]%nat] = Ok final /\
    length (logs final)
      = (length (time_matrix two_customers) - 1 + length [[1; 2]%nat])%nat.
Proof.
  apply (greedy_routes_replay (fun _ => (1 # 2)%Q) default_weather
           two_customers 2 [[1; 2]%nat]).
  - exact two_customers_accepts_nothing.
  - reflexivity.
Defined.

Lemma run_logs_follow_routes_witness :
  exists final,
    run 9 (fun _ => (1 # 2)%Q) default_weather two_customers
      [[1%nat]; [2%nat]] = Ok final /\
    map Para (rows_of 1 (logs final))
      = plan two_customers [[1%nat]; [2%nat]] 1.
Proof.
  destruct (run 9 (fun _ => (1 # 2)%Q) default_weather two_customers
              [[1%nat]; [2%nat]])
    as [final| |] eqn:H; try (vm_compute in H; discriminate).
  exists final. split; [reflexivity|].
  apply (run_logs_follow_routes (fun _ => (1 # 2)%Q) default_weather
           two_customers 9 [[1%nat]; [2%nat]] final 1 H).
Defined.

End CompositionWitnesses.

(** * When the ledger moves *)

Section LateArrivals.

Import WeatherService LogisticsSimulator Replay Instances.
Local Open Scope Q_scope.

Variable random : nat -> Q.
Variable w : WeatherService.t.
Variable d : DataModel.

Lemma step_late s s' :
  late d s = true ->
  step random w d s = Ok (Some s') ->
  total_overtime_cost s < total_overtime_cost s'.
Proof.
  unfold late. intros Hlate Hstep.
  destruct (step_inv _ _ _ _ _ Hstep) as (e & rest & Hpop & Hres).
  rewrite Hpop in Hlate.
  destruct (resume_accounts _ _ _ _ _ _ _ Hres) as (ob & Hb & Hob).
  rewrite Hb in Hlate. destruct ob as [bound|]; [|discriminate].
  destruct (Qlt_le_dec (inject_Z bound) (time e)) as [Hlt|]; [|discriminate].
  destruct Hob as (row & _ & _ & ->).
  rewrite charge_late by exact Hlt. simpl.
  assert (0 < (time e - inject_Z bound) * OVERTIME_RATE_PER_MIN).
  { apply Qmult_lt_0_compat; [lra|reflexivity]. }
  lra.
Qed.

Lemma run_events_late fuel : forall s final,
  run_events fuel random w d s = Ok final ->
  on_time fuel random w d s = false ->
  total_overtime_cost s < total_overtime_cost final.
Proof.
  induction fuel as [|fuel IH]; intros s final H Hoff; [discriminate|].
  simpl in H, Hoff. bind_inv H. destruct a as [s1|].
  - rewrite E in Hoff. apply andb_false_iff in Hoff.
    destruct Hoff as [Hlate|Hrest].
    + apply negb_false_iff in Hlate.
      apply Qlt_le_trans with (total_overtime_cost s1).
      * apply step_late; assumption.
      * apply (run_events_grows _ _ _ _ _ _ H).
    + apply Qle_lt_trans with (total_overtime_cost s1).
      * apply (step_grows _ _ _ _ _ E).
      * apply IH; assumption.
  - rewrite E in Hoff. rewrite andb_true_r in Hoff.
    apply negb_false_iff in Hoff. unfold late in Hoff. unfold step in E.
    destruct (pop (queue s)) as [[e rest]|]; [|discriminate].
    bind_inv E. discriminate.
Qed.

(** X25.  The ledger of a run that returns is above zero exactly when some
    arrival of the run came after its bound; otherwise it is zero. *)
Theorem run_ledger_positive_iff_late fuel routes final :
  run fuel random w d routes = Ok final ->
  exists s,
    start random w d init 0 routes = Ok s /\
    (0 < total_overtime_cost final <-> on_time fuel random w d s = false) /\
    (total_overtime_cost final == 0 <-> on_time fuel random w d s = true).
Proof.
  unfold run. intro H. bind_inv H. rename a into s. exists s.
  split; [exact E|].
  destruct (start_keeps _ _ _ _ _ _ _ E) as [_ Hzero].
  change (total_overtime_cost init) with 0 in Hzero.
  destruct (on_time fuel random w d s) eqn:Hon.
  - pose proof (run_events_on_time _ _ _ _ _ _ H Hon) as Heq.
    rewrite Hzero in Heq. rewrite Heq. split; split; intro Hx;
      try reflexivity; discriminate.
  - pose proof (run_events_late _ _ _ H Hon) as Hlt. rewrite Hzero in Hlt.
    split; split; intro Hx; try reflexivity; try assumption; try discriminate.
    exfalso. rewrite Hx in Hlt. apply (Qlt_irrefl 0). exact Hlt.
Qed.

(** X26.  A higher value of the random source never gives a slower weather:
    the multiplier of the state drawn does not grow with the value. *)
Theorem draw_milder_with_higher_value (self : WeatherService.t) (r r' : Q) :
  r <= r' ->
  travel_time_factor (get_current_weather self r')
    <= travel_time_factor (get_current_weather self r).
Proof.
  intro Hle. unfold get_current_weather.
  set (both := Binary64.fl (storm_prob self + rain_prob self)).
  destruct (Qlt_le_dec r' (storm_prob self)) as [H1|H1];
    destruct (Qlt_le_dec r (storm_prob self)) as [H2|H2];
    try (destruct (Qlt_le_dec r' both) as [H3|H3]);
    try (destruct (Qlt_le_dec r both) as [H4|H4]);
    try (vm_compute; discriminate); exfalso; lra.
Qed.

End LateArrivals.

Section LateArrivalsWitnesses.

Import WeatherService LogisticsSimulator Replay Instances.
Local Open Scope Q_scope.

Lemma run_ledger_positive_iff_late_witness :
  exists final s,
    run 4 (fun _ => 1 # 4) default_weather tight_window [[1%nat]] = Ok final /\
    start (fun _ => 1 # 4) default_weather tight_window init 0 [[1%nat]]
      = Ok s /\
    (0 < total_overtime_cost final
     <-> on_time 4 (fun _ => 1 # 4) default_weather tight_window s = false) /\
    (total_overtime_cost final == 0
     <-> on_time 4 (fun _ => 1 # 4) default_weather tight_window s = true).
Proof.
  destruct (run 4 (fun _ => 1 # 4) default_weather tight_window [[1%nat]])
    as [final| |] eqn:H; try (vm_compute in H; discriminate).
  destruct (run_ledger_positive_iff_late (fun _ => 1 # 4) default_weather
              tight_window 4 [[1%nat]] final H) as (s & Hs & Hrest).
  exists final, s. split; [reflexivity|]. split; [exact Hs|exact Hrest].
Defined.

Lemma draw_milder_with_higher_value_witness :
  travel_time_factor (get_current_weather default_weather (1 # 2))
    <= travel_time_factor (get_current_weather default_weather (1 # 20)).
Proof.
  apply (draw_milder_with_higher_value default_weather (1 # 20) (1 # 2)).
  discriminate.
Defined.

End LateArrivalsWitnesses.

(** * Vehicles the baseline needs *)

Section FleetOfBaseline.

Import Optimizer Instances.
Local Open Scope Z_scope.

Variable d : DataModel.

Lemma route_demand_concat cap routes :
  Forall (fun r => exists t, route_demand d r = Ok t /\ t <= cap) routes ->
  exists total,
    route_demand d (concat routes) = Ok total /\
    total <= cap * Z.of_nat (length routes).
Proof.
  induction 1 as [|r routes (t & Ht & Hle) _ (total & Htotal & Hbound)].
  - exists 0. split; [reflexivity|simpl; lia].
  - exists (t + total). split; [|cbn [length]; lia].
    simpl. clear Hle Hbound. revert t Ht.
    induction r as [|x r IH]; intros t Ht; simpl in *.
    + inversion Ht; subst. rewrite Htotal. reflexivity.
    + bind_inv Ht. bind_inv Ht. inversion Ht; subst.
      rewrite E. cbn [bind]. rewrite (IH _ E0). cbn [bind]. f_equal. lia.
Qed.

Lemma route_demand_Permutation l l' :
  Permutation l l' ->
  forall t, route_demand d l = Ok t -> route_demand d l' = Ok t.
Proof.
  induction 1 as [|x l l' _ IH|x y l|l l' l'' _ IH1 _ IH2]; intros t Ht.
  - assumption.
  - simpl in *. bind_inv Ht. bind_inv Ht. inversion Ht; subst.
    rewrite E. cbn [bind]. rewrite (IH _ E0). reflexivity.
  - simpl in *. bind_inv Ht. bind_inv Ht. inversion Ht; subst.
    bind_inv E0. bind_inv E0. inversion E0; subst.
    rewrite E1. cbn [bind]. rewrite E. cbn [bind]. rewrite E2. cbn [bind].
    f_equal. lia.
  - apply IH2, IH1, Ht.
Qed.

(** X27.  The baseline never returns fewer routes than the demand calls for:
    the demands of all the customers add up to at most the capacity it reads,
    [vehicle_capacities[0]], times the number of routes returned. *)
Theorem solve_greedy_uses_enough_vehicles fuel routes cap :
  solve_greedy fuel d = Ok routes ->
  list_get (vehicle_capacities d) 0 = Ok cap ->
  exists total,
    route_demand d (seq 1 (length (time_matrix d) - 1)) = Ok total /\
    total <= cap * Z.of_nat (length routes).
Proof.
  intros H Hcap.
  pose proof (solve_greedy_Permutation d fuel routes H) as Hperm.
  assert (Hall : Forall (fun r => exists t,
                    route_demand d r = Ok t /\ t <= cap) routes).
  { unfold solve_greedy in H. destruct fuel as [|fuel']; [discriminate|].
    refine (routes_loop_spec d cap Hcap _ _ (S fuel') [] _ routes
              (Forall_nil _) H).
    intros v (Hload & _ & _ & Hlast) Hne.
    exists (current_load v). split; [assumption|]. apply Hlast, Hne. }
  destruct (route_demand_concat cap routes Hall) as (total & Ht & Hle).
  exists total. split; [|assumption].
  apply (route_demand_Permutation _ _ Hperm total Ht).
Qed.

End FleetOfBaseline.

Lemma solve_greedy_uses_enough_vehicles_witness :
  exists total,
    Optimizer.route_demand Instances.two_customers
      (seq 1 (length (time_matrix Instances.two_customers) - 1)) = Ok total /\
    (total <= 50 * Z.of_nat (length [[1; 2]%nat]))%Z.
Proof.
  apply (solve_greedy_uses_enough_vehicles Instances.two_customers 2
           [[1; 2]%nat] 50%Z).
  - reflexivity.
  - reflexivity.
Defined.

(** * The baseline on a generated instance *)

Section BaselineOnGenerated.

Import Optimizer DataGen GeneratedInstances.
Local Open Scope Z_scope.

Variable g : Stream.
Variable calculate_time_matrix : list Location -> list (list Z).

Lemma create_data_model_inv n max_time service vehicles gen :
  create_data_model g calculate_time_matrix n max_time service (Some vehicles)
    = Ok gen ->
  depot (model gen) = O /\
  length (demands (model gen)) = S n /\
  Forall (fun q => 0 <= q <= 9) (demands (model gen)) /\
  vehicle_capacities (model gen) = repeat 50 vehicles /\
  max_time_minutes (model gen) = Some max_time /\
  service_time (model gen) = Some service.
Proof.
  unfold create_data_model. intro H.
  bind_inv H. destruct a as [locs call]. bind_inv H. rename a into windows.
  inversion H; subst gen. simpl.
  destruct (generate_locations_numbers_customers_aux g n)
    as (dep & customers & call' & Hgen & _ & Hdem & Hlen & Hall).
  rewrite Hgen in E. inversion E; subst locs call'.
  split; [reflexivity|]. split; [simpl; rewrite length_map; congruence|].
  split; [|repeat split].
  simpl. rewrite Hdem. constructor; [lia|]. clear -Hall.
  induction Hall as [|l ls [_ Hl] _ IH]; simpl; constructor; [lia|assumption].
Qed.

(** X28.  On a generated model with at least one vehicle and a square
    matrix, if every customer can be reached from the depot, served and left
    for the depot within [max_time_minutes], the baseline returns within
    [num_customers] + 1 passes and its routes serve every customer: no
    generated demand is too large for a vehicle. *)
Theorem solve_greedy_serves_generated_model n max_time service vehicles gen :
  create_data_model g calculate_time_matrix n max_time service (Some vehicles)
    = Ok gen ->
  (1 <= vehicles)%nat ->
  length (time_matrix (model gen)) = S n ->
  (forall i j, (i <= n)%nat -> (j <= n)%nat ->
     exists t, matrix_get (time_matrix (model gen)) i j = Ok t) ->
  (forall c to back, (1 <= c <= n)%nat ->
     matrix_get (time_matrix (model gen)) 0 c = Ok to ->
     matrix_get (time_matrix (model gen)) c 0 = Ok back ->
     to + service + back <= max_time) ->
  exists routes,
    solve_greedy (S n) (model gen) = Ok routes /\
    Permutation (concat routes) (seq 1 n).
Proof.
  intros H Hv Hlen Hsquare Hnear.
  destruct (create_data_model_inv _ _ _ _ _ H)
    as (Hdepot & Hdlen & Hdem & Hcaps & Hmax & Hservice).
  assert (Hcap : list_get (vehicle_capacities (model gen)) 0 = Ok 50).
  { rewrite Hcaps. destruct vehicles; [lia|reflexivity]. }
  assert (Hget : forall i, (i <= n)%nat ->
            exists q, list_get (demands (model gen)) i = Ok q /\ 0 <= q <= 9).
  { intros i Hi. unfold list_get.
    destruct (nth_error (demands (model gen)) i) as [q|] eqn:Hq.
    - exists q. split; [reflexivity|].
      rewrite Forall_forall in Hdem. apply Hdem.
      apply nth_error_In with (1 := Hq).
    - apply nth_error_None in Hq. lia. }
  assert (Hwf : well_formed (model gen)).
  { unfold well_formed. rewrite Hlen, Hdepot. split; [lia|]. split.
    - intros i j Hi Hj. apply Hsquare; lia.
    - intros i Hi. destruct (Hget i ltac:(lia)) as (q & Hq & _).
      exists q. exact Hq. }
  destruct (solve_greedy_returns (model gen) 50 Hwf Hcap) as (routes & Hr).
  - rewrite Hlen. simpl. rewrite Nat.sub_0_r. intros c Hc. apply in_seq in Hc.
    destruct (Hsquare 0%nat c ltac:(lia) ltac:(lia)) as (to & Hto).
    destruct (Hsquare c 0%nat ltac:(lia) ltac:(lia)) as (back & Hback).
    destruct (Hget c ltac:(lia)) as (q & Hq & Hq9).
    exists to, back, q. unfold fresh. simpl. rewrite Hdepot, Hmax, Hservice.
    simpl. repeat split; try assumption; try lia.
    apply (Hnear c to back); [lia|assumption|assumption].
  - rewrite Hlen in Hr. exists routes. split; [exact Hr|].
    pose proof (solve_greedy_Permutation _ _ _ Hr) as Hperm.
    rewrite Hlen in Hperm. simpl in Hperm. rewrite Nat.sub_0_r in Hperm.
    exact Hperm.
Qed.

End BaselineOnGenerated.

Section BaselineOnGeneratedWitnesses.

Import Optimizer DataGen GeneratedInstances.
Local Open Scope Z_scope.

Lemma solve_greedy_serves_generated_model_witness :
  exists gen,
    create_data_model still_air flat_matrix 2 480 30 (Some 2%nat) = Ok gen /\
    exists routes,
      solve_greedy 3 (model gen) = Ok routes /\
      Permutation (concat routes) (seq 1 2).
Proof.
  destruct (create_data_model still_air flat_matrix 2 480 30 (Some 2%nat))
    as [gen| |] eqn:H; try (vm_compute in H; discriminate).
  exists gen. split; [reflexivity|].
  apply (solve_greedy_serves_generated_model still_air flat_matrix 2 480 30
           2%nat gen H).
  - lia.
  - vm_compute in H. inversion H. reflexivity.
  - intros i j Hi Hj. exists 7. vm_compute in H. inversion H.
    destruct i as [|[|[|i]]]; [| | |lia];
      (destruct j as [|[|[|j]]]; [| | |lia]); reflexivity.
  - intros c to back Hc Hto Hback. vm_compute in H. inversion H; subst gen.
    destruct c as [|[|[|c]]]; [lia| | |lia];
      vm_compute in Hto, Hback; inversion Hto; inversion Hback; lia.
Defined.

End BaselineOnGeneratedWitnesses.
